(** * HalProxy: the sensors multi-HAL proxy

    A shallow embedding of [HalProxy.cpp] (sensors 2.0 multi-HAL) and the
    properties of its handle namespace, shared wake lock, pending-write queue
    and sub-HAL routing.

    Conventions.
    - [int32_t] values are integers in [-2^31, 2^31); [size_t] values are
      integers in [0, 2^64) (LP64).  Conversions are written out as
      [to_int32] and [to_size_t].
    - [getTimeNow()] is an argument [now] of every function that reads the
      clock.
    - External collaborators keep a history of the calls the proxy makes on
      them: each sub-HAL its [shCalls], the power HAL [power], the framework
      callback [upstream], the Android log [logcat]. *)

From Stdlib Require Import ZArith Lia.
From stdpp Require Import base option list gmap strings sorting.

Local Open Scope Z_scope.

(** ** Machine integers *)

Definition to_int32 (z : Z) : Z := (z + 2 ^ 31) mod 2 ^ 32 - 2 ^ 31.
Definition to_size_t (z : Z) : Z := z mod 2 ^ 64.

Definition is_int32 (z : Z) : Prop := - 2 ^ 31 <= z < 2 ^ 31.
Definition is_size_t (z : Z) : Prop := 0 <= z < 2 ^ 64.

(** ** Sensor handles *)

Definition kBitsAfterSubHalIndex : Z := 24.

(** Modelled from the spec: [kSensorHandleSubHalIndexMask] is declared in
    HalProxy.h, which is not part of the sources.  The sub-HAL index is the
    top 8 bits of the 32-bit handle (the bits above [kBitsAfterSubHalIndex]),
    so the mask is the [int32_t] with bit pattern 0xFF000000. *)
Definition kSensorHandleSubHalIndexMask : Z := to_int32 0xFF000000.

Definition setSubHalIndex (sensorHandle : Z) (subHalIndex : Z) : Z :=
  Z.lor sensorHandle
        (to_int32 (Z.shiftl (to_int32 subHalIndex) kBitsAfterSubHalIndex)).

Definition extractSubHalIndex (sensorHandle : Z) : Z :=
  to_size_t (Z.shiftr sensorHandle kBitsAfterSubHalIndex).

Definition clearSubHalIndex (sensorHandle : Z) : Z :=
  Z.land sensorHandle (Z.lnot kSensorHandleSubHalIndexMask).

Definition subHalIndexIsClear (sensorHandle : Z) : bool :=
  Z.land sensorHandle kSensorHandleSubHalIndexMask =? 0.

(** ** HIDL data types (android.hardware.sensors@1.0) *)

Inductive Result := OK | PERMISSION_DENIED | NO_MEMORY | BAD_VALUE | INVALID_OPERATION.
Inductive OperationMode := NORMAL | DATA_INJECTION.

#[global] Instance Result_eq_dec : EqDecision Result.
Proof. solve_decision. Defined.
#[global] Instance OperationMode_eq_dec : EqDecision OperationMode.
Proof. solve_decision. Defined.

Module Event.
Record t := mk { sensorHandle : Z; sensorType : Z; payload : Z }.
Definition set_sensorHandle (h : Z) (e : t) : t :=
  {| sensorHandle := h; sensorType := sensorType e; payload := payload e |}.
End Event.

Module SensorInfo.
Record t := mk { sensorHandle : Z; name : string; flags : Z }.
Definition set_sensorHandle (h : Z) (s : t) : t :=
  {| sensorHandle := h; name := name s; flags := flags s |}.
Definition set_flags (f : Z) (s : t) : t :=
  {| sensorHandle := sensorHandle s; name := name s; flags := f |}.
(** The value-initialised descriptor that [std::map::operator[]] inserts
    for a missing key. *)
Definition default : t := {| sensorHandle := 0; name := ""; flags := 0 |}.
End SensorInfo.

Definition vsize {A} (v : list A) : Z := Z.of_nat (length v).

(** ** External collaborators *)

(** A sub-HAL ([ISensorsSubHal]).  The proxy only sees what a sub-HAL
    answers; [respond] gives the answer to a call as a function of the calls
    received before it, and [shCalls] records the calls received so far.
    The second component of an answer is the channel handle or report token
    of the direct-channel operations.  Distinct positions of [mSubHalList]
    hold distinct sub-HAL objects, so a sub-HAL pointer is its index. *)
Inductive SubHalCall :=
| SetOperationMode (mode : OperationMode)
| Activate (sensorHandle : Z) (enabled : bool)
| Batch (sensorHandle samplingPeriodNs maxReportLatencyNs : Z)
| Flush (sensorHandle : Z)
| InjectSensorData (event : Event.t)
| RegisterDirectChannel (mem : Z)
| UnregisterDirectChannel (channelHandle : Z)
| ConfigDirectReport (sensorHandle channelHandle rate : Z)
| Initialize (callbackIndex : nat).

Record SubHal := mkSubHal {
  getName : string;
  getSensorsList : list SensorInfo.t;
  respond : list SubHalCall -> SubHalCall -> Result * Z;
  shCalls : list SubHalCall
}.

Definition invoke (c : SubHalCall) (sh : SubHal) : (Result * Z) * SubHal :=
  (respond sh (shCalls sh) c,
   {| getName := getName sh; getSensorsList := getSensorsList sh;
      respond := respond sh; shCalls := shCalls sh ++ [c] |}).

(** The event fast message queue: a bounded FIFO of [quantumCount] slots.
    [unread] are the events written and not yet read, [consumed] the events
    already read, oldest first. *)
Record MessageQueue := mkMessageQueue {
  getQuantumCount : Z;
  unread : list Event.t;
  consumed : list Event.t
}.

Definition availableToWrite (q : MessageQueue) : Z := getQuantumCount q - vsize (unread q).
Definition availableToRead (q : MessageQueue) : Z := vsize (unread q).

(** Non-blocking write: all of [data] or nothing. *)
Definition write (data : list Event.t) (q : MessageQueue) : option MessageQueue :=
  if vsize data <=? availableToWrite q
  then Some {| getQuantumCount := getQuantumCount q;
               unread := unread q ++ data; consumed := consumed q |}
  else None.

Definition read (n : nat) (q : MessageQueue) : MessageQueue :=
  {| getQuantumCount := getQuantumCount q;
     unread := drop n (unread q); consumed := consumed q ++ take n (unread q) |}.

(** Blocking write with a timeout: while the writer waits the reader takes
    [readerTakes] events; the write goes through when that leaves room for
    [data], and times out otherwise. *)
Definition writeBlocking (data : list Event.t) (readerTakes : nat) (q : MessageQueue)
  : bool * MessageQueue :=
  let q1 := read readerTakes q in
  match write data q1 with
  | Some q2 => (true, q2)
  | None => (false, q1)
  end.

(** Every event ever written to the queue, in the order written. *)
Definition written (q : MessageQueue) : list Event.t := consumed q ++ unread q.

Inductive PowerCall := acquire_wake_lock | release_wake_lock.

Definition wake_lock_held (calls : list PowerCall) : bool :=
  match last calls with
  | Some acquire_wake_lock => true
  | _ => false
  end.

Inductive UpstreamCall :=
| OnDynamicSensorsConnected (sensors : list SensorInfo.t)
| OnDynamicSensorsDisconnected (sensorHandles : list Z).

Inductive LogArg := LogStr (s : string) | LogNum (n : Z).
Inductive LogLine :=
| ALOGE (fmt : string) (args : list LogArg)
| ALOGV (fmt : string) (args : list LogArg).

(** [ScopedWakelock] is declared outside the sources; the proxy only asks
    whether it is locked. *)
Record ScopedWakelock := mkScopedWakelock { isLocked : bool }.

(** ** Proxy state *)

(** Fields guarded by [mWakelockMutex], with the power HAL's call history. *)
Record Wakelock := mkWakelock {
  mWakelockRefCount : Z;
  mWakelockTimeoutStartTime : Z;
  mWakelockTimeoutResetTime : Z;
  power : list PowerCall
}.

(** Fields guarded by [mEventQueueWriteMutex].  [mEventQueue] is [None] and
    [mEventQueueFlag] is [false] while the pointer is null. *)
Record PendingWrites := mkPendingWrites {
  mEventQueue : option MessageQueue;
  mEventQueueFlag : bool;
  mPendingWriteEventsQueue : list (list Event.t * Z);
  mSizePendingWriteEventsQueue : Z;
  mMostEventsObservedPendingWriteEventsQueue : Z
}.

Record HalProxy := mkHalProxy {
  mSubHalList : list SubHal;
  mSensors : gmap Z SensorInfo.t;
  mDirectChannelSubHal : option nat;
  mCurrentOperationMode : OperationMode;
  mDynamicSensors : gmap Z SensorInfo.t;
  mDynamicSensorsCallback : bool;
  upstream : list UpstreamCall;
  mThreadsRun : bool;
  mWakelockThread : bool;
  mPendingWritesThread : bool;
  mWakeLockQueue : option (list Z);
  mWakelockQueueFlag : bool;
  wakelock : Wakelock;
  pendingWrites : PendingWrites;
  logcat : list LogLine
}.

(** Field updates: [set_f v r] is [r] with field [f] replaced by [v]. *)

Definition set_mWakelockRefCount v (w : Wakelock) : Wakelock :=
  {| mWakelockRefCount := v; mWakelockTimeoutStartTime := mWakelockTimeoutStartTime w;
     mWakelockTimeoutResetTime := mWakelockTimeoutResetTime w; power := power w |}.

Definition set_mWakelockTimeoutStartTime v (w : Wakelock) : Wakelock :=
  {| mWakelockRefCount := mWakelockRefCount w; mWakelockTimeoutStartTime := v;
     mWakelockTimeoutResetTime := mWakelockTimeoutResetTime w; power := power w |}.

Definition set_mWakelockTimeoutResetTime v (w : Wakelock) : Wakelock :=
  {| mWakelockRefCount := mWakelockRefCount w;
     mWakelockTimeoutStartTime := mWakelockTimeoutStartTime w;
     mWakelockTimeoutResetTime := v; power := power w |}.

Definition set_power v (w : Wakelock) : Wakelock :=
  {| mWakelockRefCount := mWakelockRefCount w;
     mWakelockTimeoutStartTime := mWakelockTimeoutStartTime w;
     mWakelockTimeoutResetTime := mWakelockTimeoutResetTime w; power := v |}.

Definition set_mEventQueue v (p : PendingWrites) : PendingWrites :=
  {| mEventQueue := v; mEventQueueFlag := mEventQueueFlag p;
     mPendingWriteEventsQueue := mPendingWriteEventsQueue p;
     mSizePendingWriteEventsQueue := mSizePendingWriteEventsQueue p;
     mMostEventsObservedPendingWriteEventsQueue := mMostEventsObservedPendingWriteEventsQueue p |}.

Definition set_mEventQueueFlag v (p : PendingWrites) : PendingWrites :=
  {| mEventQueue := mEventQueue p; mEventQueueFlag := v;
     mPendingWriteEventsQueue := mPendingWriteEventsQueue p;
     mSizePendingWriteEventsQueue := mSizePendingWriteEventsQueue p;
     mMostEventsObservedPendingWriteEventsQueue := mMostEventsObservedPendingWriteEventsQueue p |}.

Definition set_mPendingWriteEventsQueue v (p : PendingWrites) : PendingWrites :=
  {| mEventQueue := mEventQueue p; mEventQueueFlag := mEventQueueFlag p;
     mPendingWriteEventsQueue := v;
     mSizePendingWriteEventsQueue := mSizePendingWriteEventsQueue p;
     mMostEventsObservedPendingWriteEventsQueue := mMostEventsObservedPendingWriteEventsQueue p |}.

Definition set_mSizePendingWriteEventsQueue v (p : PendingWrites) : PendingWrites :=
  {| mEventQueue := mEventQueue p; mEventQueueFlag := mEventQueueFlag p;
     mPendingWriteEventsQueue := mPendingWriteEventsQueue p;
     mSizePendingWriteEventsQueue := v;
     mMostEventsObservedPendingWriteEventsQueue := mMostEventsObservedPendingWriteEventsQueue p |}.

Definition set_mMostEventsObservedPendingWriteEventsQueue v (p : PendingWrites) : PendingWrites :=
  {| mEventQueue := mEventQueue p; mEventQueueFlag := mEventQueueFlag p;
     mPendingWriteEventsQueue := mPendingWriteEventsQueue p;
     mSizePendingWriteEventsQueue := mSizePendingWriteEventsQueue p;
     mMostEventsObservedPendingWriteEventsQueue := v |}.

Definition set_mSubHalList v (st : HalProxy) : HalProxy :=
  {| mSubHalList := v; mSensors := mSensors st;
     mDirectChannelSubHal := mDirectChannelSubHal st;
     mCurrentOperationMode := mCurrentOperationMode st;
     mDynamicSensors := mDynamicSensors st;
     mDynamicSensorsCallback := mDynamicSensorsCallback st; upstream := upstream st;
     mThreadsRun := mThreadsRun st; mWakelockThread := mWakelockThread st;
     mPendingWritesThread := mPendingWritesThread st; mWakeLockQueue := mWakeLockQueue st;
     mWakelockQueueFlag := mWakelockQueueFlag st; wakelock := wakelock st;
     pendingWrites := pendingWrites st; logcat := logcat st |}.

Definition set_mSensors v (st : HalProxy) : HalProxy :=
  {| mSubHalList := mSubHalList st; mSensors := v;
     mDirectChannelSubHal := mDirectChannelSubHal st;
     mCurrentOperationMode := mCurrentOperationMode st;
     mDynamicSensors := mDynamicSensors st;
     mDynamicSensorsCallback := mDynamicSensorsCallback st; upstream := upstream st;
     mThreadsRun := mThreadsRun st; mWakelockThread := mWakelockThread st;
     mPendingWritesThread := mPendingWritesThread st; mWakeLockQueue := mWakeLockQueue st;
     mWakelockQueueFlag := mWakelockQueueFlag st; wakelock := wakelock st;
     pendingWrites := pendingWrites st; logcat := logcat st |}.

Definition set_mDirectChannelSubHal v (st : HalProxy) : HalProxy :=
  {| mSubHalList := mSubHalList st; mSensors := mSensors st; mDirectChannelSubHal := v;
     mCurrentOperationMode := mCurrentOperationMode st;
     mDynamicSensors := mDynamicSensors st;
     mDynamicSensorsCallback := mDynamicSensorsCallback st; upstream := upstream st;
     mThreadsRun := mThreadsRun st; mWakelockThread := mWakelockThread st;
     mPendingWritesThread := mPendingWritesThread st; mWakeLockQueue := mWakeLockQueue st;
     mWakelockQueueFlag := mWakelockQueueFlag st; wakelock := wakelock st;
     pendingWrites := pendingWrites st; logcat := logcat st |}.

Definition set_mCurrentOperationMode v (st : HalProxy) : HalProxy :=
  {| mSubHalList := mSubHalList st; mSensors := mSensors st;
     mDirectChannelSubHal := mDirectChannelSubHal st; mCurrentOperationMode := v;
     mDynamicSensors := mDynamicSensors st;
     mDynamicSensorsCallback := mDynamicSensorsCallback st; upstream := upstream st;
     mThreadsRun := mThreadsRun st; mWakelockThread := mWakelockThread st;
     mPendingWritesThread := mPendingWritesThread st; mWakeLockQueue := mWakeLockQueue st;
     mWakelockQueueFlag := mWakelockQueueFlag st; wakelock := wakelock st;
     pendingWrites := pendingWrites st; logcat := logcat st |}.

Definition set_mDynamicSensors v (st : HalProxy) : HalProxy :=
  {| mSubHalList := mSubHalList st; mSensors := mSensors st;
     mDirectChannelSubHal := mDirectChannelSubHal st;
     mCurrentOperationMode := mCurrentOperationMode st; mDynamicSensors := v;
     mDynamicSensorsCallback := mDynamicSensorsCallback st; upstream := upstream st;
     mThreadsRun := mThreadsRun st; mWakelockThread := mWakelockThread st;
     mPendingWritesThread := mPendingWritesThread st; mWakeLockQueue := mWakeLockQueue st;
     mWakelockQueueFlag := mWakelockQueueFlag st; wakelock := wakelock st;
     pendingWrites := pendingWrites st; logcat := logcat st |}.

Definition set_mDynamicSensorsCallback v (st : HalProxy) : HalProxy :=
  {| mSubHalList := mSubHalList st; mSensors := mSensors st;
     mDirectChannelSubHal := mDirectChannelSubHal st;
     mCurrentOperationMode := mCurrentOperationMode st;
     mDynamicSensors := mDynamicSensors st; mDynamicSensorsCallback := v;
     upstream := upstream st; mThreadsRun := mThreadsRun st;
     mWakelockThread := mWakelockThread st;
     mPendingWritesThread := mPendingWritesThread st; mWakeLockQueue := mWakeLockQueue st;
     mWakelockQueueFlag := mWakelockQueueFlag st; wakelock := wakelock st;
     pendingWrites := pendingWrites st; logcat := logcat st |}.

Definition set_upstream v (st : HalProxy) : HalProxy :=
  {| mSubHalList := mSubHalList st; mSensors := mSensors st;
     mDirectChannelSubHal := mDirectChannelSubHal st;
     mCurrentOperationMode := mCurrentOperationMode st;
     mDynamicSensors := mDynamicSensors st;
     mDynamicSensorsCallback := mDynamicSensorsCallback st; upstream := v;
     mThreadsRun := mThreadsRun st; mWakelockThread := mWakelockThread st;
     mPendingWritesThread := mPendingWritesThread st; mWakeLockQueue := mWakeLockQueue st;
     mWakelockQueueFlag := mWakelockQueueFlag st; wakelock := wakelock st;
     pendingWrites := pendingWrites st; logcat := logcat st |}.

Definition set_mThreadsRun v (st : HalProxy) : HalProxy :=
  {| mSubHalList := mSubHalList st; mSensors := mSensors st;
     mDirectChannelSubHal := mDirectChannelSubHal st;
     mCurrentOperationMode := mCurrentOperationMode st;
     mDynamicSensors := mDynamicSensors st;
     mDynamicSensorsCallback := mDynamicSensorsCallback st; upstream := upstream st;
     mThreadsRun := v; mWakelockThread := mWakelockThread st;
     mPendingWritesThread := mPendingWritesThread st; mWakeLockQueue := mWakeLockQueue st;
     mWakelockQueueFlag := mWakelockQueueFlag st; wakelock := wakelock st;
     pendingWrites := pendingWrites st; logcat := logcat st |}.

Definition set_mWakelockThread v (st : HalProxy) : HalProxy :=
  {| mSubHalList := mSubHalList st; mSensors := mSensors st;
     mDirectChannelSubHal := mDirectChannelSubHal st;
     mCurrentOperationMode := mCurrentOperationMode st;
     mDynamicSensors := mDynamicSensors st;
     mDynamicSensorsCallback := mDynamicSensorsCallback st; upstream := upstream st;
     mThreadsRun := mThreadsRun st; mWakelockThread := v;
     mPendingWritesThread := mPendingWritesThread st; mWakeLockQueue := mWakeLockQueue st;
     mWakelockQueueFlag := mWakelockQueueFlag st; wakelock := wakelock st;
     pendingWrites := pendingWrites st; logcat := logcat st |}.

Definition set_mPendingWritesThread v (st : HalProxy) : HalProxy :=
  {| mSubHalList := mSubHalList st; mSensors := mSensors st;
     mDirectChannelSubHal := mDirectChannelSubHal st;
     mCurrentOperationMode := mCurrentOperationMode st;
     mDynamicSensors := mDynamicSensors st;
     mDynamicSensorsCallback := mDynamicSensorsCallback st; upstream := upstream st;
     mThreadsRun := mThreadsRun st; mWakelockThread := mWakelockThread st;
     mPendingWritesThread := v; mWakeLockQueue := mWakeLockQueue st;
     mWakelockQueueFlag := mWakelockQueueFlag st; wakelock := wakelock st;
     pendingWrites := pendingWrites st; logcat := logcat st |}.

Definition set_mWakeLockQueue v (st : HalProxy) : HalProxy :=
  {| mSubHalList := mSubHalList st; mSensors := mSensors st;
     mDirectChannelSubHal := mDirectChannelSubHal st;
     mCurrentOperationMode := mCurrentOperationMode st;
     mDynamicSensors := mDynamicSensors st;
     mDynamicSensorsCallback := mDynamicSensorsCallback st; upstream := upstream st;
     mThreadsRun := mThreadsRun st; mWakelockThread := mWakelockThread st;
     mPendingWritesThread := mPendingWritesThread st; mWakeLockQueue := v;
     mWakelockQueueFlag := mWakelockQueueFlag st; wakelock := wakelock st;
     pendingWrites := pendingWrites st; logcat := logcat st |}.

Definition set_mWakelockQueueFlag v (st : HalProxy) : HalProxy :=
  {| mSubHalList := mSubHalList st; mSensors := mSensors st;
     mDirectChannelSubHal := mDirectChannelSubHal st;
     mCurrentOperationMode := mCurrentOperationMode st;
     mDynamicSensors := mDynamicSensors st;
     mDynamicSensorsCallback := mDynamicSensorsCallback st; upstream := upstream st;
     mThreadsRun := mThreadsRun st; mWakelockThread := mWakelockThread st;
     mPendingWritesThread := mPendingWritesThread st; mWakeLockQueue := mWakeLockQueue st;
     mWakelockQueueFlag := v; wakelock := wakelock st; pendingWrites := pendingWrites st;
     logcat := logcat st |}.

Definition set_wakelock v (st : HalProxy) : HalProxy :=
  {| mSubHalList := mSubHalList st; mSensors := mSensors st;
     mDirectChannelSubHal := mDirectChannelSubHal st;
     mCurrentOperationMode := mCurrentOperationMode st;
     mDynamicSensors := mDynamicSensors st;
     mDynamicSensorsCallback := mDynamicSensorsCallback st; upstream := upstream st;
     mThreadsRun := mThreadsRun st; mWakelockThread := mWakelockThread st;
     mPendingWritesThread := mPendingWritesThread st; mWakeLockQueue := mWakeLockQueue st;
     mWakelockQueueFlag := mWakelockQueueFlag st; wakelock := v;
     pendingWrites := pendingWrites st; logcat := logcat st |}.

Definition set_pendingWrites v (st : HalProxy) : HalProxy :=
  {| mSubHalList := mSubHalList st; mSensors := mSensors st;
     mDirectChannelSubHal := mDirectChannelSubHal st;
     mCurrentOperationMode := mCurrentOperationMode st;
     mDynamicSensors := mDynamicSensors st;
     mDynamicSensorsCallback := mDynamicSensorsCallback st; upstream := upstream st;
     mThreadsRun := mThreadsRun st; mWakelockThread := mWakelockThread st;
     mPendingWritesThread := mPendingWritesThread st; mWakeLockQueue := mWakeLockQueue st;
     mWakelockQueueFlag := mWakelockQueueFlag st; wakelock := wakelock st;
     pendingWrites := v; logcat := logcat st |}.

Definition set_logcat v (st : HalProxy) : HalProxy :=
  {| mSubHalList := mSubHalList st; mSensors := mSensors st;
     mDirectChannelSubHal := mDirectChannelSubHal st;
     mCurrentOperationMode := mCurrentOperationMode st;
     mDynamicSensors := mDynamicSensors st;
     mDynamicSensorsCallback := mDynamicSensorsCallback st; upstream := upstream st;
     mThreadsRun := mThreadsRun st; mWakelockThread := mWakelockThread st;
     mPendingWritesThread := mPendingWritesThread st; mWakeLockQueue := mWakeLockQueue st;
     mWakelockQueueFlag := mWakelockQueueFlag st; wakelock := wakelock st;
     pendingWrites := pendingWrites st; logcat := v |}.

Definition aloge (fmt : string) (args : list LogArg) (st : HalProxy) : HalProxy :=
  set_logcat (logcat st ++ [ALOGE fmt args]) st.

Definition alogv (fmt : string) (args : list LogArg) (st : HalProxy) : HalProxy :=
  set_logcat (logcat st ++ [ALOGV fmt args]) st.

(** [HalProxyCallback]: the callback handed to the sub-HAL at [mSubHalIndex]. *)
Record HalProxyCallback := mkHalProxyCallback { mSubHalIndex : Z }.

Section HalProxy.

(** Constants and helpers that HalProxy.cpp uses and that are declared
    outside the sources: the bound of the pending-write queue (HalProxy.h),
    the sensor flag bits and the sensor type of additional-info events
    (sensors@1.0 types), and the catalog accessor [HalProxy::getSensorInfo]
    (HalProxy.h). *)
Variable kMaxSizePendingWriteEventsQueue : Z.
Variables WAKE_UP MASK_DIRECT_REPORT MASK_DIRECT_CHANNEL : Z.
Variable ADDITIONAL_INFO : Z.
Variable getSensorInfo : Z -> HalProxy -> SensorInfo.t * HalProxy.

(** Modelled from the spec: [HalProxy::areThreadsRunning] is declared in
    HalProxy.h, which is not part of the sources; it reports the stop flag
    ("post after shutdown is a no-op"). *)
Definition areThreadsRunning (st : HalProxy) : bool := mThreadsRun st.

(** ** The shared wake lock *)

(** The out-parameter [timeoutStart], when given, receives
    [mWakelockTimeoutStartTime] of the resulting state. *)
Definition incrementRefCountAndMaybeAcquireWakelock (now delta : Z) (st : HalProxy)
  : bool * HalProxy :=
  if negb (mThreadsRun st) then (false, st)
  else
    let w := wakelock st in
    let w := if mWakelockRefCount w =? 0
             then set_power (power w ++ [acquire_wake_lock]) w
             else w in
    let w := set_mWakelockTimeoutStartTime now w in
    let w := set_mWakelockRefCount (to_size_t (mWakelockRefCount w + delta)) w in
    (true, set_wakelock w st).

Definition decrementRefCountAndMaybeReleaseWakelock (delta timeoutStart : Z) (st : HalProxy)
  : HalProxy :=
  if negb (mThreadsRun st) then st
  else
    let w := wakelock st in
    let timeoutStart :=
      if timeoutStart =? -1 then mWakelockTimeoutResetTime w else timeoutStart in
    if (mWakelockRefCount w =? 0) || (timeoutStart <? mWakelockTimeoutResetTime w) then st
    else
      let w := set_mWakelockRefCount
                 (to_size_t (mWakelockRefCount w - Z.min (mWakelockRefCount w) delta)) w in
      let w := if mWakelockRefCount w =? 0
               then set_power (power w ++ [release_wake_lock]) w
               else w in
      set_wakelock w st.

Definition resetSharedWakelock (now : Z) (st : HalProxy) : HalProxy :=
  let st := decrementRefCountAndMaybeReleaseWakelock
              (mWakelockRefCount (wakelock st)) (-1) st in
  set_wakelock (set_mWakelockTimeoutResetTime now (wakelock st)) st.

(** ** The pending-write queue *)

(** [mSensors[sensorHandle]]: a missing key is inserted with the
    value-initialised descriptor. *)
Definition sensorsAt (sensorHandle : Z) (sensors : gmap Z SensorInfo.t)
  : SensorInfo.t * gmap Z SensorInfo.t :=
  match sensors !! sensorHandle with
  | Some s => (s, sensors)
  | None => (SensorInfo.default, <[sensorHandle := SensorInfo.default]> sensors)
  end.

Fixpoint countNumWakeupEvents_loop (events : list Event.t) (numWakeupEvents : Z)
    (sensors : gmap Z SensorInfo.t) : Z * gmap Z SensorInfo.t :=
  match events with
  | [] => (numWakeupEvents, sensors)
  | e :: events' =>
      let (s, sensors) := sensorsAt (Event.sensorHandle e) sensors in
      let numWakeupEvents :=
        if Z.land (SensorInfo.flags s) WAKE_UP =? 0 then numWakeupEvents
        else to_size_t (numWakeupEvents + 1) in
      countNumWakeupEvents_loop events' numWakeupEvents sensors
  end.

(** Counts over [events[0..n)]; every caller passes [n <= events.size()]. *)
Definition countNumWakeupEvents (events : list Event.t) (n : Z) (st : HalProxy)
  : Z * HalProxy :=
  let (numWakeupEvents, sensors) :=
    countNumWakeupEvents_loop (take (Z.to_nat n) events) 0 (mSensors st) in
  (numWakeupEvents, set_mSensors sensors st).

(** The immediate write of [postEventsToMessageQueue]: the number of events
    written and the resulting queue state.  [None] is a null dereference
    ([mEventQueue] or [mEventQueueFlag] not yet created). *)
Definition postEvents_immediateWrite (events : list Event.t) (p : PendingWrites)
  : option (Z * PendingWrites) :=
  match mPendingWriteEventsQueue p with
  | [] =>
      q ← mEventQueue p;
      let numToWrite := Z.min (vsize events) (availableToWrite q) in
      if 0 <? numToWrite then
        match write (take (Z.to_nat numToWrite) events) q with
        | Some q' =>
            if mEventQueueFlag p then Some (numToWrite, set_mEventQueue (Some q') p)
            else None
        | None => Some (0, p)
        end
      else Some (numToWrite, p)
  | _ :: _ => Some (0, p)
  end.

Definition postEventsToMessageQueue (now : Z) (events : list Event.t)
    (numWakeupEvents : Z) (wakelock : ScopedWakelock) (st : HalProxy) : option HalProxy :=
  let st := if isLocked wakelock
            then snd (incrementRefCountAndMaybeAcquireWakelock now numWakeupEvents st)
            else st in
  '(numToWrite, p) ← postEvents_immediateWrite events (pendingWrites st);
  let numLeft := to_size_t (vsize events - numToWrite) in
  if (numToWrite <? vsize events) &&
     (to_size_t (mSizePendingWriteEventsQueue p + numLeft)
        <=? kMaxSizePendingWriteEventsQueue)
  then
    let eventsLeft := drop (Z.to_nat numToWrite) events in
    let p := set_mPendingWriteEventsQueue
               (mPendingWriteEventsQueue p ++ [(eventsLeft, numWakeupEvents)]) p in
    let p := set_mSizePendingWriteEventsQueue
               (to_size_t (mSizePendingWriteEventsQueue p + numLeft)) p in
    let p := set_mMostEventsObservedPendingWriteEventsQueue
               (Z.max (mMostEventsObservedPendingWriteEventsQueue p)
                      (mSizePendingWriteEventsQueue p)) p in
    Some (set_pendingWrites p st)
  else Some (set_pendingWrites p st).

(** One turn of the loop of [handlePendingWrites], the body of the
    pending-writes thread.  With the stop flag set the loop has ended, and
    with an empty queue the thread waits on [mEventQueueWriteCV]: the state
    stays as it is.  [readerTakes] is what the framework reads from the event
    queue while the blocking write waits. *)
Definition handlePendingWrites_turn (readerTakes : nat) (st : HalProxy) : option HalProxy :=
  if negb (mThreadsRun st) then Some st
  else
    match mPendingWriteEventsQueue (pendingWrites st) with
    | [] => Some st
    | (pendingWriteEvents, numWakeupEvents) :: pending =>
        q ← mEventQueue (pendingWrites st);
        let eventQueueSize := getQuantumCount q in
        let numToWrite := Z.min (vsize pendingWriteEvents) eventQueueSize in
        let (ok, q) :=
          writeBlocking (take (Z.to_nat numToWrite) pendingWriteEvents) readerTakes q in
        let st := set_pendingWrites (set_mEventQueue (Some q) (pendingWrites st)) st in
        let st :=
          if ok then st
          else
            let st := aloge "Dropping %zu events after blockingWrite failed."
                            [LogNum numToWrite] st in
            if 0 <? numWakeupEvents then
              if eventQueueSize <? vsize pendingWriteEvents then
                let (n, st) := countNumWakeupEvents pendingWriteEvents eventQueueSize st in
                decrementRefCountAndMaybeReleaseWakelock n (-1) st
              else decrementRefCountAndMaybeReleaseWakelock numWakeupEvents (-1) st
            else st in
        let p := pendingWrites st in
        let p := set_mSizePendingWriteEventsQueue
                   (to_size_t (mSizePendingWriteEventsQueue p - numToWrite)) p in
        let p :=
          if eventQueueSize <? vsize pendingWriteEvents
          then set_mPendingWriteEventsQueue
                 ((drop (Z.to_nat eventQueueSize) pendingWriteEvents, numWakeupEvents)
                    :: pending) p
          else set_mPendingWriteEventsQueue pending p in
        Some (set_pendingWrites p st)
    end.

(** The pending-writes thread over several turns, one reader behaviour per
    turn. *)
Fixpoint handlePendingWrites (readers : list nat) (st : HalProxy) : option HalProxy :=
  match readers with
  | [] => Some st
  | readerTakes :: readers' =>
      st' ← handlePendingWrites_turn readerTakes st;
      handlePendingWrites readers' st'
  end.

(** ** The sub-HAL callback *)

Fixpoint processEvents (cb : HalProxyCallback) (events : list Event.t)
    (numWakeupEvents : Z) (st : HalProxy) : list Event.t * Z * HalProxy :=
  match events with
  | [] => ([], numWakeupEvents, st)
  | event :: events' =>
      let event :=
        Event.set_sensorHandle
          (setSubHalIndex (Event.sensorHandle event) (to_size_t (mSubHalIndex cb))) event in
      let (sensor, st) := getSensorInfo (Event.sensorHandle event) st in
      let numWakeupEvents :=
        if Z.land (SensorInfo.flags sensor) WAKE_UP =? 0 then numWakeupEvents
        else to_size_t (numWakeupEvents + 1) in
      let '(eventsOut, numWakeupEvents, st) :=
        processEvents cb events' numWakeupEvents st in
      (event :: eventsOut, numWakeupEvents, st)
  end.

(** [ALOG_ASSERT] expands to nothing in a build without debug logging. *)
Definition postEvents (cb : HalProxyCallback) (now : Z) (events : list Event.t)
    (wakelock : ScopedWakelock) (st : HalProxy) : option HalProxy :=
  if bool_decide (events = []) || negb (areThreadsRunning st) then Some st
  else
    let '(processedEvents, numWakeupEvents, st) := processEvents cb events 0 st in
    postEventsToMessageQueue now processedEvents numWakeupEvents wakelock st.

(** ** Routing to sub-HALs *)

Definition isSubHalIndexValid (sensorHandle : Z) (st : HalProxy) : bool :=
  extractSubHalIndex sensorHandle <? vsize (mSubHalList st).

(** The sub-HAL pointer [mSubHalList[extractSubHalIndex(sensorHandle)]]. *)
Definition getSubHalForSensorHandle (sensorHandle : Z) : nat :=
  Z.to_nat (extractSubHalIndex sensorHandle).

(** A call through a sub-HAL pointer.  [None] is a pointer that designates
    no element of [mSubHalList] (a subscript out of range). *)
Definition callSubHal (subHal : nat) (c : SubHalCall) (st : HalProxy)
  : option (Result * Z * HalProxy) :=
  sh ← mSubHalList st !! subHal;
  let (r, sh') := invoke c sh in
  Some (r, set_mSubHalList (<[subHal := sh']> (mSubHalList st)) st).

(** The first loop of [setOperationMode]: the result, the value of
    [subHalIndex] when the loop ends, the sub-HALs after the calls and the
    error logged at a failure. *)
Fixpoint setOperationMode_forward (mode : OperationMode) (subHals : list SubHal)
  : Result * nat * list SubHal * list LogLine :=
  match subHals with
  | [] => (OK, 0%nat, [], [])
  | subHal :: rest =>
      let '(result, _, subHal') := invoke (SetOperationMode mode) subHal in
      if decide (result = OK) then
        let '(result, subHalIndex, rest', lg) := setOperationMode_forward mode rest in
        (result, S subHalIndex, subHal' :: rest', lg)
      else
        (result, 0%nat, subHal' :: rest,
         [ALOGE "setOperationMode failed for SubHal: %s" [LogStr (getName subHal)]])
  end.

(** The second loop: the sub-HALs below [subHalIndex] are set to [mode]. *)
Definition setOperationMode_rollback (mode : OperationMode) (subHalIndex : nat)
    (subHals : list SubHal) : list SubHal :=
  ((λ subHal, snd (invoke (SetOperationMode mode) subHal)) <$> take subHalIndex subHals)
    ++ drop subHalIndex subHals.

Definition setOperationMode (mode : OperationMode) (st : HalProxy) : Result * HalProxy :=
  let '(result, subHalIndex, subHals, lg) :=
    setOperationMode_forward mode (mSubHalList st) in
  let st := set_logcat (logcat st ++ lg) (set_mSubHalList subHals st) in
  if decide (result = OK) then (result, set_mCurrentOperationMode mode st)
  else
    (result,
     set_mSubHalList
       (setOperationMode_rollback (mCurrentOperationMode st) subHalIndex (mSubHalList st))
       st).

Definition activate (sensorHandle : Z) (enabled : bool) (st : HalProxy)
  : option (Result * HalProxy) :=
  if negb (isSubHalIndexValid sensorHandle st) then Some (BAD_VALUE, st)
  else
    '(r, _, st) ← callSubHal (getSubHalForSensorHandle sensorHandle)
                     (Activate (clearSubHalIndex sensorHandle) enabled) st;
    Some (r, st).

Definition batch (sensorHandle samplingPeriodNs maxReportLatencyNs : Z) (st : HalProxy)
  : option (Result * HalProxy) :=
  if negb (isSubHalIndexValid sensorHandle st) then Some (BAD_VALUE, st)
  else
    '(r, _, st) ← callSubHal (getSubHalForSensorHandle sensorHandle)
                     (Batch (clearSubHalIndex sensorHandle) samplingPeriodNs
                            maxReportLatencyNs) st;
    Some (r, st).

Definition flush (sensorHandle : Z) (st : HalProxy) : option (Result * HalProxy) :=
  if negb (isSubHalIndexValid sensorHandle st) then Some (BAD_VALUE, st)
  else
    '(r, _, st) ← callSubHal (getSubHalForSensorHandle sensorHandle)
                     (Flush (clearSubHalIndex sensorHandle)) st;
    Some (r, st).

Definition injectSensorData (event : Event.t) (st : HalProxy)
  : option (Result * HalProxy) :=
  let (result, st) :=
    if bool_decide (mCurrentOperationMode st = NORMAL) &&
       negb (Event.sensorType event =? ADDITIONAL_INFO)
    then (BAD_VALUE,
          aloge ("An event with type != ADDITIONAL_INFO passed to injectSensorData while operation"
                 ++ " mode was NORMAL.") [] st)
    else (OK, st) in
  if decide (result = OK) then
    if negb (isSubHalIndexValid (Event.sensorHandle event) st) then Some (BAD_VALUE, st)
    else
      let subHalEvent :=
        Event.set_sensorHandle (clearSubHalIndex (Event.sensorHandle event)) event in
      '(r, _, st) ← callSubHal (getSubHalForSensorHandle (Event.sensorHandle event))
                       (InjectSensorData subHalEvent) st;
      Some (r, st)
  else Some (result, st).

(** ** Direct channels *)

(** The pair returned is what [_hidl_cb] receives. *)
Definition registerDirectChannel (mem : Z) (st : HalProxy) : option (Result * Z * HalProxy) :=
  match mDirectChannelSubHal st with
  | None => Some (INVALID_OPERATION, -1, st)
  | Some subHal => callSubHal subHal (RegisterDirectChannel mem) st
  end.

Definition unregisterDirectChannel (channelHandle : Z) (st : HalProxy)
  : option (Result * HalProxy) :=
  match mDirectChannelSubHal st with
  | None => Some (INVALID_OPERATION, st)
  | Some subHal =>
      '(r, _, st) ← callSubHal subHal (UnregisterDirectChannel channelHandle) st;
      Some (r, st)
  end.

Definition configDirectReport (sensorHandle channelHandle rate : Z) (st : HalProxy)
  : option (Result * Z * HalProxy) :=
  match mDirectChannelSubHal st with
  | None => Some (INVALID_OPERATION, -1, st)
  | Some subHal =>
      callSubHal subHal
        (ConfigDirectReport (clearSubHalIndex sensorHandle) channelHandle rate) st
  end.

(** ** The sensor catalog *)

Definition directChannelMask : Z := Z.lor MASK_DIRECT_REPORT MASK_DIRECT_CHANNEL.

(** [flags] is a 32-bit unsigned field. *)
Definition setDirectChannelFlags (sensorInfo : SensorInfo.t) (subHal : nat) (st : HalProxy)
  : SensorInfo.t * HalProxy :=
  let sensorSupportsDirectChannel :=
    negb (Z.land (SensorInfo.flags sensorInfo) directChannelMask =? 0) in
  match mDirectChannelSubHal st with
  | None =>
      if sensorSupportsDirectChannel
      then (sensorInfo, set_mDirectChannelSubHal (Some subHal) st)
      else (sensorInfo, st)
  | Some direct =>
      if bool_decide (subHal ≠ direct)
      then (SensorInfo.set_flags
              (Z.land (SensorInfo.flags sensorInfo) (Z.lnot directChannelMask) mod 2 ^ 32)
              sensorInfo, st)
      else (sensorInfo, st)
  end.

(** The callback that [initializeSensorList] passes to [getSensorsList]. *)
Fixpoint initializeSensorList_sensors (list : list SensorInfo.t) (subHalIndex : nat)
    (st : HalProxy) : HalProxy :=
  match list with
  | [] => st
  | sensor :: list' =>
      let st :=
        if negb (subHalIndexIsClear (SensorInfo.sensorHandle sensor))
        then aloge "SubHal sensorHandle's first byte was not 0" [] st
        else
          let st := alogv "Loaded sensor: %s" [LogStr (SensorInfo.name sensor)] st in
          let sensor :=
            SensorInfo.set_sensorHandle
              (setSubHalIndex (SensorInfo.sensorHandle sensor) (Z.of_nat subHalIndex))
              sensor in
          let (sensor, st) := setDirectChannelFlags sensor subHalIndex st in
          set_mSensors (<[SensorInfo.sensorHandle sensor := sensor]> (mSensors st)) st in
      initializeSensorList_sensors list' subHalIndex st
  end.

(** The loop of [initializeSensorList] from [subHalIndex] on, over the
    sub-HALs [subHals] not yet visited.  The call to [getSensorsList] stays
    in the process, so its transport status is ok. *)
Fixpoint initializeSensorList_from (subHals : list SubHal) (subHalIndex : nat)
    (st : HalProxy) : HalProxy :=
  match subHals with
  | [] => st
  | subHal :: subHals' =>
      initializeSensorList_from subHals' (S subHalIndex)
        (initializeSensorList_sensors (getSensorsList subHal) subHalIndex st)
  end.

Definition initializeSensorList (st : HalProxy) : HalProxy :=
  initializeSensorList_from (mSubHalList st) 0%nat st.

(** The loop of [onDynamicSensorsConnected]: the catalog of dynamic sensors,
    the descriptors to forward and the errors logged. *)
Fixpoint onDynamicSensorsConnected_loop (dynamicSensorsAdded : list SensorInfo.t)
    (subHalIndex : Z) (sensors : list SensorInfo.t) (st : HalProxy)
  : list SensorInfo.t * HalProxy :=
  match dynamicSensorsAdded with
  | [] => (sensors, st)
  | sensor :: added' =>
      if negb (subHalIndexIsClear (SensorInfo.sensorHandle sensor))
      then
        onDynamicSensorsConnected_loop added' subHalIndex sensors
          (aloge "Dynamic sensor added %s had sensorHandle with first byte not 0."
                 [LogStr (SensorInfo.name sensor)] st)
      else
        let sensor :=
          SensorInfo.set_sensorHandle
            (setSubHalIndex (SensorInfo.sensorHandle sensor) (to_size_t subHalIndex))
            sensor in
        onDynamicSensorsConnected_loop added' subHalIndex (sensors ++ [sensor])
          (set_mDynamicSensors
             (<[SensorInfo.sensorHandle sensor := sensor]> (mDynamicSensors st)) st)
  end.

(** [None] is a call through a null [mDynamicSensorsCallback]. *)
Definition onDynamicSensorsConnected (dynamicSensorsAdded : list SensorInfo.t)
    (subHalIndex : Z) (st : HalProxy) : option HalProxy :=
  let (sensors, st) := onDynamicSensorsConnected_loop dynamicSensorsAdded subHalIndex [] st in
  if mDynamicSensorsCallback st
  then Some (set_upstream (upstream st ++ [OnDynamicSensorsConnected sensors]) st)
  else None.

Fixpoint onDynamicSensorsDisconnected_loop (dynamicSensorHandlesRemoved : list Z)
    (subHalIndex : Z) (sensorHandles : list Z) (st : HalProxy) : list Z * HalProxy :=
  match dynamicSensorHandlesRemoved with
  | [] => (sensorHandles, st)
  | sensorHandle :: removed' =>
      if negb (subHalIndexIsClear sensorHandle)
      then
        onDynamicSensorsDisconnected_loop removed' subHalIndex sensorHandles
          (aloge "Dynamic sensorHandle removed had first byte not 0." [] st)
      else
        let sensorHandle := setSubHalIndex sensorHandle (to_size_t subHalIndex) in
        match mDynamicSensors st !! sensorHandle with
        | Some _ =>
            onDynamicSensorsDisconnected_loop removed' subHalIndex
              (sensorHandles ++ [sensorHandle])
              (set_mDynamicSensors (delete sensorHandle (mDynamicSensors st)) st)
        | None =>
            onDynamicSensorsDisconnected_loop removed' subHalIndex sensorHandles st
        end
  end.

Definition onDynamicSensorsDisconnected (dynamicSensorHandlesRemoved : list Z)
    (subHalIndex : Z) (st : HalProxy) : option HalProxy :=
  let (sensorHandles, st) :=
    onDynamicSensorsDisconnected_loop dynamicSensorHandlesRemoved subHalIndex [] st in
  if mDynamicSensorsCallback st
  then Some (set_upstream (upstream st ++ [OnDynamicSensorsDisconnected sensorHandles]) st)
  else None.

(** ** Initialisation *)

(** [std::map] is walked in ascending key order. *)
Definition sensorHandles (sensors : gmap Z SensorInfo.t) : list Z :=
  merge_sort Z.le (map_to_list sensors).*1.

Fixpoint disableAllSensors_loop (handles : list Z) (st : HalProxy) : option HalProxy :=
  match handles with
  | [] => Some st
  | sensorHandle :: handles' =>
      '(_, st) ← activate sensorHandle false st;
      disableAllSensors_loop handles' st
  end.

Definition disableAllSensors (st : HalProxy) : option HalProxy :=
  st ← disableAllSensors_loop (sensorHandles (mSensors st)) st;
  disableAllSensors_loop (sensorHandles (mDynamicSensors st)) st.

(** A blocking read of one word from the wake-lock queue [wq]: while the
    reader waits the framework writes [frameworkWrites]; the read yields the
    oldest word, or times out when there is none. *)
Definition readBlocking (frameworkWrites : list Z) (wq : list Z) : option Z * list Z :=
  match wq ++ frameworkWrites with
  | [] => (None, [])
  | numWakeLocksProcessed :: rest => (Some numWakeLocksProcessed, rest)
  end.

(** The loop body of [handlePendingWrites] once the thread has taken up the
    front batch [(pendingWriteEvents, numWakeupEvents)] of the pending-write
    queue, [pending] being the batches behind it: the blocking write to the
    event queue [q], what follows its failure, and the removal of the events
    tried. *)
Definition handlePendingWrites_front (readerTakes : nat) (q : MessageQueue)
    (pendingWriteEvents : list Event.t) (numWakeupEvents : Z)
    (pending : list (list Event.t * Z)) (st : HalProxy) : HalProxy :=
  let eventQueueSize := getQuantumCount q in
  let numToWrite := Z.min (vsize pendingWriteEvents) eventQueueSize in
  let (ok, q) :=
    writeBlocking (take (Z.to_nat numToWrite) pendingWriteEvents) readerTakes q in
  let st := set_pendingWrites (set_mEventQueue (Some q) (pendingWrites st)) st in
  let st :=
    if ok then st
    else
      let st := aloge "Dropping %zu events after blockingWrite failed."
                      [LogNum numToWrite] st in
      if 0 <? numWakeupEvents then
        if eventQueueSize <? vsize pendingWriteEvents then
          let (n, st) := countNumWakeupEvents pendingWriteEvents eventQueueSize st in
          decrementRefCountAndMaybeReleaseWakelock n (-1) st
        else decrementRefCountAndMaybeReleaseWakelock numWakeupEvents (-1) st
      else st in
  let p := pendingWrites st in
  let p := set_mSizePendingWriteEventsQueue
             (to_size_t (mSizePendingWriteEventsQueue p - numToWrite)) p in
  let p :=
    if eventQueueSize <? vsize pendingWriteEvents
    then set_mPendingWriteEventsQueue
           ((drop (Z.to_nat eventQueueSize) pendingWriteEvents, numWakeupEvents)
              :: pending) p
    else set_mPendingWriteEventsQueue pending p in
  set_pendingWrites p st.

(** Where [stopThreads] finds a thread that it joins.  [AtLoopTest]: the
    thread evaluates [mThreadsRun] next, after the store, and leaves its
    loop; it was waiting on its condition variable, or had not yet taken up
    the work that is there.  [InBlockingCall]: the thread is past the test
    and blocked, the pending-writes thread in [writeBlocking] for want of
    room in the event queue, the wake-lock thread in [readBlocking] for want
    of a word in the wake-lock queue, and it stays so until [stopThreads]
    wakes the event flag it blocks on.  A blocking call that returns earlier,
    by an action of the framework or by its timeout, belongs to a turn of the
    thread that precedes [stopThreads], but for the release after it, which
    may find the stop flag down; that interleaving is not among the two. *)
Inductive ThreadAt := AtLoopTest | InBlockingCall.

(** The first block of [stopThreads]: the event queue is read empty and
    [EVENTS_READ] is woken.  A pending-writes thread blocked in
    [writeBlocking] is woken by it: it ends the turn it is in on the emptied
    queue, with the stop flag down, and leaves its loop at the next test.
    Without the event flag or the queue there is nothing to block on and
    nothing is woken, and with nothing pending no thread is in
    [writeBlocking]: the thread is then at its loop test. *)
Definition stopThreads_eventQueue (writer : ThreadAt) (st : HalProxy) : HalProxy :=
  match mEventQueue (pendingWrites st) with
  | Some q =>
      if mEventQueueFlag (pendingWrites st) then
        let numToRead := availableToRead q in
        let q := read (Z.to_nat numToRead) q in
        let st := set_pendingWrites (set_mEventQueue (Some q) (pendingWrites st)) st in
        match writer, mPendingWritesThread st, mPendingWriteEventsQueue (pendingWrites st) with
        | InBlockingCall, true, (pendingWriteEvents, numWakeupEvents) :: pending =>
            handlePendingWrites_front 0 q pendingWriteEvents numWakeupEvents pending st
        | _, _, _ => st
        end
      else st
  | None => st
  end.

(** The second block of [stopThreads]: a zero is written to the wake-lock
    queue, which is taken to have room for it, and [DATA_WRITTEN] is woken.
    A wake-lock thread blocked in [readBlocking] is woken by it: it reads the
    oldest word of the queue, makes the release of that many events with the
    stop flag down, and leaves its loop at the next test. *)
Definition stopThreads_wakeLockQueue (waker : ThreadAt) (st : HalProxy) : HalProxy :=
  match mWakeLockQueue st with
  | Some wq =>
      if mWakelockQueueFlag st then
        let wq := wq ++ [0] in
        let st := set_mWakeLockQueue (Some wq) st in
        match waker, mWakelockThread st with
        | InBlockingCall, true =>
            let (numWakeLocksProcessed, wq) := readBlocking [] wq in
            let st := set_mWakeLockQueue (Some wq) st in
            match numWakeLocksProcessed with
            | Some n => decrementRefCountAndMaybeReleaseWakelock (to_size_t n) (-1) st
            | None => st
            end
        | _, _ => st
        end
      else st
  | None => st
  end.

(** [writer] and [waker] say where the pending-writes thread and the
    wake-lock thread are found.  After the store the two threads touch no
    field in common, so the order in which they end does not matter.  Out of
    its loop the wake-lock thread ends with the [resetSharedWakelock] that
    closes [handleWakelocks], reading the clock at [tExit]; the
    pending-writes thread just ends. *)
Definition stopThreads (tExit : Z) (writer waker : ThreadAt) (st : HalProxy) : HalProxy :=
  let st := set_mThreadsRun false st in
  let st := stopThreads_eventQueue writer st in
  let st := stopThreads_wakeLockQueue waker st in
  let st := if mPendingWritesThread st then set_mPendingWritesThread false st else st in
  if mWakelockThread st
  then set_mWakelockThread false (resetSharedWakelock tExit st)
  else st.

(** The loop of [initialize] over the sub-HALs: the failure that ended it, if
    any.  [mSubHalCallbacks[i]] is the callback whose [mSubHalIndex] is [i]. *)
Fixpoint initialize_subHals (subHals : list SubHal) (i : nat)
  : option Result * list SubHal * list LogLine :=
  match subHals with
  | [] => (None, [], [])
  | subHal :: rest =>
      let '(currRes, _, subHal') := invoke (Initialize i) subHal in
      if decide (currRes = OK) then
        let '(failure, rest', lg) := initialize_subHals rest (S i) in
        (failure, subHal' :: rest', lg)
      else
        (Some currRes, subHal' :: rest,
         [ALOGE "Subhal '%s' failed to initialize." [LogStr (getName subHal)]])
  end.

(** [writer] and [waker] are where [stopThreads] finds the two threads;
    [eventQueueDescriptor] is the size of the new event queue;
    [sensorsCallback] tells whether the callback is non-null;
    [eventFlagCreated] and [wakelockFlagCreated] are the outcomes of the two
    calls to [createEventFlag]. *)
Definition initialize (now tExit : Z) (writer waker : ThreadAt) (eventQueueDescriptor : Z)
    (sensorsCallback : bool) (eventFlagCreated wakelockFlagCreated : bool) (st : HalProxy)
  : option (Result * HalProxy) :=
  let result := OK in
  let st := stopThreads tExit writer waker st in
  let st := resetSharedWakelock now st in
  st ← disableAllSensors st;
  let p := pendingWrites st in
  let p := set_mPendingWriteEventsQueue [] p in
  let p := set_mSizePendingWriteEventsQueue 0 p in
  let st := set_mDynamicSensors ∅ st in
  let st := set_mDynamicSensorsCallback sensorsCallback st in
  let p := set_mEventQueue
             (Some {| getQuantumCount := eventQueueDescriptor;
                      unread := []; consumed := [] |}) p in
  let st := set_mWakeLockQueue (Some []) st in
  let p := set_mEventQueueFlag eventFlagCreated p in
  let st := set_mWakelockQueueFlag wakelockFlagCreated st in
  let st := set_pendingWrites p st in
  let result := if eventFlagCreated then result else BAD_VALUE in
  let result := if wakelockFlagCreated then result else BAD_VALUE in
  let result :=
    if negb (mDynamicSensorsCallback st) || negb (mEventQueueFlag (pendingWrites st))
    then BAD_VALUE else result in
  let st := set_mThreadsRun true st in
  let st := set_mPendingWritesThread true st in
  let st := set_mWakelockThread true st in
  let '(failure, subHals, lg) := initialize_subHals (mSubHalList st) 0%nat in
  let st := set_logcat (logcat st ++ lg) (set_mSubHalList subHals st) in
  let result := match failure with Some currRes => currRes | None => result end in
  let st := set_mCurrentOperationMode NORMAL st in
  Some (result, st).

(** ** Notions used in the statements *)

(** *** The event queue and its reader *)

(** The number of events that [postEventsToMessageQueue] writes at once. *)
Definition writtenAtOnce (events : list Event.t) (p : PendingWrites) (q : MessageQueue) : Z :=
  match mPendingWriteEventsQueue p with
  | [] => Z.min (vsize events) (availableToWrite q)
  | _ :: _ => 0
  end.

(** [blockingWritesSucceed readers st]: along the turns of the pending-writes
    thread from [st], with the framework reading as [readers] says, no
    blocking write times out. *)
Definition blockingWriteSucceeds (readerTakes : nat) (st : HalProxy) : bool :=
  match mPendingWriteEventsQueue (pendingWrites st), mEventQueue (pendingWrites st) with
  | (pendingWriteEvents, _) :: _, Some q =>
      let numToWrite := Z.min (vsize pendingWriteEvents) (getQuantumCount q) in
      negb (mThreadsRun st) ||
      fst (writeBlocking (take (Z.to_nat numToWrite) pendingWriteEvents) readerTakes q)
  | _, _ => true
  end.

Fixpoint blockingWritesSucceed (readers : list nat) (st : HalProxy) : bool :=
  match readers with
  | [] => true
  | readerTakes :: readers' =>
      blockingWriteSucceeds readerTakes st &&
      match handlePendingWrites_turn readerTakes st with
      | Some st' => blockingWritesSucceed readers' st'
      | None => true
      end
  end.

(** *** Sub-HAL call histories *)

(** What a sub-HAL answers to its next call. *)
Definition answer (c : SubHalCall) (sh : SubHal) : Result * Z := respond sh (shCalls sh) c.

(** A sub-HAL after it received the calls [cs]. *)
Definition called (cs : list SubHalCall) (sh : SubHal) : SubHal :=
  {| getName := getName sh; getSensorsList := getSensorsList sh;
     respond := respond sh; shCalls := shCalls sh ++ cs |}.

(** The proxy after the call [c] went to the sub-HAL [sh] at position [d],
    and to no other. *)
Definition forwarded (d : nat) (c : SubHalCall) (sh : SubHal) (st : HalProxy) : HalProxy :=
  set_mSubHalList (<[d := called [c] sh]> (mSubHalList st)) st.

(** *** Descriptors reported by a sub-HAL *)

(** A descriptor in the sub-HAL's own address space: no namespace bits. *)
Definition unnamespaced (s : SensorInfo.t) : Prop :=
  subHalIndexIsClear (SensorInfo.sensorHandle s) = true.

#[global] Instance unnamespaced_dec s : Decision (unnamespaced s).
Proof. unfold unnamespaced. apply _. Defined.

(** The descriptor with the sub-HAL index put on its handle. *)
Definition stamp (subHalIndex : Z) (s : SensorInfo.t) : SensorInfo.t :=
  SensorInfo.set_sensorHandle (setSubHalIndex (SensorInfo.sensorHandle s) subHalIndex) s.

(** The catalog after [m[s.sensorHandle] = s] for each [s] in turn. *)
Definition insertAll (m : gmap Z SensorInfo.t) (l : list SensorInfo.t) : gmap Z SensorInfo.t :=
  foldl (λ m s, <[SensorInfo.sensorHandle s := s]> m) m l.

(** One descriptor of the enumeration. *)
Definition enumerated (sensor : SensorInfo.t) (subHalIndex : nat) (st : HalProxy) : HalProxy :=
  initializeSensorList_sensors [sensor] subHalIndex st.

(** ** The wake-lock thread *)

Definition to_int64 (z : Z) : Z := (z + 2 ^ 63) mod 2 ^ 64 - 2 ^ 63.
Definition is_int64 (z : Z) : Prop := - 2 ^ 63 <= z < 2 ^ 63.

(** The ceiling on the time the wake lock is held without an acknowledgement;
    it is declared outside the sources. *)
Variable kWakelockTimeoutNs : Z.

(** The result and, when the lock has not timed out, the value stored in
    [*timeLeft]. *)
Definition sharedWakelockDidTimeout (now : Z) (st : HalProxy) : bool * option Z :=
  let duration := to_int64 (now - mWakelockTimeoutStartTime (wakelock st)) in
  if kWakelockTimeoutNs <? duration then (true, None)
  else (false, Some (to_int64 (kWakelockTimeoutNs - duration))).

(** One turn of the loop of [handleWakelocks], the body of the wake-lock
    thread.  With the stop flag set the loop has ended, and with a zero count
    the thread waits on [mWakelockCV].  [now] is the clock read by
    [sharedWakelockDidTimeout] and [nowReset] the clock read by the reset
    that follows a timeout.  [None] is a null [mWakeLockQueue]. *)
Definition handleWakelocks_turn (now nowReset : Z) (frameworkWrites : list Z)
    (st : HalProxy) : option HalProxy :=
  if negb (mThreadsRun st) then Some st
  else if negb (0 <? mWakelockRefCount (wakelock st)) then Some st
  else
    let (didTimeout, timeLeft) := sharedWakelockDidTimeout now st in
    if didTimeout then Some (resetSharedWakelock nowReset st)
    else
      wq ← mWakeLockQueue st;
      let (numWakeLocksProcessed, wq) := readBlocking frameworkWrites wq in
      let st := set_mWakeLockQueue (Some wq) st in
      match numWakeLocksProcessed with
      | Some n => Some (decrementRefCountAndMaybeReleaseWakelock (to_size_t n) (-1) st)
      | None => Some st
      end.

(** ** The client's view of the catalog *)

(** [HalProxy::getSensorsList]: the descriptors of [mSensors] in the order
    of their keys. *)
Definition HalProxy_getSensorsList (st : HalProxy) : list SensorInfo.t :=
  omap (λ sensorHandle, mSensors st !! sensorHandle) (sensorHandles (mSensors st)).

Definition init (st : HalProxy) : HalProxy := initializeSensorList st.

(** ** Further notions used in the statements *)

(** The OS wake lock is held exactly while events are counted. *)
Definition wakelock_consistent (w : Wakelock) : Prop :=
  wake_lock_held (power w) = (0 <? mWakelockRefCount w).

(** The events waiting in the pending-write queue, oldest first. *)
Definition pendingEvents (pending : list (list Event.t * Z)) : list Event.t :=
  concat (fst <$> pending).

(** The size counter counts the waiting events and the high-water mark is
    not below it. *)
Definition queue_consistent (p : PendingWrites) : Prop :=
  mSizePendingWriteEventsQueue p = vsize (pendingEvents (mPendingWriteEventsQueue p)) ∧
  mSizePendingWriteEventsQueue p <= mMostEventsObservedPendingWriteEventsQueue p.

(** The event as [processEvents] hands it to the proxy. *)
Definition stampEvent (subHalIndex : Z) (e : Event.t) : Event.t :=
  Event.set_sensorHandle (setSubHalIndex (Event.sensorHandle e) subHalIndex) e.

(** Whether the catalog marks the sensor of the event as a wake-up sensor. *)
Definition isWakeupIn (sensors : gmap Z SensorInfo.t) (e : Event.t) : bool :=
  match sensors !! Event.sensorHandle e with
  | Some s => negb (Z.land (SensorInfo.flags s) WAKE_UP =? 0)
  | None => false
  end.

(** The handles that [onDynamicSensorsDisconnected] looks up for the sub-HAL
    at [subHalIndex]: the unnamespaced handles of the report, stamped. *)
Definition stampedHandles (subHalIndex : Z) (handles : list Z) : list Z :=
  (λ h, setSubHalIndex h subHalIndex)
    <$> filter (λ h, subHalIndexIsClear h = true) handles.

(** Sub-HAL lists that differ only by calls received, all of them among
    those [P] allows. *)
Definition extendedBy (P : SubHalCall → Prop) (l l' : list SubHal) : Prop :=
  length l' = length l ∧
  ∀ j sh, l !! j = Some sh → ∃ cs, l' !! j = Some (called cs sh) ∧ Forall P cs.

Definition isDisable (c : SubHalCall) : Prop := ∃ h, c = Activate h false.

(** Every catalog entry that advertises direct channels is filed under a
    handle stamped with the index of the designated sub-HAL. *)
Definition direct_exclusive (st : HalProxy) : Prop :=
  ∀ k s, mSensors st !! k = Some s →
         Z.land (SensorInfo.flags s) directChannelMask ≠ 0 →
         ∃ d h, mDirectChannelSubHal st = Some d ∧ subHalIndexIsClear h = true ∧
                k = setSubHalIndex h (Z.of_nat d).

(** ** Sample configurations *)

Definition exAccept : list SubHalCall → SubHalCall → Result * Z := λ _ _, (OK, 7).

(** Accepts every call but a switch to data injection. *)
Definition exNoInjection : list SubHalCall → SubHalCall → Result * Z :=
  λ _ c, match c with
         | SetOperationMode DATA_INJECTION => (INVALID_OPERATION, 0)
         | _ => (OK, 9)
         end.

Definition exSubHalA : SubHal :=
  {| getName := "A"; getSensorsList := [SensorInfo.mk 1 "a1" 0];
     respond := exAccept; shCalls := [] |}.

Definition exSubHalB : SubHal :=
  {| getName := "B"; getSensorsList := [SensorInfo.mk 1 "b1" 1];
     respond := exNoInjection; shCalls := [] |}.

Definition exEvent (n : Z) : Event.t := Event.mk 1 1 n.

(** Two sub-HALs, threads running, an event queue of four free slots, nothing
    pending, wake lock free. *)
Definition exProxy : HalProxy :=
  {| mSubHalList := [exSubHalA; exSubHalB];
     mSensors := {[ 1 := SensorInfo.mk 1 "a1" 0; 16777217 := SensorInfo.mk 16777217 "b1" 1 ]};
     mDirectChannelSubHal := None;
     mCurrentOperationMode := NORMAL;
     mDynamicSensors := ∅;
     mDynamicSensorsCallback := true;
     upstream := [];
     mThreadsRun := true;
     mWakelockThread := true;
     mPendingWritesThread := true;
     mWakeLockQueue := Some [];
     mWakelockQueueFlag := true;
     wakelock := mkWakelock 0 0 0 [];
     pendingWrites := mkPendingWrites (Some (mkMessageQueue 4 [] [])) true [] 0 0;
     logcat := [] |}.

(** [exProxy] holding the wake lock for [rc] wake-up events, last reset at
    time 10. *)
Definition exHeld (rc : Z) : HalProxy :=
  set_wakelock (mkWakelock rc 12 10 [acquire_wake_lock]) exProxy.

Definition exEvents (first count : Z) : list Event.t := exEvent <$> seqZ first count.

(** [exProxy] with one batch of eight events pending. *)
Definition exBacklog : HalProxy :=
  set_pendingWrites
    (mkPendingWrites (Some (mkMessageQueue 4 [] [])) true [(exEvents 1 8, 0)] 8 8)
    exProxy.

Definition exLocked : ScopedWakelock := mkScopedWakelock true.
Definition exUnlocked : ScopedWakelock := mkScopedWakelock false.

(** [exProxy] once its threads have been stopped, still holding the wake lock
    for two events. *)
Definition exStopped : HalProxy := set_mThreadsRun false (exHeld 2).

(** [exProxy] with sub-HAL B designated for direct channels. *)
Definition exDirect : HalProxy := set_mDirectChannelSubHal (Some 1%nat) exProxy.

(** A report with one descriptor in the sub-HAL's address space and one that
    carries namespace bits. *)
Definition exReport : list SensorInfo.t :=
  [SensorInfo.mk 2 "ok" 0; SensorInfo.mk 16777218 "malformed" 0].

(** [exProxy] with two batches waiting. *)
Definition exTwoBatches : HalProxy :=
  set_pendingWrites
    (mkPendingWrites (Some (mkMessageQueue 4 [] [])) true
                     [(exEvents 1 3, 0); (exEvents 4 2, 0)] 5 5)
    exProxy.

(** [exHeld 1] with a full event queue and one batch of two events, one of
    them a wake-up event, waiting. *)
Definition exJammed : HalProxy :=
  set_pendingWrites
    (mkPendingWrites (Some (mkMessageQueue 4 (exEvents 21 4) [])) true
                     [(exEvents 1 2, 1)] 2 2)
    (exHeld 1).

(** [exProxy] with one dynamic sensor of sub-HAL B connected. *)
Definition exDynamic : HalProxy :=
  set_mDynamicSensors {[ 16777218 := SensorInfo.mk 16777218 "dyn" 0 ]} exProxy.

(** 128 copies of sub-HAL A followed by sub-HAL B, nothing catalogued yet. *)
Definition exManySubHals : HalProxy :=
  set_mSensors ∅ (set_mSubHalList (replicate 128 exSubHalA ++ [exSubHalB]) exProxy).

(** A catalog accessor that knows no sensor. *)
Definition exGetSensorInfo : Z → HalProxy → SensorInfo.t * HalProxy :=
  λ _ st, (SensorInfo.default, st).

(** A sub-HAL whose one sensor advertises a direct channel type. *)
Definition exSubHalDirect : SubHal :=
  {| getName := "D"; getSensorsList := [SensorInfo.mk 4 "d4" 1024];
     respond := exAccept; shCalls := [] |}.

(** Two direct-channel sub-HALs, nothing catalogued yet. *)
Definition exTwoDirect : HalProxy :=
  set_mSensors ∅ (set_mSubHalList [exSubHalDirect; exSubHalDirect] exProxy).

(** * Properties *)

(** ** Handle namespace *)

Lemma to_int32_small z : is_int32 z → to_int32 z = z.
Proof.
  unfold is_int32, to_int32. intros Hz.
  rewrite Z.mod_small; lia.
Qed.

Lemma to_size_t_small z : is_size_t z → to_size_t z = z.
Proof. unfold is_size_t, to_size_t. intros Hz. by rewrite Z.mod_small. Qed.

Lemma to_size_t_range z : is_size_t (to_size_t z).
Proof. unfold is_size_t, to_size_t. apply Z.mod_pos_bound. lia. Qed.

(** The mask selects the bits from [kBitsAfterSubHalIndex] up. *)
Lemma land_mask h : Z.land h kSensorHandleSubHalIndexMask = Z.shiftl (Z.shiftr h 24) 24.
Proof.
  change kSensorHandleSubHalIndexMask with (Z.lnot (Z.ones 24)).
  rewrite <- Z.ldiff_land. apply Z.ldiff_ones_r. lia.
Qed.

Lemma subHalIndexIsClear_range h :
  subHalIndexIsClear h = true ↔ 0 <= h < 2 ^ 24.
Proof.
  unfold subHalIndexIsClear. rewrite Z.eqb_eq, land_mask.
  rewrite Z.shiftl_eq_0_iff by lia.
  rewrite Z.shiftr_div_pow2 by lia.
  split.
  - intros Hq. apply Z.div_small_iff in Hq; lia.
  - intros Hh. apply Z.div_small. lia.
Qed.

(** What [setSubHalIndex] puts above the local handle is a multiple of
    [2^24]. *)
Lemma shifted_index_multiple i :
  ∃ k, to_int32 (Z.shiftl (to_int32 i) kBitsAfterSubHalIndex) = k * 2 ^ 24.
Proof.
  unfold to_int32 at 1, kBitsAfterSubHalIndex.
  rewrite Z.shiftl_mul_pow2 by lia.
  set (y := to_int32 i).
  exists (y - 256 * ((y * 2 ^ 24 + 2 ^ 31) / 2 ^ 32)).
  rewrite Z.mod_eq by lia. lia.
Qed.

Lemma land_low_shifted h k : 0 <= h < 2 ^ 24 → Z.land h (Z.shiftl k 24) = 0.
Proof.
  intros Hh. apply Z.bits_inj'; intros n Hn.
  rewrite Z.land_spec, Z.bits_0.
  destruct (Z.lt_ge_cases n 24) as [Hlt|Hge].
  - rewrite Z.shiftl_spec_low by lia. apply andb_false_r.
  - assert (Z.testbit h n = false) as ->; [|done].
    apply Z.bits_above_log2; [lia|].
    destruct (decide (h = 0)) as [->|Hne]; [simpl; lia|].
    assert (Z.log2 h < 24) by (apply Z.log2_lt_pow2; lia). lia.
Qed.

Lemma lor_disjoint_add h k :
  0 <= h < 2 ^ 24 → Z.lor h (k * 2 ^ 24) = h + k * 2 ^ 24.
Proof.
  intros Hh.
  rewrite <- Z.shiftl_mul_pow2 by lia.
  pose proof (land_low_shifted h k Hh) as Hdisj.
  rewrite Z.add_nocarry_lxor by done.
  symmetry. by apply Z.lxor_lor.
Qed.

Lemma setSubHalIndex_decompose h i :
  subHalIndexIsClear h = true →
  ∃ k, to_int32 (Z.shiftl (to_int32 i) kBitsAfterSubHalIndex) = k * 2 ^ 24 ∧
       setSubHalIndex h i = h + k * 2 ^ 24.
Proof.
  intros Hh%subHalIndexIsClear_range.
  destruct (shifted_index_multiple i) as [k Hk].
  exists k. split; [done|].
  unfold setSubHalIndex. rewrite Hk. by apply lor_disjoint_add.
Qed.

(** Clearing the namespace bits of a stamped handle gives back the local
    handle, for every index. *)
Lemma clearSubHalIndex_setSubHalIndex h i :
  subHalIndexIsClear h = true → clearSubHalIndex (setSubHalIndex h i) = h.
Proof.
  intros Hh.
  destruct (setSubHalIndex_decompose h i Hh) as (k & _ & ->).
  apply subHalIndexIsClear_range in Hh.
  unfold clearSubHalIndex.
  change (Z.lnot kSensorHandleSubHalIndexMask) with (Z.ones 24).
  rewrite Z.land_ones by lia.
  rewrite Z.mod_add by lia. by apply Z.mod_small.
Qed.

(** The index comes back when it is below 128. *)
Lemma extractSubHalIndex_setSubHalIndex_low h i :
  subHalIndexIsClear h = true → 0 <= i < 128 →
  extractSubHalIndex (setSubHalIndex h i) = i.
Proof.
  intros Hh Hi.
  destruct (setSubHalIndex_decompose h i Hh) as (k & Hk & ->).
  apply subHalIndexIsClear_range in Hh.
  assert (k = i) as ->.
  { revert Hk. unfold kBitsAfterSubHalIndex.
    rewrite (to_int32_small i) by (unfold is_int32; lia).
    rewrite Z.shiftl_mul_pow2 by lia.
    rewrite to_int32_small by (unfold is_int32; lia). lia. }
  unfold extractSubHalIndex, kBitsAfterSubHalIndex.
  rewrite Z.shiftr_div_pow2 by lia.
  rewrite Z.div_add by lia. rewrite Z.div_small by lia.
  apply to_size_t_small. unfold is_size_t. lia.
Qed.

(** From 128 on the stamped handle is negative and the arithmetic shift of
    [extractSubHalIndex] extends its sign. *)
Lemma extractSubHalIndex_setSubHalIndex_high h i :
  subHalIndexIsClear h = true → 128 <= i < 256 →
  extractSubHalIndex (setSubHalIndex h i) = 2 ^ 64 - 256 + i.
Proof.
  intros Hh Hi.
  destruct (setSubHalIndex_decompose h i Hh) as (k & Hk & ->).
  apply subHalIndexIsClear_range in Hh.
  assert (k = i - 256) as ->.
  { revert Hk. unfold kBitsAfterSubHalIndex.
    rewrite (to_int32_small i) by (unfold is_int32; lia).
    rewrite Z.shiftl_mul_pow2 by lia.
    unfold to_int32.
    replace (i * 2 ^ 24 + 2 ^ 31) with ((i * 2 ^ 24 - 2 ^ 31) + 1 * 2 ^ 32) by lia.
    rewrite Z.mod_add by lia. rewrite Z.mod_small by lia. lia. }
  unfold extractSubHalIndex, kBitsAfterSubHalIndex.
  rewrite Z.shiftr_div_pow2 by lia.
  rewrite Z.div_add by lia. rewrite Z.div_small by lia.
  unfold to_size_t.
  replace (0 + (i - 256)) with ((2 ^ 64 - 256 + i) + (-1) * 2 ^ 64) by lia.
  rewrite Z.mod_add by lia. apply Z.mod_small. lia.
Qed.

(** C4 (code fault).  The claim asks that for every index of the 8-bit
    namespace the index be recovered from the stamped handle.  At the
    unnamespaced handle 0 and index 128 the local handle is recovered, and
    the index read back is 2^64 - 128, which no list of sub-HALs reaches. *)
Theorem extractSubHalIndex_loses_index_128 :
  subHalIndexIsClear 0 = true ∧
  clearSubHalIndex (setSubHalIndex 0 128) = 0 ∧
  extractSubHalIndex (setSubHalIndex 0 128) = 18446744073709551488 ∧
  extractSubHalIndex (setSubHalIndex 0 128) ≠ 128.
Proof. repeat split. by vm_compute. Qed.

(** ** Shared wake lock *)

Lemma decrement_stopped delta timeoutStart st :
  mThreadsRun st = false →
  decrementRefCountAndMaybeReleaseWakelock delta timeoutStart st = st.
Proof. intros Hrun. unfold decrementRefCountAndMaybeReleaseWakelock. by rewrite Hrun. Qed.

Lemma set_wakelock_id st : set_wakelock (wakelock st) st = st.
Proof. by destruct st. Qed.

(** The release that takes effect, on the wake-lock fields alone. *)
Lemma decrement_effective delta timeoutStart st :
  mThreadsRun st = true →
  timeoutStart = -1 ∨ mWakelockTimeoutResetTime (wakelock st) <= timeoutStart →
  is_size_t (mWakelockRefCount (wakelock st)) → 0 <= delta →
  let rc := mWakelockRefCount (wakelock st) in
  let st' := decrementRefCountAndMaybeReleaseWakelock delta timeoutStart st in
  mWakelockRefCount (wakelock st') = rc - Z.min rc delta ∧
  power (wakelock st') =
    (if bool_decide (0 < rc ∧ rc <= delta)
     then power (wakelock st) ++ [release_wake_lock] else power (wakelock st)) ∧
  mWakelockTimeoutStartTime (wakelock st') = mWakelockTimeoutStartTime (wakelock st) ∧
  mWakelockTimeoutResetTime (wakelock st') = mWakelockTimeoutResetTime (wakelock st) ∧
  set_wakelock (wakelock st) st' = st.
Proof.
  intros Hrun Hts Hrc Hdelta rc st'. subst st'.
  unfold decrementRefCountAndMaybeReleaseWakelock. rewrite Hrun. simpl.
  fold rc.
  set (ts := if timeoutStart =? -1 then _ else _).
  assert ((ts <? mWakelockTimeoutResetTime (wakelock st)) = false) as ->.
  { apply Z.ltb_ge. subst ts. destruct (Z.eqb_spec timeoutStart (-1)); lia. }
  rewrite orb_false_r.
  unfold is_size_t in Hrc. fold rc in Hrc.
  destruct (Z.eqb_spec rc 0) as [H0|H0].
  - rewrite bool_decide_eq_false_2 by lia.
    rewrite set_wakelock_id. repeat split; lia.
  - rewrite to_size_t_small by (unfold is_size_t; lia).
    destruct (Z.eqb_spec (rc - Z.min rc delta) 0) as [Hz|Hz].
    + rewrite bool_decide_eq_true_2 by lia.
      destruct st; repeat split; done.
    + rewrite bool_decide_eq_false_2 by lia.
      destruct st; repeat split; done.
Qed.

(** C3 (amended).  While the threads run: a release whose [timeoutStart] is
    given (not the default -1) and precedes the last reset changes nothing;
    any other release subtracts [min(refCount, delta)] and calls
    [release_wake_lock] exactly when a positive count reaches zero, leaving
    the two time stamps of the wake lock and every field outside it as they
    were.  After the threads are stopped a release changes nothing. *)
Theorem release_stale_or_counted (delta timeoutStart : Z) (st : HalProxy) :
  is_size_t (mWakelockRefCount (wakelock st)) → 0 <= delta →
  let rc := mWakelockRefCount (wakelock st) in
  let reset := mWakelockTimeoutResetTime (wakelock st) in
  let st' := decrementRefCountAndMaybeReleaseWakelock delta timeoutStart st in
  (mThreadsRun st = false → st' = st) ∧
  (mThreadsRun st = true → timeoutStart ≠ -1 → timeoutStart < reset → st' = st) ∧
  (mThreadsRun st = true → timeoutStart = -1 ∨ reset <= timeoutStart →
     mWakelockRefCount (wakelock st') = rc - Z.min rc delta ∧
     (power (wakelock st') = power (wakelock st) ++ [release_wake_lock]
        ↔ 0 < rc ∧ mWakelockRefCount (wakelock st') = 0) ∧
     (power (wakelock st') = power (wakelock st)
        ↔ ¬ (0 < rc ∧ mWakelockRefCount (wakelock st') = 0)) ∧
     mWakelockTimeoutStartTime (wakelock st')
     = mWakelockTimeoutStartTime (wakelock st) ∧
     mWakelockTimeoutResetTime (wakelock st') = reset ∧
     set_wakelock (wakelock st) st' = st).
Proof.
  intros Hrc Hdelta rc reset st'. split; [|split].
  - intros Hrun. by apply decrement_stopped.
  - intros Hrun Hne Hlt. subst st'.
    unfold decrementRefCountAndMaybeReleaseWakelock. rewrite Hrun. simpl.
    destruct (Z.eqb_spec timeoutStart (-1)); [done|].
    fold reset. apply Z.ltb_lt in Hlt. rewrite Hlt. by rewrite orb_true_r.
  - intros Hrun Hts.
    destruct (decrement_effective delta timeoutStart st Hrun Hts Hrc Hdelta)
      as (Hcount & Hpower & Hstart & Hreset & Hframe).
    fold st' rc in Hcount, Hpower, Hframe. fold st' in Hstart, Hreset.
    unfold is_size_t in Hrc. fold rc in Hrc.
    split; [done|]. rewrite Hpower, Hcount.
    assert (∀ l : list PowerCall, l ++ [release_wake_lock] ≠ l) as Hgrow.
    { intros l Heq. apply (f_equal length) in Heq. rewrite length_app in Heq.
      simpl in Heq. lia. }
    case_bool_decide as Hcase.
    + split; [split; [lia|done]|]. split; [|done].
      split; [intros Heq; by apply Hgrow in Heq|lia].
    + split; [split; [intros Heq; symmetry in Heq; by apply Hgrow in Heq|lia]|].
      split; [|done]. split; [lia|done].
Qed.

Lemma resetSharedWakelock_stopped now st :
  mThreadsRun st = false →
  resetSharedWakelock now st =
    set_wakelock (set_mWakelockTimeoutResetTime now (wakelock st)) st.
Proof. intros Hrun. unfold resetSharedWakelock. by rewrite decrement_stopped. Qed.

(** What a reset does while the threads run. *)
Lemma resetSharedWakelock_running now st :
  mThreadsRun st = true → is_size_t (mWakelockRefCount (wakelock st)) →
  let st' := resetSharedWakelock now st in
  mWakelockRefCount (wakelock st') = 0 ∧
  power (wakelock st') =
    (if bool_decide (0 < mWakelockRefCount (wakelock st))
     then power (wakelock st) ++ [release_wake_lock] else power (wakelock st)) ∧
  mWakelockTimeoutResetTime (wakelock st') = now.
Proof.
  intros Hrun Hrc st'. subst st'. unfold resetSharedWakelock.
  destruct (decrement_effective (mWakelockRefCount (wakelock st)) (-1) st)
    as (Hcount & Hpower & _ & _ & _); [done|by left|done|unfold is_size_t in Hrc; lia|].
  simpl. rewrite Hcount, Hpower. unfold is_size_t in Hrc.
  repeat split; [lia|].
  repeat case_bool_decide; (done || lia).
Qed.

Lemma decrement_only_wakelock delta timeoutStart st :
  set_wakelock (wakelock st)
    (decrementRefCountAndMaybeReleaseWakelock delta timeoutStart st) = st.
Proof.
  unfold decrementRefCountAndMaybeReleaseWakelock.
  repeat match goal with |- context [if ?b then _ else _] => destruct b end;
    by destruct st.
Qed.

Lemma decrement_as_set delta timeoutStart st :
  decrementRefCountAndMaybeReleaseWakelock delta timeoutStart st
  = set_wakelock
      (wakelock (decrementRefCountAndMaybeReleaseWakelock delta timeoutStart st)) st.
Proof.
  pose proof (decrement_only_wakelock delta timeoutStart st) as Hframe.
  set (st' := decrementRefCountAndMaybeReleaseWakelock delta timeoutStart st) in *.
  clearbody st'. transitivity (set_wakelock (wakelock st') (set_wakelock (wakelock st) st'));
    [by destruct st'|by rewrite Hframe].
Qed.

Lemma countNumWakeupEvents_only_sensors events n st :
  set_mSensors (mSensors st) (snd (countNumWakeupEvents events n st)) = st.
Proof.
  unfold countNumWakeupEvents.
  destruct (countNumWakeupEvents_loop _ _ _). by destruct st.
Qed.

(** The loop body of [handlePendingWrites] changes the queue state, the log,
    the catalog and the wake lock, and nothing else. *)
Lemma handlePendingWrites_front_frame readerTakes q evs nw pending st :
  set_pendingWrites (pendingWrites st)
    (set_logcat (logcat st)
       (set_mSensors (mSensors st)
          (set_wakelock (wakelock st)
             (handlePendingWrites_front readerTakes q evs nw pending st)))) = st.
Proof.
  unfold handlePendingWrites_front, countNumWakeupEvents.
  destruct (writeBlocking _ _ _) as [[] q']; cbv zeta; [by destruct st|].
  destruct (0 <? nw); [|by destruct st].
  destruct (getQuantumCount q <? vsize evs).
  - destruct (countNumWakeupEvents_loop _ _ _) as [n sensors].
    rewrite decrement_as_set. by destruct st.
  - rewrite decrement_as_set. by destruct st.
Qed.

Lemma handlePendingWrites_front_mThreadsRun readerTakes q evs nw pending st :
  mThreadsRun (handlePendingWrites_front readerTakes q evs nw pending st) = mThreadsRun st.
Proof.
  exact (f_equal mThreadsRun
           (handlePendingWrites_front_frame readerTakes q evs nw pending st)).
Qed.

(** With the stop flag down it leaves the wake lock alone. *)
Lemma handlePendingWrites_front_stopped readerTakes q evs nw pending st :
  mThreadsRun st = false →
  wakelock (handlePendingWrites_front readerTakes q evs nw pending st) = wakelock st.
Proof.
  intros Hrun. unfold handlePendingWrites_front, countNumWakeupEvents.
  destruct (writeBlocking _ _ _) as [[] q']; cbv zeta; [done|].
  destruct (0 <? nw); [|done].
  destruct (getQuantumCount q <? vsize evs).
  - destruct (countNumWakeupEvents_loop _ _ _) as [n sensors].
    by rewrite decrement_stopped.
  - by rewrite decrement_stopped.
Qed.

Lemma stopThreads_eventQueue_frame writer st :
  set_pendingWrites (pendingWrites st)
    (set_logcat (logcat st)
       (set_mSensors (mSensors st)
          (set_wakelock (wakelock st) (stopThreads_eventQueue writer st)))) = st.
Proof.
  unfold stopThreads_eventQueue.
  destruct (mEventQueue (pendingWrites st)) as [q|]; [|by destruct st].
  destruct (mEventQueueFlag (pendingWrites st)); [|by destruct st].
  cbv zeta. set (st1 := set_pendingWrites _ st).
  assert (set_pendingWrites (pendingWrites st) st1 = st) as Hst1 by (by destruct st).
  destruct writer; [by destruct st|].
  destruct (mPendingWritesThread st1); [|by destruct st].
  destruct (mPendingWriteEventsQueue (pendingWrites st1)) as [|[evs nw] pending];
    [by destruct st|].
  pose proof (handlePendingWrites_front_frame 0
                (read (Z.to_nat (availableToRead q)) q) evs nw pending st1) as Hframe.
  set (st2 := handlePendingWrites_front _ _ _ _ _ _) in *. clearbody st2.
  transitivity
    (set_pendingWrites (pendingWrites st)
       (set_pendingWrites (pendingWrites st1)
          (set_logcat (logcat st1)
             (set_mSensors (mSensors st1) (set_wakelock (wakelock st1) st2)))));
    [|by rewrite Hframe].
  subst st1. cbn [logcat mSensors wakelock set_pendingWrites]. by destruct st2.
Qed.

Lemma stopThreads_eventQueue_stopped writer st :
  mThreadsRun st = false →
  mThreadsRun (stopThreads_eventQueue writer st) = false ∧
  wakelock (stopThreads_eventQueue writer st) = wakelock st.
Proof.
  intros Hrun. split.
  { rewrite <- Hrun.
    exact (f_equal mThreadsRun (stopThreads_eventQueue_frame writer st)). }
  unfold stopThreads_eventQueue.
  destruct (mEventQueue (pendingWrites st)) as [q|]; [|done].
  destruct (mEventQueueFlag (pendingWrites st)); [|done].
  cbv zeta. set (st1 := set_pendingWrites _ st).
  destruct writer; [done|].
  destruct (mPendingWritesThread st1); [|done].
  destruct (mPendingWriteEventsQueue (pendingWrites st1)) as [|[evs nw] pending]; [done|].
  by rewrite handlePendingWrites_front_stopped.
Qed.

(** The second block changes the wake-lock queue and, with the stop flag
    down, nothing else. *)
Lemma stopThreads_wakeLockQueue_stopped waker st :
  mThreadsRun st = false →
  set_mWakeLockQueue (mWakeLockQueue st) (stopThreads_wakeLockQueue waker st) = st.
Proof.
  intros Hrun. unfold stopThreads_wakeLockQueue.
  destruct (mWakeLockQueue st) as [wq|] eqn:Hwq; [|by destruct st; simplify_eq/=].
  destruct (mWakelockQueueFlag st); [|by destruct st; simplify_eq/=].
  cbv zeta.
  destruct waker; [by destruct st; simplify_eq/=|].
  cbn [mWakelockThread set_mWakeLockQueue].
  destruct (mWakelockThread st); [|by destruct st; simplify_eq/=].
  destruct (readBlocking [] (wq ++ [0])) as [[n|] wq'].
  - rewrite decrement_stopped by done. by destruct st; simplify_eq/=.
  - by destruct st; simplify_eq/=.
Qed.

Lemma stopThreads_stops tExit writer waker st :
  mThreadsRun (stopThreads tExit writer waker st) = false.
Proof.
  unfold stopThreads.
  set (st0 := set_mThreadsRun false st).
  assert (mThreadsRun st0 = false) as H0 by done.
  destruct (stopThreads_eventQueue_stopped writer st0 H0) as [H1 _].
  set (st1 := stopThreads_eventQueue writer st0) in *.
  pose proof (stopThreads_wakeLockQueue_stopped waker st1 H1) as H2.
  set (st2 := stopThreads_wakeLockQueue waker st1) in *.
  assert (mThreadsRun st2 = false) as Hrun2
    by (rewrite <- H1; exact (f_equal mThreadsRun H2)).
  cbv zeta.
  set (st3 := if mPendingWritesThread st2 then _ else st2).
  assert (mThreadsRun st3 = false) as Hrun3
    by (subst st3; by destruct (mPendingWritesThread st2)).
  destruct (mWakelockThread st3); [|done].
  rewrite resetSharedWakelock_stopped by done. done.
Qed.

Lemma stopThreads_keeps_wake_lock tExit writer waker st :
  mWakelockRefCount (wakelock (stopThreads tExit writer waker st))
  = mWakelockRefCount (wakelock st) ∧
  power (wakelock (stopThreads tExit writer waker st)) = power (wakelock st).
Proof.
  unfold stopThreads.
  set (st0 := set_mThreadsRun false st).
  assert (mThreadsRun st0 = false) as H0 by done.
  destruct (stopThreads_eventQueue_stopped writer st0 H0) as [H1 Hw1].
  set (st1 := stopThreads_eventQueue writer st0) in *.
  pose proof (stopThreads_wakeLockQueue_stopped waker st1 H1) as H2.
  set (st2 := stopThreads_wakeLockQueue waker st1) in *.
  assert (mThreadsRun st2 = false) as Hrun2
    by (rewrite <- H1; exact (f_equal mThreadsRun H2)).
  assert (wakelock st2 = wakelock st) as Hw2.
  { transitivity (wakelock st1); [exact (f_equal wakelock H2)|]. by rewrite Hw1. }
  cbv zeta.
  set (st3 := if mPendingWritesThread st2 then _ else st2).
  assert (mThreadsRun st3 = false ∧ wakelock st3 = wakelock st) as [Hrun3 Hw3]
    by (subst st3; by destruct (mPendingWritesThread st2)).
  destruct (mWakelockThread st3); [|by rewrite Hw3].
  rewrite resetSharedWakelock_stopped by done.
  cbn [wakelock set_mWakelockThread set_wakelock mWakelockRefCount power
       set_mWakelockTimeoutResetTime]. by rewrite Hw3.
Qed.

(** C2 (code fault).  [initialize] stops the threads and then resets the
    shared wake lock, and [handleWakelocks] resets it once its loop has
    ended.  With the stop flag down the release inside the reset returns at
    once: whatever the state and wherever [stopThreads] finds the two
    threads, a reset that follows it records the reset time and leaves the
    count and the lock as they were.  Starting from
    a proxy that holds the wake lock for three events, the count is still
    three and the lock still held after the whole of [initialize]. *)
Theorem reset_after_stop_keeps_wake_lock :
  (∀ now tExit writer waker st,
     let st' := resetSharedWakelock now (stopThreads tExit writer waker st) in
     mWakelockRefCount (wakelock st') = mWakelockRefCount (wakelock st) ∧
     power (wakelock st') = power (wakelock st) ∧
     mWakelockTimeoutResetTime (wakelock st') = now) ∧
  (∀ writer waker,
     let st' := resetSharedWakelock 30 (stopThreads 20 writer waker (exHeld 3)) in
     mWakelockRefCount (wakelock st') = 3 ∧
     wake_lock_held (power (wakelock st')) = true) ∧
  ∀ writer waker,
    ∃ st'', initialize 30 20 writer waker 4 true true true (exHeld 3) = Some (OK, st'') ∧
            mWakelockRefCount (wakelock st'') = 3 ∧
            wake_lock_held (power (wakelock st'')) = true.
Proof.
  split; [|split].
  - intros now tExit writer waker st st'. subst st'.
    rewrite resetSharedWakelock_stopped by apply stopThreads_stops. simpl.
    destruct (stopThreads_keeps_wake_lock tExit writer waker st) as [-> ->]. done.
  - intros [] []; by vm_compute.
  - intros [] []; (eexists; split; [by vm_compute|]; by split).
Qed.

(** ** Pending-write queue *)

Lemma vsize_take {A} (n : Z) (l : list A) :
  0 <= n <= vsize l → vsize (take (Z.to_nat n) l) = n.
Proof. unfold vsize. intros Hn. rewrite length_take. lia. Qed.

Lemma vsize_drop {A} (n : Z) (l : list A) :
  0 <= n → vsize (drop (Z.to_nat n) l) = Z.max 0 (vsize l - n).
Proof. unfold vsize. intros Hn. rewrite length_drop. lia. Qed.

Lemma vsize_nonneg {A} (l : list A) : 0 <= vsize l.
Proof. unfold vsize. lia. Qed.

Lemma increment_pendingWrites now delta st :
  pendingWrites (snd (incrementRefCountAndMaybeAcquireWakelock now delta st))
  = pendingWrites st.
Proof.
  unfold incrementRefCountAndMaybeAcquireWakelock. by destruct (mThreadsRun st).
Qed.

Lemma increment_mThreadsRun now delta st :
  mThreadsRun (snd (incrementRefCountAndMaybeAcquireWakelock now delta st))
  = mThreadsRun st.
Proof.
  unfold incrementRefCountAndMaybeAcquireWakelock. by destruct (mThreadsRun st) eqn:E.
Qed.

Lemma immediateWrite_spec events p q :
  mEventQueue p = Some q → mEventQueueFlag p = true → 0 <= availableToWrite q →
  let K := writtenAtOnce events p q in
  ∃ q', postEvents_immediateWrite events p = Some (K, set_mEventQueue (Some q') p) ∧
        getQuantumCount q' = getQuantumCount q ∧
        unread q' = unread q ++ take (Z.to_nat K) events ∧
        consumed q' = consumed q.
Proof.
  intros Hq Hflag Havail K. subst K.
  unfold postEvents_immediateWrite, writtenAtOnce.
  assert (set_mEventQueue (Some q) p = p) as Hid by (destruct p; simpl in *; by subst).
  destruct (mPendingWriteEventsQueue p) as [|b pending].
  - rewrite Hq. simpl.
    set (K := Z.min (vsize events) (availableToWrite q)).
    pose proof (vsize_nonneg events) as Hev.
    destruct (Z.ltb_spec 0 K) as [Hpos|Hzero].
    + unfold write. rewrite vsize_take by lia.
      rewrite (proj2 (Z.leb_le K (availableToWrite q))) by lia.
      rewrite Hflag. eexists. split; [done|]. by simpl.
    + assert (K = 0) as -> by lia.
      exists q. rewrite Hid. simpl. by rewrite app_nil_r.
  - exists q. rewrite Hid. simpl. by rewrite app_nil_r.
Qed.

(** C1 (amended).  When the events left after the immediate write do not fit
    under the bound, all of them are dropped: the pending-write queue, its
    size counter and its high-water mark stay as they were, and the event
    queue holds the events written at once and nothing more. *)
Theorem post_overflow_drops_remainder (now : Z) (events : list Event.t)
    (numWakeupEvents : Z) (lock : ScopedWakelock) (st : HalProxy) (q : MessageQueue) :
  let p := pendingWrites st in
  let N := vsize events in
  let K := writtenAtOnce events p q in
  mEventQueue p = Some q → mEventQueueFlag p = true → 0 <= availableToWrite q →
  is_size_t (mSizePendingWriteEventsQueue p) →
  K < N →
  kMaxSizePendingWriteEventsQueue < mSizePendingWriteEventsQueue p + (N - K) < 2 ^ 64 →
  ∃ st' q',
    postEventsToMessageQueue now events numWakeupEvents lock st = Some st' ∧
    mEventQueue (pendingWrites st') = Some q' ∧
    written q' = written q ++ take (Z.to_nat K) events ∧
    mPendingWriteEventsQueue (pendingWrites st') = mPendingWriteEventsQueue p ∧
    mSizePendingWriteEventsQueue (pendingWrites st') = mSizePendingWriteEventsQueue p ∧
    mMostEventsObservedPendingWriteEventsQueue (pendingWrites st')
      = mMostEventsObservedPendingWriteEventsQueue p.
Proof.
  intros p N K Hq Hflag Havail Hsize HK Hover.
  destruct (immediateWrite_spec events p q Hq Hflag Havail)
    as (q' & Hwrite & _ & Hunread & Hconsumed).
  fold K in Hwrite, Hunread.
  assert (0 <= K) as HK0.
  { subst K. unfold writtenAtOnce. pose proof (vsize_nonneg events).
    destruct (mPendingWriteEventsQueue p); lia. }
  unfold postEventsToMessageQueue.
  set (st1 := if isLocked lock then _ else st).
  assert (pendingWrites st1 = p) as Hp.
  { subst st1. destruct (isLocked lock); [apply increment_pendingWrites|done]. }
  rewrite Hp, Hwrite. simpl. fold N.
  unfold is_size_t in Hsize.
  rewrite (to_size_t_small (N - K)) by (unfold is_size_t; lia).
  rewrite to_size_t_small by (unfold is_size_t; lia).
  rewrite (proj2 (Z.leb_gt _ _)) by lia. rewrite andb_false_r.
  exists (set_pendingWrites (set_mEventQueue (Some q') p) st1), q'.
  repeat split.
  unfold written. rewrite Hunread, Hconsumed. by rewrite app_assoc.
Qed.

(** C10.  A callback post of no events returns at once: the proxy is left as
    it was, with its pending-write queue, size counter, wake-lock count and
    event queue. *)
Theorem postEvents_empty_is_noop (cb : HalProxyCallback) (now : Z)
    (lock : ScopedWakelock) (st : HalProxy) :
  postEvents cb now [] lock st = Some st.
Proof. reflexivity. Qed.

Lemma written_read n q : written (read n q) = written q.
Proof. unfold written, read. simpl. by rewrite <- app_assoc, take_drop. Qed.

Lemma writeBlocking_success data readerTakes q :
  fst (writeBlocking data readerTakes q) = true →
  ∃ q', writeBlocking data readerTakes q = (true, q') ∧
        getQuantumCount q' = getQuantumCount q ∧
        written q' = written q ++ data.
Proof.
  unfold writeBlocking, write.
  destruct (vsize data <=? availableToWrite (read readerTakes q)); [|done].
  intros _. eexists. split; [done|]. split; [done|].
  rewrite <- (written_read readerTakes q). unfold written. simpl.
  by rewrite app_assoc.
Qed.

(** A turn whose blocking write goes through moves the head of the front
    batch to the event queue and touches nothing but the queue state. *)
Lemma turn_success readerTakes st q evs nw pending :
  mThreadsRun st = true →
  mEventQueue (pendingWrites st) = Some q →
  mPendingWriteEventsQueue (pendingWrites st) = (evs, nw) :: pending →
  blockingWriteSucceeds readerTakes st = true →
  let n := Z.min (vsize evs) (getQuantumCount q) in
  ∃ st' q',
    handlePendingWrites_turn readerTakes st = Some st' ∧
    mThreadsRun st' = true ∧
    mEventQueue (pendingWrites st') = Some q' ∧
    getQuantumCount q' = getQuantumCount q ∧
    written q' = written q ++ take (Z.to_nat n) evs ∧
    mPendingWriteEventsQueue (pendingWrites st') =
      (if getQuantumCount q <? vsize evs
       then (drop (Z.to_nat (getQuantumCount q)) evs, nw) :: pending
       else pending) ∧
    mSizePendingWriteEventsQueue (pendingWrites st') =
      to_size_t (mSizePendingWriteEventsQueue (pendingWrites st) - n) ∧
    wakelock st' = wakelock st.
Proof.
  intros Hrun Hq Hpending Hok n.
  unfold blockingWriteSucceeds in Hok. rewrite Hpending, Hq, Hrun in Hok.
  simpl in Hok. fold n in Hok.
  destruct (writeBlocking_success _ _ _ Hok) as (q' & Hwb & Hcap & Hwritten).
  unfold handlePendingWrites_turn. rewrite Hrun, Hpending, Hq. simpl.
  fold n. rewrite Hwb.
  eexists _, q'. split; [done|].
  destruct (getQuantumCount q <? vsize evs); by simpl.
Qed.

Lemma handlePendingWrites_idle readers st :
  mPendingWriteEventsQueue (pendingWrites st) = [] →
  handlePendingWrites readers st = Some st.
Proof.
  intros Hempty. induction readers as [|r readers IH]; [done|].
  simpl. unfold handlePendingWrites_turn. rewrite Hempty.
  destruct (mThreadsRun st); simpl; exact IH.
Qed.

(** Draining one pending batch: as long as no blocking write times out, the
    batch reaches the event queue whole and in order, in at most as many
    turns as it has events. *)
Lemma drain_batch readers : ∀ st q rem nw base,
  mThreadsRun st = true →
  mEventQueue (pendingWrites st) = Some q →
  0 < getQuantumCount q →
  mPendingWriteEventsQueue (pendingWrites st) = [(rem, nw)] →
  rem ≠ [] →
  0 <= base → base + vsize rem < 2 ^ 64 →
  mSizePendingWriteEventsQueue (pendingWrites st) = base + vsize rem →
  vsize rem <= vsize readers →
  blockingWritesSucceed readers st = true →
  ∃ st' q',
    handlePendingWrites readers st = Some st' ∧
    mEventQueue (pendingWrites st') = Some q' ∧
    written q' = written q ++ rem ∧
    mPendingWriteEventsQueue (pendingWrites st') = [] ∧
    mSizePendingWriteEventsQueue (pendingWrites st') = base ∧
    wakelock st' = wakelock st.
Proof.
  induction readers as [|r readers IH];
    intros st q rem nw base Hrun Hq Hcap Hpending Hne Hbase Hbound Hsize Hlen Hok.
  { destruct rem; [done|]. unfold vsize in Hlen. simpl in Hlen. lia. }
  simpl in Hok. apply andb_true_iff in Hok as [Hok1 Hok].
  destruct (turn_success r st q rem nw [] Hrun Hq Hpending Hok1)
    as (st1 & q1 & Hturn & Hrun1 & Hq1 & Hcap1 & Hwr1 & Hpend1 & Hsize1 & Hwl1).
  rewrite Hturn in Hok. simpl. rewrite Hturn. simpl.
  assert (0 < vsize rem) as Hrem.
  { destruct rem; [done|]. unfold vsize. simpl. lia. }
  rewrite Hsize in Hsize1.
  destruct (Z.ltb_spec (getQuantumCount q) (vsize rem)) as [Hbig|Hfit].
  - rewrite Z.min_r in Hwr1, Hsize1 by lia.
    rewrite to_size_t_small in Hsize1 by (unfold is_size_t; lia).
    assert (vsize (drop (Z.to_nat (getQuantumCount q)) rem)
            = vsize rem - getQuantumCount q) as Hdrop.
    { rewrite vsize_drop by lia. lia. }
    destruct (IH st1 q1 (drop (Z.to_nat (getQuantumCount q)) rem) nw base)
      as (st2 & q2 & Hrun2 & Hq2 & Hwr2 & Hpend2 & Hsize2 & Hwl2); try done.
    + lia.
    + intros Hnil. rewrite Hnil in Hdrop. unfold vsize in Hdrop at 1.
      simpl in Hdrop. lia.
    + lia.
    + rewrite Hsize1, Hdrop. lia.
    + rewrite Hdrop. unfold vsize in *. simpl in Hlen. lia.
    + exists st2, q2. repeat split; try done; [|congruence].
      rewrite Hwr2, Hwr1, <- app_assoc. by rewrite take_drop.
  - rewrite Z.min_l in Hwr1, Hsize1 by lia.
    rewrite to_size_t_small in Hsize1 by (unfold is_size_t; lia).
    rewrite handlePendingWrites_idle by done.
    exists st1, q1. repeat split; try done; [|lia].
    rewrite Hwr1. f_equal. apply take_ge. unfold vsize. lia.
Qed.

(** C5.  With nothing pending, room in the event queue for only K of the N
    events posted and the remainder within the bound: the first K events are
    written at once, the other N-K form the one pending batch, and the
    pending-writes thread, whenever none of its blocking writes times out,
    moves exactly that remainder to the event queue in the order posted. *)
Theorem post_partial_write_then_drain (now : Z) (events : list Event.t)
    (numWakeupEvents : Z) (lock : ScopedWakelock) (st : HalProxy) (q : MessageQueue) :
  let p := pendingWrites st in
  let N := vsize events in
  let K := availableToWrite q in
  mPendingWriteEventsQueue p = [] →
  mEventQueue p = Some q → mEventQueueFlag p = true →
  0 <= K < N →
  is_size_t (mSizePendingWriteEventsQueue p) →
  mSizePendingWriteEventsQueue p + (N - K) <= kMaxSizePendingWriteEventsQueue →
  kMaxSizePendingWriteEventsQueue < 2 ^ 64 →
  ∃ st1 q1,
    postEventsToMessageQueue now events numWakeupEvents lock st = Some st1 ∧
    mEventQueue (pendingWrites st1) = Some q1 ∧
    written q1 = written q ++ take (Z.to_nat K) events ∧
    mPendingWriteEventsQueue (pendingWrites st1)
      = [(drop (Z.to_nat K) events, numWakeupEvents)] ∧
    mSizePendingWriteEventsQueue (pendingWrites st1)
      = mSizePendingWriteEventsQueue p + (N - K) ∧
    ∀ readers,
      mThreadsRun st = true → 0 < getQuantumCount q →
      N - K <= vsize readers →
      blockingWritesSucceed readers st1 = true →
      ∃ st2 q2,
        handlePendingWrites readers st1 = Some st2 ∧
        mEventQueue (pendingWrites st2) = Some q2 ∧
        written q2 = written q ++ events ∧
        mPendingWriteEventsQueue (pendingWrites st2) = [] ∧
        mSizePendingWriteEventsQueue (pendingWrites st2)
          = mSizePendingWriteEventsQueue p.
Proof.
  intros p N K Hempty Hq Hflag HK Hsize Hfit Hmax.
  destruct (immediateWrite_spec events p q Hq Hflag) as (q1 & Hwrite & Hcap & Hunread & Hconsumed);
    [lia|].
  assert (writtenAtOnce events p q = K) as HKeq.
  { unfold writtenAtOnce. rewrite Hempty. fold N K. lia. }
  rewrite HKeq in Hwrite, Hunread.
  unfold postEventsToMessageQueue.
  set (st0 := if isLocked lock then _ else st).
  assert (pendingWrites st0 = p) as Hp.
  { subst st0. destruct (isLocked lock); [apply increment_pendingWrites|done]. }
  assert (mThreadsRun st0 = mThreadsRun st) as Hrun0.
  { subst st0. destruct (isLocked lock); [apply increment_mThreadsRun|done]. }
  rewrite Hp, Hwrite. simpl. fold N.
  unfold is_size_t in Hsize.
  rewrite (to_size_t_small (N - K)) by (unfold is_size_t; lia).
  rewrite to_size_t_small by (unfold is_size_t; lia).
  rewrite (proj2 (Z.ltb_lt K N)) by lia.
  rewrite (proj2 (Z.leb_le _ _) Hfit). simpl.
  rewrite Hempty. simpl.
  assert (written q1 = written q ++ take (Z.to_nat K) events) as Hwr1.
  { unfold written. rewrite Hunread, Hconsumed. by rewrite app_assoc. }
  eexists _, q1. split; [done|]. simpl.
  split; [done|]. split; [done|]. split; [done|]. split; [done|].
  intros readers Hrun Hcapq Hlen Hok.
  assert (vsize (drop (Z.to_nat K) events) = N - K) as Hdrop.
  { rewrite vsize_drop by lia. lia. }
  match type of Hok with blockingWritesSucceed _ ?s = _ => set (st1 := s) in * end.
  destruct (drain_batch readers st1 q1 (drop (Z.to_nat K) events) numWakeupEvents
              (mSizePendingWriteEventsQueue p))
    as (st2 & q2 & Hrun2 & Hq2 & Hwr2 & Hpend2 & Hsize2 & _); try done.
  - subst st1. simpl. congruence.
  - lia.
  - intros Hnil. rewrite Hnil in Hdrop. unfold vsize in Hdrop at 1. simpl in Hdrop. lia.
  - lia.
  - rewrite Hdrop. lia.
  - subst st1. simpl. by rewrite Hdrop.
  - lia.
  - exists st2, q2. repeat split; try done.
    rewrite Hwr2, Hwr1, <- app_assoc. by rewrite take_drop.
Qed.

(** ** Routing *)

Lemma invoke_called c sh : invoke c sh = (answer c sh, called [c] sh).
Proof. done. Qed.

Lemma called_called cs1 cs2 sh : called cs2 (called cs1 sh) = called (cs1 ++ cs2) sh.
Proof. unfold called. simpl. by rewrite app_assoc. Qed.

Lemma callSubHal_forwarded d c sh st :
  mSubHalList st !! d = Some sh →
  callSubHal d c st = Some (answer c sh, forwarded d c sh st).
Proof. intros Hd. unfold callSubHal. by rewrite Hd. Qed.

Lemma forwarded_others d c sh st j :
  j ≠ d → mSubHalList (forwarded d c sh st) !! j = mSubHalList st !! j.
Proof. intros Hne. simpl. by apply list_lookup_insert_ne. Qed.

Lemma forwarded_target d c sh st :
  mSubHalList st !! d = Some sh →
  mSubHalList (forwarded d c sh st) !! d = Some (called [c] sh).
Proof.
  intros Hd. simpl. apply list_lookup_insert_eq. by eapply lookup_lt_Some.
Qed.

(** *** setOperationMode *)

Lemma forward_all_accept mode subHals :
  (∀ sh, sh ∈ subHals → fst (answer (SetOperationMode mode) sh) = OK) →
  setOperationMode_forward mode subHals
  = (OK, length subHals, called [SetOperationMode mode] <$> subHals, []).
Proof.
  induction subHals as [|sh rest IH]; intros Hall; [done|].
  cbn [setOperationMode_forward]. rewrite invoke_called.
  destruct (answer (SetOperationMode mode) sh) as [r z] eqn:Hans.
  assert (r = OK) as ->.
  { specialize (Hall sh). rewrite Hans in Hall. apply Hall. by left. }
  rewrite decide_True by done.
  rewrite IH; [done|]. intros sh' Hin. apply Hall. by right.
Qed.

Lemma forward_first_reject mode pre sh post :
  (∀ sh', sh' ∈ pre → fst (answer (SetOperationMode mode) sh') = OK) →
  fst (answer (SetOperationMode mode) sh) ≠ OK →
  setOperationMode_forward mode (pre ++ sh :: post)
  = (fst (answer (SetOperationMode mode) sh), length pre,
     (called [SetOperationMode mode] <$> pre) ++ called [SetOperationMode mode] sh :: post,
     [ALOGE "setOperationMode failed for SubHal: %s" [LogStr (getName sh)]]).
Proof.
  intros Hpre Hrej.
  induction pre as [|sh0 pre IH]; cbn [setOperationMode_forward app].
  - rewrite invoke_called.
    destruct (answer (SetOperationMode mode) sh) as [r z]. simpl in *.
    by rewrite decide_False.
  - rewrite invoke_called.
    destruct (answer (SetOperationMode mode) sh0) as [r z] eqn:Hans.
    assert (r = OK) as ->.
    { specialize (Hpre sh0). rewrite Hans in Hpre. apply Hpre. by left. }
    rewrite decide_True by done.
    rewrite IH; [done|]. intros sh' Hin. apply Hpre. by right.
Qed.

Lemma lookup_around {A} (f g : A → A) (l : list A) (k j : nat) (x y : A) :
  l !! k = Some x → l !! j = Some y →
  ((f <$> take k l) ++ g x :: drop (S k) l) !! j
  = Some (if decide (j < k)%nat then f y else if decide (j = k) then g y else y).
Proof.
  intros Hk Hj.
  pose proof (lookup_lt_Some _ _ _ Hk) as Hklen.
  assert (length (f <$> take k l) = k) as Hlen.
  { rewrite length_fmap, length_take. lia. }
  destruct (decide (j < k)%nat) as [Hlt|Hge].
  - rewrite lookup_app_l by lia.
    rewrite list_lookup_fmap, lookup_take_lt by done. by rewrite Hj.
  - rewrite lookup_app_r by lia. rewrite Hlen.
    destruct (decide (j = k)) as [->|Hne].
    + rewrite Nat.sub_diag. simpl. congruence.
    + destruct (j - k)%nat as [|m] eqn:Hm; [lia|]. simpl.
      rewrite lookup_drop. rewrite <- Hj. f_equal. lia.
Qed.

(** C6.  If the sub-HAL at [k] is the first to refuse [mode], the call
    returns its answer, every sub-HAL below [k] has received [mode] and then
    the mode recorded before the call, the sub-HAL at [k] has received
    [mode], the ones above nothing, and the recorded mode is unchanged.  If
    all accept, the call returns OK, each sub-HAL has received [mode] and
    [mode] is recorded. *)
Theorem setOperationMode_all_or_rolled_back (mode : OperationMode) (st : HalProxy) :
  let prev := mCurrentOperationMode st in
  let result := fst (setOperationMode mode st) in
  let st' := snd (setOperationMode mode st) in
  (∀ k sh,
     mSubHalList st !! k = Some sh →
     fst (answer (SetOperationMode mode) sh) ≠ OK →
     (∀ j shj, (j < k)%nat → mSubHalList st !! j = Some shj →
               fst (answer (SetOperationMode mode) shj) = OK) →
     result = fst (answer (SetOperationMode mode) sh) ∧
     mCurrentOperationMode st' = prev ∧
     ∀ j shj, mSubHalList st !! j = Some shj →
       mSubHalList st' !! j =
         Some (if decide (j < k)%nat
               then called [SetOperationMode mode; SetOperationMode prev] shj
               else if decide (j = k) then called [SetOperationMode mode] shj
               else shj)) ∧
  ((∀ j shj, mSubHalList st !! j = Some shj →
             fst (answer (SetOperationMode mode) shj) = OK) →
     result = OK ∧
     mCurrentOperationMode st' = mode ∧
     ∀ j shj, mSubHalList st !! j = Some shj →
       mSubHalList st' !! j = Some (called [SetOperationMode mode] shj)).
Proof.
  intros prev result st'. split.
  - intros k sh Hk Hrej Hbelow.
    pose proof (take_drop_middle _ _ _ Hk) as Hsplit.
    pose proof (lookup_lt_Some _ _ _ Hk) as Hklen.
    assert (∀ sh', sh' ∈ take k (mSubHalList st) →
                   fst (answer (SetOperationMode mode) sh') = OK) as Hpre.
    { intros sh' [j Hj]%list_elem_of_lookup.
      pose proof (lookup_lt_Some _ _ _ Hj) as Hjlen. rewrite length_take in Hjlen.
      rewrite lookup_take_lt in Hj by lia. apply (Hbelow j); [lia|done]. }
    pose proof (forward_first_reject mode _ sh (drop (S k) (mSubHalList st)) Hpre Hrej)
      as Hfwd.
    rewrite Hsplit in Hfwd. rewrite length_take, Nat.min_l in Hfwd by lia.
    subst result st'. unfold setOperationMode. rewrite Hfwd.
    rewrite decide_False by done. simpl.
    split; [done|]. split; [done|].
    intros j shj Hj.
    unfold setOperationMode_rollback.
    assert (length (called [SetOperationMode mode] <$> take k (mSubHalList st)) = k)
      as Hlen by (rewrite length_fmap, length_take; lia).
    rewrite take_app_length' by done. rewrite drop_app_length' by done.
    match goal with
    | |- ((?f <$> (?g <$> ?l)) ++ _) !! _ = _ =>
        assert (f <$> (g <$> l)
                = called [SetOperationMode mode;
                          SetOperationMode (mCurrentOperationMode st)] <$> l) as ->
    end.
    { rewrite <- list_fmap_compose. apply list_fmap_ext. intros i x _.
      unfold compose. rewrite invoke_called. apply called_called. }
    by apply lookup_around.
  - intros Hall.
    assert (∀ sh, sh ∈ mSubHalList st → fst (answer (SetOperationMode mode) sh) = OK)
      as Hall'.
    { intros sh [j Hj]%list_elem_of_lookup. by apply (Hall j). }
    subst result st'. unfold setOperationMode.
    rewrite (forward_all_accept mode _ Hall'). simpl.
    split; [done|]. split; [done|].
    intros j shj Hj. rewrite list_lookup_fmap, Hj. done.
Qed.

(** *** Calls on a sensor handle *)

Lemma valid_handle_resolves sensorHandle st :
  isSubHalIndexValid sensorHandle st = true →
  is_Some (mSubHalList st !! getSubHalForSensorHandle sensorHandle).
Proof.
  unfold isSubHalIndexValid, getSubHalForSensorHandle, vsize. intros Hv%Z.ltb_lt.
  apply lookup_lt_is_Some.
  pose proof (to_size_t_range (Z.shiftr sensorHandle kBitsAfterSubHalIndex)) as Hr.
  unfold is_size_t in Hr. unfold extractSubHalIndex in *. lia.
Qed.

(** C7 (amended).  On a handle whose sub-HAL index is out of range each of
    the four calls returns BAD_VALUE and reaches no sub-HAL.  On a valid
    handle [activate], [batch] and [flush] go to the sub-HAL the handle
    resolves to, with the namespace bits cleared; so does [injectSensorData],
    unless the proxy is in NORMAL mode and the event is not of type
    ADDITIONAL_INFO: then it returns BAD_VALUE and reaches no sub-HAL. *)
Theorem handle_calls_checked_and_forwarded (st : HalProxy) (sensorHandle : Z)
    (enabled : bool) (samplingPeriodNs maxReportLatencyNs : Z) (event : Event.t) :
  let refused :=
    bool_decide (mCurrentOperationMode st = NORMAL) &&
    negb (Event.sensorType event =? ADDITIONAL_INFO) in
  let local := clearSubHalIndex sensorHandle in
  (isSubHalIndexValid sensorHandle st = false →
     activate sensorHandle enabled st = Some (BAD_VALUE, st) ∧
     batch sensorHandle samplingPeriodNs maxReportLatencyNs st = Some (BAD_VALUE, st) ∧
     flush sensorHandle st = Some (BAD_VALUE, st)) ∧
  (isSubHalIndexValid (Event.sensorHandle event) st = false ∨ refused = true →
     ∃ st', injectSensorData event st = Some (BAD_VALUE, st') ∧
            mSubHalList st' = mSubHalList st) ∧
  (isSubHalIndexValid sensorHandle st = true →
     ∃ sh, let d := getSubHalForSensorHandle sensorHandle in
       mSubHalList st !! d = Some sh ∧
       activate sensorHandle enabled st
         = Some (fst (answer (Activate local enabled) sh),
                 forwarded d (Activate local enabled) sh st) ∧
       batch sensorHandle samplingPeriodNs maxReportLatencyNs st
         = Some (fst (answer (Batch local samplingPeriodNs maxReportLatencyNs) sh),
                 forwarded d (Batch local samplingPeriodNs maxReportLatencyNs) sh st) ∧
       flush sensorHandle st
         = Some (fst (answer (Flush local) sh), forwarded d (Flush local) sh st)) ∧
  (isSubHalIndexValid (Event.sensorHandle event) st = true → refused = false →
     ∃ sh, let d := getSubHalForSensorHandle (Event.sensorHandle event) in
       let c := InjectSensorData
                  (Event.set_sensorHandle (clearSubHalIndex (Event.sensorHandle event))
                                          event) in
       mSubHalList st !! d = Some sh ∧
       injectSensorData event st = Some (fst (answer c sh), forwarded d c sh st)).
Proof.
  intros refused local. repeat split.
  - unfold activate. by rewrite H.
  - unfold batch. by rewrite H.
  - unfold flush. by rewrite H.
  - intros Hcase. unfold injectSensorData. fold refused.
    destruct refused eqn:Href.
    + rewrite decide_False by done. by eexists.
    + destruct Hcase as [Hinv|?]; [|done].
      rewrite decide_True by done. rewrite Hinv. by eexists.
  - intros Hvalid.
    destruct (valid_handle_resolves _ _ Hvalid) as [sh Hsh].
    exists sh. subst local. cbn zeta. split; [done|].
    unfold activate, batch, flush. rewrite Hvalid. cbn [negb].
    rewrite !(callSubHal_forwarded _ _ sh _ Hsh).
    repeat split;
      match goal with |- context [answer ?c sh] => by destruct (answer c sh) end.
  - intros Hvalid Href.
    destruct (valid_handle_resolves _ _ Hvalid) as [sh Hsh].
    exists sh. cbn zeta. split; [done|].
    unfold injectSensorData. fold refused. rewrite Href.
    rewrite decide_True by done. rewrite Hvalid. cbn [negb].
    rewrite (callSubHal_forwarded _ _ sh _ Hsh).
    match goal with |- context [answer ?c sh] => by destruct (answer c sh) end.
Qed.

(** *** Direct channels *)

(** C8.  Without a designated sub-HAL the three direct-channel calls answer
    INVALID_OPERATION and leave the proxy and every sub-HAL as they were.
    With one, each call goes to that sub-HAL and to no other, and its answer
    is returned; [configDirectReport] passes the handle with the namespace
    bits cleared. *)
Theorem direct_channel_calls_routed (st : HalProxy)
    (mem channelHandle sensorHandle rate : Z) :
  match mDirectChannelSubHal st with
  | None =>
      registerDirectChannel mem st = Some (INVALID_OPERATION, -1, st) ∧
      unregisterDirectChannel channelHandle st = Some (INVALID_OPERATION, st) ∧
      configDirectReport sensorHandle channelHandle rate st
        = Some (INVALID_OPERATION, -1, st)
  | Some d =>
      ∀ sh, mSubHalList st !! d = Some sh →
        let reg := RegisterDirectChannel mem in
        let unreg := UnregisterDirectChannel channelHandle in
        let conf := ConfigDirectReport (clearSubHalIndex sensorHandle) channelHandle rate in
        registerDirectChannel mem st = Some (answer reg sh, forwarded d reg sh st) ∧
        unregisterDirectChannel channelHandle st
          = Some (fst (answer unreg sh), forwarded d unreg sh st) ∧
        configDirectReport sensorHandle channelHandle rate st
          = Some (answer conf sh, forwarded d conf sh st) ∧
        ∀ c j, j ≠ d → mSubHalList (forwarded d c sh st) !! j = mSubHalList st !! j
  end.
Proof.
  unfold registerDirectChannel, unregisterDirectChannel, configDirectReport.
  destruct (mDirectChannelSubHal st) as [d|]; [|done].
  intros sh Hsh. cbv zeta.
  set (unreg := UnregisterDirectChannel channelHandle).
  rewrite !(callSubHal_forwarded _ _ sh _ Hsh).
  split; [done|]. split; [by destruct (answer unreg sh)|]. split; [done|].
  intros c j Hne. by apply forwarded_others.
Qed.

(** The designated sub-HAL is chosen among the registered ones. *)
Lemma setDirectChannelFlags_designates sensorInfo subHal st :
  let st' := snd (setDirectChannelFlags sensorInfo subHal st) in
  mSubHalList st' = mSubHalList st ∧
  (mDirectChannelSubHal st' = mDirectChannelSubHal st ∨
   mDirectChannelSubHal st' = Some subHal).
Proof.
  unfold setDirectChannelFlags.
  destruct (mDirectChannelSubHal st) as [d|] eqn:Hd.
  - case_bool_decide; simpl; by auto.
  - destruct (negb _); simpl; by auto.
Qed.

Lemma initializeSensorList_sensors_designates list subHalIndex : ∀ st,
  let st' := initializeSensorList_sensors list subHalIndex st in
  mSubHalList st' = mSubHalList st ∧
  (mDirectChannelSubHal st' = mDirectChannelSubHal st ∨
   mDirectChannelSubHal st' = Some subHalIndex).
Proof.
  induction list as [|sensor list IH]; intros st; [by auto|].
  cbn [initializeSensorList_sensors].
  destruct (negb (subHalIndexIsClear (SensorInfo.sensorHandle sensor))).
  - destruct (IH (aloge "SubHal sensorHandle's first byte was not 0" [] st)) as [Hl Hd].
    split; [by rewrite Hl|]. destruct Hd as [->| ->]; by auto.
  - match goal with
    | |- context [setDirectChannelFlags ?s ?i ?x] =>
        pose proof (setDirectChannelFlags_designates s i x) as [Hl0 Hd0];
        destruct (setDirectChannelFlags s i x) as [s' x'] eqn:Hflags
    end.
    simpl in Hl0, Hd0.
    match goal with
    | |- context [initializeSensorList_sensors list subHalIndex ?y] =>
        destruct (IH y) as [Hl Hd]
    end.
    simpl in Hl, Hd.
    split; [by rewrite Hl, Hl0|].
    destruct Hd as [->| ->]; [|by auto]. simpl.
    destruct Hd0 as [->| ->]; by auto.
Qed.

Lemma initializeSensorList_from_designates subHals : ∀ subHalIndex st,
  let st' := initializeSensorList_from subHals subHalIndex st in
  mSubHalList st' = mSubHalList st ∧
  (mDirectChannelSubHal st' = mDirectChannelSubHal st ∨
   ∃ d, mDirectChannelSubHal st' = Some d ∧
        (subHalIndex <= d < subHalIndex + length subHals)%nat).
Proof.
  induction subHals as [|subHal subHals IH]; intros subHalIndex st; [by auto|].
  cbn [initializeSensorList_from].
  destruct (initializeSensorList_sensors_designates (getSensorsList subHal) subHalIndex st)
    as [Hl0 Hd0].
  match goal with
  | |- context [initializeSensorList_from subHals (S subHalIndex) ?y] =>
      destruct (IH (S subHalIndex) y) as [Hl Hd]
  end.
  split; [by rewrite Hl, Hl0|].
  destruct Hd as [->|(d & -> & Hrange)].
  - destruct Hd0 as [->| ->]; [by auto|].
    right. exists subHalIndex. split; [done|]. simpl. lia.
  - right. exists d. split; [done|]. simpl. lia.
Qed.

Lemma initializeSensorList_designates_registered st :
  mDirectChannelSubHal st = None →
  match mDirectChannelSubHal (initializeSensorList st) with
  | Some d => is_Some (mSubHalList (initializeSensorList st) !! d)
  | None => True
  end.
Proof.
  intros Hnone. unfold initializeSensorList.
  destruct (initializeSensorList_from_designates (mSubHalList st) 0 st) as [Hl Hd].
  destruct Hd as [Hd|(d & Hd & Hrange)]; rewrite Hd.
  - by rewrite Hnone.
  - rewrite Hl. apply lookup_lt_is_Some. lia.
Qed.

(** ** Sensor catalog *)

Lemma dynamic_loop_spec added subHalIndex : ∀ sensors st,
  let fwd := stamp (to_size_t subHalIndex) <$> filter unnamespaced added in
  let errs :=
    (λ s, ALOGE "Dynamic sensor added %s had sensorHandle with first byte not 0."
                [LogStr (SensorInfo.name s)])
      <$> filter (λ s, ¬ unnamespaced s) added in
  onDynamicSensorsConnected_loop added subHalIndex sensors st
  = (sensors ++ fwd,
     set_logcat (logcat st ++ errs)
       (set_mDynamicSensors (insertAll (mDynamicSensors st) fwd) st)).
Proof.
  induction added as [|s added IH]; intros sensors st.
  { simpl. rewrite !app_nil_r. by destruct st. }
  cbn [onDynamicSensorsConnected_loop].
  destruct (decide (unnamespaced s)) as [Hs|Hs].
  - rewrite (filter_cons_True unnamespaced) by done.
    rewrite (filter_cons_False (λ s, ¬ unnamespaced s)) by auto.
    unfold unnamespaced in Hs. rewrite Hs. cbn [negb].
    rewrite IH. cbn zeta. rewrite fmap_cons. rewrite <- app_assoc. simpl.
    done.
  - rewrite (filter_cons_False unnamespaced) by done.
    rewrite (filter_cons_True (λ s, ¬ unnamespaced s)) by done.
    unfold unnamespaced in Hs. apply not_true_is_false in Hs. rewrite Hs. cbn [negb].
    rewrite IH. cbn zeta. rewrite fmap_cons. simpl. by rewrite <- app_assoc.
Qed.

Lemma setDirectChannelFlags_keeps s subHal st :
  let r := setDirectChannelFlags s subHal st in
  SensorInfo.sensorHandle (fst r) = SensorInfo.sensorHandle s ∧
  SensorInfo.name (fst r) = SensorInfo.name s ∧
  mSensors (snd r) = mSensors st ∧
  logcat (snd r) = logcat st.
Proof.
  unfold setDirectChannelFlags. cbv zeta.
  destruct (mDirectChannelSubHal st); [case_bool_decide|destruct (negb _)];
    repeat split.
Qed.

(** The part of the state that decides how a descriptor is catalogued. *)
Lemma setDirectChannelFlags_cong s subHal st1 st2 :
  mDirectChannelSubHal st1 = mDirectChannelSubHal st2 →
  fst (setDirectChannelFlags s subHal st1) = fst (setDirectChannelFlags s subHal st2) ∧
  mDirectChannelSubHal (snd (setDirectChannelFlags s subHal st1))
  = mDirectChannelSubHal (snd (setDirectChannelFlags s subHal st2)).
Proof.
  intros Hd. unfold setDirectChannelFlags. rewrite Hd.
  destruct (mDirectChannelSubHal st2) eqn:Hd2;
    [case_bool_decide|destruct (negb _)];
    cbn [fst snd mDirectChannelSubHal set_mDirectChannelSubHal];
    split; congruence.
Qed.

Lemma initializeSensorList_sensors_cons sensor list subHalIndex st :
  initializeSensorList_sensors (sensor :: list) subHalIndex st
  = initializeSensorList_sensors list subHalIndex (enumerated sensor subHalIndex st).
Proof. done. Qed.

Lemma enumerated_malformed s i st :
  ¬ unnamespaced s →
  enumerated s i st = aloge "SubHal sensorHandle's first byte was not 0" [] st.
Proof.
  unfold unnamespaced, enumerated. intros Hs%not_true_is_false. simpl. by rewrite Hs.
Qed.

Lemma enumerated_unnamespaced s i st :
  unnamespaced s →
  ∃ s', SensorInfo.sensorHandle s' = setSubHalIndex (SensorInfo.sensorHandle s) (Z.of_nat i) ∧
        SensorInfo.name s' = SensorInfo.name s ∧
        mSensors (enumerated s i st) = <[SensorInfo.sensorHandle s' := s']> (mSensors st) ∧
        logcat (enumerated s i st)
        = logcat st ++ [ALOGV "Loaded sensor: %s" [LogStr (SensorInfo.name s)]].
Proof.
  unfold unnamespaced, enumerated. intros Hs. simpl. rewrite Hs. cbn [negb].
  match goal with
  | |- context [setDirectChannelFlags ?x ?j ?y] =>
      pose proof (setDirectChannelFlags_keeps x j y) as (Hh & Hn & Hm & Hl);
      destruct (setDirectChannelFlags x j y) as [s' st']
  end.
  simpl in *. exists s'. rewrite Hm, Hl. done.
Qed.

Lemma enumerated_cong s i st1 st2 :
  mSensors st1 = mSensors st2 → mDirectChannelSubHal st1 = mDirectChannelSubHal st2 →
  mSensors (enumerated s i st1) = mSensors (enumerated s i st2) ∧
  mDirectChannelSubHal (enumerated s i st1) = mDirectChannelSubHal (enumerated s i st2).
Proof.
  intros Hm Hd. unfold enumerated. simpl.
  destruct (negb (subHalIndexIsClear (SensorInfo.sensorHandle s))); [done|].
  set (s1 := SensorInfo.set_sensorHandle _ s).
  destruct (setDirectChannelFlags_cong s1 i
              (alogv "Loaded sensor: %s" [LogStr (SensorInfo.name s)] st1)
              (alogv "Loaded sensor: %s" [LogStr (SensorInfo.name s)] st2) Hd)
    as [Hfst Hsnd].
  pose proof (setDirectChannelFlags_keeps s1 i
                (alogv "Loaded sensor: %s" [LogStr (SensorInfo.name s)] st1)) as (_&_&Hm1&_).
  pose proof (setDirectChannelFlags_keeps s1 i
                (alogv "Loaded sensor: %s" [LogStr (SensorInfo.name s)] st2)) as (_&_&Hm2&_).
  destruct (setDirectChannelFlags s1 i (alogv _ _ st1)) as [a1 b1].
  destruct (setDirectChannelFlags s1 i (alogv _ _ st2)) as [a2 b2].
  simpl in *. subst a2. by rewrite Hm1, Hm2, Hm, Hsnd.
Qed.

Lemma initializeSensorList_sensors_cong list i : ∀ st1 st2,
  mSensors st1 = mSensors st2 → mDirectChannelSubHal st1 = mDirectChannelSubHal st2 →
  mSensors (initializeSensorList_sensors list i st1)
  = mSensors (initializeSensorList_sensors list i st2) ∧
  mDirectChannelSubHal (initializeSensorList_sensors list i st1)
  = mDirectChannelSubHal (initializeSensorList_sensors list i st2).
Proof.
  induction list as [|s list IH]; intros st1 st2 Hm Hd; [done|].
  rewrite !initializeSensorList_sensors_cons.
  destruct (enumerated_cong s i st1 st2 Hm Hd) as [Hm' Hd']. by apply IH.
Qed.

(** The malformed descriptors leave no trace in the catalog. *)
Lemma initializeSensorList_sensors_filter list i : ∀ st,
  mSensors (initializeSensorList_sensors list i st)
  = mSensors (initializeSensorList_sensors (filter unnamespaced list) i st) ∧
  mDirectChannelSubHal (initializeSensorList_sensors list i st)
  = mDirectChannelSubHal (initializeSensorList_sensors (filter unnamespaced list) i st).
Proof.
  induction list as [|s list IH]; intros st; [done|].
  rewrite initializeSensorList_sensors_cons.
  destruct (decide (unnamespaced s)) as [Hs|Hs].
  - rewrite filter_cons_True by done. rewrite initializeSensorList_sensors_cons. apply IH.
  - rewrite filter_cons_False by done. rewrite enumerated_malformed by done.
    destruct (IH st) as [<- <-]. by apply initializeSensorList_sensors_cong.
Qed.

Lemma initializeSensorList_sensors_log list i : ∀ st,
  logcat (initializeSensorList_sensors list i st)
  = logcat st ++
    ((λ s, if decide (unnamespaced s)
           then ALOGV "Loaded sensor: %s" [LogStr (SensorInfo.name s)]
           else ALOGE "SubHal sensorHandle's first byte was not 0" []) <$> list).
Proof.
  induction list as [|s list IH]; intros st; [by rewrite app_nil_r|].
  rewrite initializeSensorList_sensors_cons, IH, fmap_cons.
  destruct (decide (unnamespaced s)) as [Hs|Hs].
  - destruct (enumerated_unnamespaced s i st Hs) as (s' & _ & _ & _ & ->).
    by rewrite <- app_assoc.
  - rewrite enumerated_malformed by done. simpl. by rewrite <- app_assoc.
Qed.

(** An entry filed under its own handle stays one. *)
Lemma initializeSensorList_sensors_keeps list i : ∀ st k,
  (∃ s', mSensors st !! k = Some s' ∧ SensorInfo.sensorHandle s' = k) →
  ∃ s', mSensors (initializeSensorList_sensors list i st) !! k = Some s' ∧
        SensorInfo.sensorHandle s' = k.
Proof.
  induction list as [|s list IH]; intros st k Hk; [done|].
  rewrite initializeSensorList_sensors_cons. apply IH.
  destruct (decide (unnamespaced s)) as [Hs|Hs].
  - destruct (enumerated_unnamespaced s i st Hs) as (s' & Hh & _ & -> & _).
    destruct (decide (SensorInfo.sensorHandle s' = k)) as [<-|Hne].
    + exists s'. by rewrite lookup_insert_eq.
    + by rewrite lookup_insert_ne.
  - by rewrite enumerated_malformed.
Qed.

Lemma initializeSensorList_sensors_inserts list i : ∀ st s,
  s ∈ list → unnamespaced s →
  ∃ s', mSensors (initializeSensorList_sensors list i st)
          !! setSubHalIndex (SensorInfo.sensorHandle s) (Z.of_nat i) = Some s' ∧
        SensorInfo.sensorHandle s'
        = setSubHalIndex (SensorInfo.sensorHandle s) (Z.of_nat i).
Proof.
  induction list as [|s0 list IH]; intros st s Hin Hs; [by apply elem_of_nil in Hin|].
  rewrite initializeSensorList_sensors_cons.
  apply elem_of_cons in Hin as [->|Hin]; [|by apply IH].
  apply initializeSensorList_sensors_keeps.
  destruct (enumerated_unnamespaced s0 i st Hs) as (s' & Hh & _ & -> & _).
  exists s'. rewrite <- Hh. by rewrite lookup_insert_eq.
Qed.

Lemma initializeSensorList_sensors_sound list i : ∀ st k s',
  mSensors (initializeSensorList_sensors list i st) !! k = Some s' →
  mSensors st !! k = Some s' ∨
  ∃ s, s ∈ list ∧ unnamespaced s ∧
       k = setSubHalIndex (SensorInfo.sensorHandle s) (Z.of_nat i) ∧
       SensorInfo.sensorHandle s' = k ∧ SensorInfo.name s' = SensorInfo.name s.
Proof.
  induction list as [|s list IH]; intros st k s' Hk; [by left|].
  rewrite initializeSensorList_sensors_cons in Hk.
  apply IH in Hk as [Hk|(s0 & Hin & Hs0 & Hrest)].
  - destruct (decide (unnamespaced s)) as [Hs|Hs].
    + destruct (enumerated_unnamespaced s i st Hs) as (s1 & Hh & Hn & Hm & _).
      rewrite Hm in Hk.
      destruct (decide (SensorInfo.sensorHandle s1 = k)) as [Heq|Hne].
      * subst k. rewrite lookup_insert_eq in Hk. injection Hk as <-.
        right. exists s. split; [by left|]. done.
      * rewrite lookup_insert_ne in Hk by done. by left.
    + rewrite enumerated_malformed in Hk by done. by left.
  - right. exists s0. split; [by right|]. done.
Qed.

Lemma initializeSensorList_from_keeps subHals : ∀ i st k,
  (∃ s', mSensors st !! k = Some s' ∧ SensorInfo.sensorHandle s' = k) →
  ∃ s', mSensors (initializeSensorList_from subHals i st) !! k = Some s' ∧
        SensorInfo.sensorHandle s' = k.
Proof.
  induction subHals as [|sh subHals IH]; intros i st k Hk; [done|].
  cbn [initializeSensorList_from]. apply IH.
  by apply initializeSensorList_sensors_keeps.
Qed.

Lemma initializeSensorList_from_inserts subHals : ∀ i st j sh s,
  subHals !! j = Some sh → s ∈ getSensorsList sh → unnamespaced s →
  ∃ s', mSensors (initializeSensorList_from subHals i st)
          !! setSubHalIndex (SensorInfo.sensorHandle s) (Z.of_nat (i + j)) = Some s' ∧
        SensorInfo.sensorHandle s'
        = setSubHalIndex (SensorInfo.sensorHandle s) (Z.of_nat (i + j)).
Proof.
  induction subHals as [|sh0 subHals IH]; intros i st j sh s Hj Hin Hs; [done|].
  cbn [initializeSensorList_from].
  destruct j as [|j]; simpl in Hj.
  - injection Hj as ->. rewrite Nat.add_0_r.
    apply initializeSensorList_from_keeps.
    by apply initializeSensorList_sensors_inserts.
  - replace (i + S j)%nat with (S i + j)%nat by lia. by eapply IH.
Qed.

Lemma initializeSensorList_from_sound subHals : ∀ i st k s',
  mSensors (initializeSensorList_from subHals i st) !! k = Some s' →
  mSensors st !! k = Some s' ∨
  ∃ j sh s, subHals !! j = Some sh ∧ s ∈ getSensorsList sh ∧ unnamespaced s ∧
            k = setSubHalIndex (SensorInfo.sensorHandle s) (Z.of_nat (i + j)) ∧
            SensorInfo.sensorHandle s' = k ∧ SensorInfo.name s' = SensorInfo.name s.
Proof.
  induction subHals as [|sh0 subHals IH]; intros i st k s' Hk; [by left|].
  cbn [initializeSensorList_from] in Hk.
  apply IH in Hk as [Hk|(j & sh & s & Hj & Hin & Hs & Hrest)].
  - apply initializeSensorList_sensors_sound in Hk as [Hk|(s & Hin & Hs & Hrest)];
      [by left|].
    right. exists 0%nat, sh0, s. rewrite Nat.add_0_r. done.
  - right. exists (S j), sh, s.
    replace (i + S j)%nat with (S i + j)%nat by lia. done.
Qed.

(** C9.  Of the descriptors a sub-HAL reports, those whose handle has
    namespace bits set are logged and left out.  In the initial enumeration
    the catalog is the one the unnamespaced descriptors alone produce: every
    new entry is an unnamespaced descriptor filed under its stamped handle,
    and every unnamespaced descriptor has an entry there; the same holds of
    [initializeSensorList] over all the sub-HALs.  In a
    dynamic-sensors-connected notification the unnamespaced descriptors are
    stamped, inserted in the catalog of dynamic sensors and forwarded
    upstream, and nothing else is. *)
Theorem malformed_descriptors_dropped (reported : list SensorInfo.t)
    (subHalIndex : nat) (dynamicSubHalIndex : Z) (st : HalProxy) :
  let good := filter unnamespaced reported in
  let bad := filter (λ s, ¬ unnamespaced s) reported in
  let key s := setSubHalIndex (SensorInfo.sensorHandle s) (Z.of_nat subHalIndex) in
  (let st' := initializeSensorList_sensors reported subHalIndex st in
   mSensors st' = mSensors (initializeSensorList_sensors good subHalIndex st) ∧
   (∀ k s', mSensors st' !! k = Some s' →
      mSensors st !! k = Some s' ∨
      ∃ s, s ∈ good ∧ k = key s ∧
           SensorInfo.sensorHandle s' = k ∧ SensorInfo.name s' = SensorInfo.name s) ∧
   (∀ s, s ∈ good →
      ∃ s', mSensors st' !! key s = Some s' ∧ SensorInfo.sensorHandle s' = key s) ∧
   logcat st'
   = logcat st ++
     ((λ s, if decide (unnamespaced s)
            then ALOGV "Loaded sensor: %s" [LogStr (SensorInfo.name s)]
            else ALOGE "SubHal sensorHandle's first byte was not 0" []) <$> reported)) ∧
  (let st' := initializeSensorList st in
   (∀ k s', mSensors st' !! k = Some s' →
      mSensors st !! k = Some s' ∨
      ∃ i sh s, mSubHalList st !! i = Some sh ∧ s ∈ getSensorsList sh ∧ unnamespaced s ∧
                k = setSubHalIndex (SensorInfo.sensorHandle s) (Z.of_nat i) ∧
                SensorInfo.sensorHandle s' = k ∧ SensorInfo.name s' = SensorInfo.name s) ∧
   (∀ i sh s, mSubHalList st !! i = Some sh → s ∈ getSensorsList sh → unnamespaced s →
      ∃ s', mSensors st' !! setSubHalIndex (SensorInfo.sensorHandle s) (Z.of_nat i)
            = Some s' ∧
            SensorInfo.sensorHandle s'
            = setSubHalIndex (SensorInfo.sensorHandle s) (Z.of_nat i))) ∧
  (mDynamicSensorsCallback st = true →
   let fwd := stamp (to_size_t dynamicSubHalIndex) <$> good in
   ∃ st', onDynamicSensorsConnected reported dynamicSubHalIndex st = Some st' ∧
          upstream st' = upstream st ++ [OnDynamicSensorsConnected fwd] ∧
          mDynamicSensors st' = insertAll (mDynamicSensors st) fwd ∧
          logcat st'
          = logcat st ++
            ((λ s, ALOGE "Dynamic sensor added %s had sensorHandle with first byte not 0."
                         [LogStr (SensorInfo.name s)]) <$> bad) ∧
          mSensors st' = mSensors st).
Proof.
  intros good bad key. split; [|split].
  - cbv zeta. split; [apply initializeSensorList_sensors_filter|].
    split; [|split; [|apply initializeSensorList_sensors_log]].
    + intros k s' Hk.
      apply initializeSensorList_sensors_sound in Hk as [Hk|(s & Hin & Hs & Hrest)];
        [by left|].
      right. exists s. split; [|done]. subst good. by apply list_elem_of_filter.
    + intros s [Hs Hin]%list_elem_of_filter.
      by apply initializeSensorList_sensors_inserts.
  - cbv zeta. unfold initializeSensorList. split.
    + intros k s' Hk.
      apply initializeSensorList_from_sound in Hk as [Hk|Hk]; [by left|by right].
    + intros i sh s Hi Hin Hs.
      by apply (initializeSensorList_from_inserts _ 0%nat st i sh s).
  - intros Hcb fwd. unfold onDynamicSensorsConnected.
    rewrite dynamic_loop_spec. cbv zeta. simpl. rewrite Hcb.
    eexists. split; [done|]. by simpl.
Qed.

(** * Further properties *)

(** A lemma depends on the constants its statement names and on no other. *)
#[local] Set Default Proof Using "Type".

(** ** Wake lock: consistency and round trips *)

Lemma wake_lock_held_snoc calls c :
  wake_lock_held (calls ++ [c]) = match c with acquire_wake_lock => true | _ => false end.
Proof. unfold wake_lock_held. by rewrite last_snoc. Qed.

(** A release either changes nothing or takes effect on a positive count. *)
Lemma decrement_cases delta timeoutStart st :
  decrementRefCountAndMaybeReleaseWakelock delta timeoutStart st = st ∨
  (mThreadsRun st = true ∧
   (timeoutStart = -1 ∨ mWakelockTimeoutResetTime (wakelock st) <= timeoutStart) ∧
   mWakelockRefCount (wakelock st) ≠ 0).
Proof.
  unfold decrementRefCountAndMaybeReleaseWakelock.
  destruct (mThreadsRun st); [|by left]. simpl.
  destruct (Z.eqb_spec (mWakelockRefCount (wakelock st)) 0); [by left|]. simpl.
  destruct (Z.eqb_spec timeoutStart (-1)) as [->|Hne].
  - rewrite Z.ltb_irrefl. right. auto.
  - destruct (Z.ltb_spec timeoutStart (mWakelockTimeoutResetTime (wakelock st)));
      [by left|]. right. auto.
Qed.

Lemma set_wakelock_twice w1 w2 st :
  set_wakelock w1 (set_wakelock w2 st) = set_wakelock w1 st.
Proof. done. Qed.

Lemma increment_running now delta st :
  mThreadsRun st = true →
  incrementRefCountAndMaybeAcquireWakelock now delta st =
    (true,
     set_wakelock
       {| mWakelockRefCount := to_size_t (mWakelockRefCount (wakelock st) + delta);
          mWakelockTimeoutStartTime := now;
          mWakelockTimeoutResetTime := mWakelockTimeoutResetTime (wakelock st);
          power := if mWakelockRefCount (wakelock st) =? 0
                   then power (wakelock st) ++ [acquire_wake_lock]
                   else power (wakelock st) |} st).
Proof.
  intros Hrun. unfold incrementRefCountAndMaybeAcquireWakelock. rewrite Hrun. simpl.
  by destruct (mWakelockRefCount (wakelock st) =? 0).
Qed.

(** X1.  If the OS wake lock is held exactly when the count is positive, it
    is so again after an acquisition for a positive number of events, after
    any release and after a reset. *)
Theorem wake_lock_held_iff_counted (st : HalProxy) :
  is_size_t (mWakelockRefCount (wakelock st)) →
  wakelock_consistent (wakelock st) →
  (∀ now delta, 0 < delta → mWakelockRefCount (wakelock st) + delta < 2 ^ 64 →
     wakelock_consistent
       (wakelock (snd (incrementRefCountAndMaybeAcquireWakelock now delta st)))) ∧
  (∀ delta timeoutStart, 0 <= delta →
     wakelock_consistent
       (wakelock (decrementRefCountAndMaybeReleaseWakelock delta timeoutStart st))) ∧
  (∀ now, wakelock_consistent (wakelock (resetSharedWakelock now st))).
Proof.
  intros Hrc Hcons. unfold wakelock_consistent in *. unfold is_size_t in Hrc.
  assert (∀ delta timeoutStart, 0 <= delta →
     wake_lock_held
       (power (wakelock (decrementRefCountAndMaybeReleaseWakelock delta timeoutStart st)))
     = (0 <? mWakelockRefCount
               (wakelock (decrementRefCountAndMaybeReleaseWakelock delta timeoutStart st))))
    as Hdec.
  { intros delta ts Hdelta.
    destruct (decrement_cases delta ts st) as [->|(Hrun & Hts & Hne)]; [done|].
    destruct (decrement_effective delta ts st Hrun Hts Hrc Hdelta) as (-> & -> & _).
    case_bool_decide as Hcase.
    - rewrite wake_lock_held_snoc. symmetry. apply Z.ltb_ge. lia.
    - rewrite Hcons. destruct (Z.ltb_spec 0 (mWakelockRefCount (wakelock st)));
        symmetry; [apply Z.ltb_lt|apply Z.ltb_ge]; lia. }
  split; [|split; [exact Hdec|]].
  - intros now delta Hdelta Hsum.
    destruct (mThreadsRun st) eqn:Hrun.
    + rewrite increment_running by done. simpl.
      rewrite to_size_t_small by (unfold is_size_t; lia).
      destruct (Z.eqb_spec (mWakelockRefCount (wakelock st)) 0) as [H0|H0].
      * rewrite wake_lock_held_snoc. symmetry. apply Z.ltb_lt. lia.
      * rewrite Hcons. destruct (Z.ltb_spec 0 (mWakelockRefCount (wakelock st)));
          symmetry; [apply Z.ltb_lt|apply Z.ltb_ge]; lia.
    + unfold incrementRefCountAndMaybeAcquireWakelock. by rewrite Hrun.
  - intros now. unfold resetSharedWakelock. simpl. apply Hdec. lia.
Qed.

(** X2.  While the threads run, an acquisition for [delta] events followed by
    a release of [delta] that is not stale restores the count; on a free lock
    the pair acquires the OS wake lock once and releases it once, on a held
    lock it makes no call to the power HAL. *)
Theorem acquire_then_release_restores (now delta timeoutStart : Z) (st : HalProxy) :
  mThreadsRun st = true →
  is_size_t (mWakelockRefCount (wakelock st)) →
  0 < delta → mWakelockRefCount (wakelock st) + delta < 2 ^ 64 →
  timeoutStart = -1 ∨ mWakelockTimeoutResetTime (wakelock st) <= timeoutStart →
  let st' := decrementRefCountAndMaybeReleaseWakelock delta timeoutStart
               (snd (incrementRefCountAndMaybeAcquireWakelock now delta st)) in
  mWakelockRefCount (wakelock st') = mWakelockRefCount (wakelock st) ∧
  power (wakelock st') =
    (if mWakelockRefCount (wakelock st) =? 0
     then power (wakelock st) ++ [acquire_wake_lock; release_wake_lock]
     else power (wakelock st)) ∧
  mWakelockTimeoutStartTime (wakelock st') = now ∧
  mWakelockTimeoutResetTime (wakelock st') = mWakelockTimeoutResetTime (wakelock st) ∧
  set_wakelock (wakelock st) st' = st.
Proof.
  intros Hrun Hrc Hdelta Hsum Hts st'. subst st'. unfold is_size_t in Hrc.
  rewrite increment_running by done. cbn [snd].
  set (st1 := set_wakelock _ st).
  assert (mWakelockRefCount (wakelock st1) = mWakelockRefCount (wakelock st) + delta)
    as Hrc1 by (subst st1; cbn [wakelock set_wakelock mWakelockRefCount];
                apply to_size_t_small; unfold is_size_t; lia).
  destruct (decrement_effective delta timeoutStart st1) as (Hc & Hp & Hs & Hr & Hframe).
  - done.
  - done.
  - rewrite Hrc1. unfold is_size_t. lia.
  - lia.
  - assert (set_wakelock (wakelock st)
              (decrementRefCountAndMaybeReleaseWakelock delta timeoutStart st1) = st)
      as Hback.
    { rewrite <- (set_wakelock_twice _ (wakelock st1)), Hframe.
      subst st1. by destruct st. }
    rewrite Hc, Hp, Hs, Hr, Hrc1. subst st1.
    cbn [wakelock set_wakelock power mWakelockTimeoutStartTime
         mWakelockTimeoutResetTime].
    split; [lia|]. split; [|by split].
    destruct (Z.eqb_spec (mWakelockRefCount (wakelock st)) 0) as [H0|H0].
    + rewrite bool_decide_eq_true_2 by lia. by rewrite <- app_assoc.
    + by rewrite bool_decide_eq_false_2 by lia.
Qed.

(** X3.  An acquisition for zero events on a free lock, threads running,
    acquires the OS wake lock and leaves the count at zero; from there no
    release and no reset calls [release_wake_lock]. *)
Theorem acquire_for_no_event_leaks (now : Z) (st : HalProxy) :
  mThreadsRun st = true → mWakelockRefCount (wakelock st) = 0 →
  let st1 := snd (incrementRefCountAndMaybeAcquireWakelock now 0 st) in
  mWakelockRefCount (wakelock st1) = 0 ∧
  power (wakelock st1) = power (wakelock st) ++ [acquire_wake_lock] ∧
  wake_lock_held (power (wakelock st1)) = true ∧
  (∀ delta timeoutStart,
     decrementRefCountAndMaybeReleaseWakelock delta timeoutStart st1 = st1) ∧
  (∀ now', power (wakelock (resetSharedWakelock now' st1)) = power (wakelock st1)).
Proof.
  intros Hrun H0 st1. subst st1.
  rewrite increment_running by done. cbn [snd]. rewrite H0.
  set (st1 := set_wakelock _ st).
  assert (∀ delta timeoutStart,
            decrementRefCountAndMaybeReleaseWakelock delta timeoutStart st1 = st1) as Hdec.
  { intros delta ts. unfold decrementRefCountAndMaybeReleaseWakelock.
    subst st1. simpl. by rewrite Hrun. }
  split; [done|]. split; [done|]. split; [apply wake_lock_held_snoc|].
  split; [exact Hdec|].
  intros now'. unfold resetSharedWakelock. by rewrite Hdec.
Qed.

(** ** Wake lock: the monitoring thread *)

Lemma to_int64_small z : is_int64 z → to_int64 z = z.
Proof. unfold is_int64, to_int64. intros Hz. rewrite Z.mod_small; lia. Qed.

(** X4.  While the threads run and events are counted, a turn of the
    wake-lock thread that finds the lock held for longer than
    [kWakelockTimeoutNs] since the last acquisition resets it: the count
    drops to zero, the OS wake lock is released and the reset time is
    recorded, whatever the framework has acknowledged. *)
Theorem wake_lock_released_after_timeout (now nowReset : Z) (frameworkWrites : list Z)
    (st : HalProxy) :
  mThreadsRun st = true →
  0 < mWakelockRefCount (wakelock st) < 2 ^ 64 →
  is_int64 (now - mWakelockTimeoutStartTime (wakelock st)) →
  kWakelockTimeoutNs < now - mWakelockTimeoutStartTime (wakelock st) →
  ∃ st', handleWakelocks_turn now nowReset frameworkWrites st = Some st' ∧
         mWakelockRefCount (wakelock st') = 0 ∧
         power (wakelock st') = power (wakelock st) ++ [release_wake_lock] ∧
         mWakelockTimeoutResetTime (wakelock st') = nowReset ∧
         mWakeLockQueue st' = mWakeLockQueue st.
Proof.
  intros Hrun Hrc Hdur Hlate.
  unfold handleWakelocks_turn, sharedWakelockDidTimeout. rewrite Hrun. cbn [negb].
  rewrite (proj2 (Z.ltb_lt 0 _)) by lia. cbn [negb].
  rewrite to_int64_small by done.
  rewrite (proj2 (Z.ltb_lt _ _) Hlate).
  eexists. split; [done|].
  destruct (resetSharedWakelock_running nowReset st Hrun) as (Hc & Hp & Hr).
  { unfold is_size_t. lia. }
  rewrite Hc, Hp, Hr. rewrite bool_decide_eq_true_2 by lia.
  split; [done|]. split; [done|]. split; [done|].
  unfold resetSharedWakelock, decrementRefCountAndMaybeReleaseWakelock.
  rewrite Hrun. cbn [negb].
  repeat match goal with |- context [if ?b then _ else _] => destruct b end; done.
Qed.

(** X5.  While the threads run, events are counted and the lock has not
    timed out, a turn of the wake-lock thread takes the oldest word [n] of
    the wake-lock queue and releases [n] events: the count drops by
    [min(refCount, n)] and the OS wake lock is released exactly when it
    reaches zero.  With no word to read the turn changes nothing. *)
Theorem wake_lock_acknowledged (now nowReset : Z) (frameworkWrites wq : list Z)
    (st : HalProxy) :
  mThreadsRun st = true →
  0 < mWakelockRefCount (wakelock st) < 2 ^ 64 →
  is_int64 (now - mWakelockTimeoutStartTime (wakelock st)) →
  now - mWakelockTimeoutStartTime (wakelock st) <= kWakelockTimeoutNs →
  mWakeLockQueue st = Some wq →
  let rc := mWakelockRefCount (wakelock st) in
  match wq ++ frameworkWrites with
  | [] => handleWakelocks_turn now nowReset frameworkWrites st = Some st
  | n :: rest =>
      0 <= n < 2 ^ 64 →
      ∃ st', handleWakelocks_turn now nowReset frameworkWrites st = Some st' ∧
             mWakeLockQueue st' = Some rest ∧
             mWakelockRefCount (wakelock st') = rc - Z.min rc n ∧
             power (wakelock st') =
               (if bool_decide (rc <= n)
                then power (wakelock st) ++ [release_wake_lock]
                else power (wakelock st))
  end.
Proof.
  intros Hrun Hrc Hdur Hearly Hwq rc.
  unfold handleWakelocks_turn, sharedWakelockDidTimeout. rewrite Hrun. cbn [negb].
  rewrite (proj2 (Z.ltb_lt 0 _)) by lia. cbn [negb].
  rewrite to_int64_small by done.
  rewrite (proj2 (Z.ltb_ge _ _) Hearly).
  rewrite Hwq. cbn [mbind option_bind]. unfold readBlocking.
  destruct (wq ++ frameworkWrites) as [|n rest] eqn:Hall.
  - apply app_eq_nil in Hall as [-> _].
    f_equal. destruct st; simpl in *. by subst.
  - intros Hn. eexists. split; [done|].
    rewrite to_size_t_small by done.
    match goal with
    | |- context [decrementRefCountAndMaybeReleaseWakelock n (-1) ?s] =>
        destruct (decrement_effective n (-1) s) as (Hc & Hp & _ & _ & Hframe)
    end; try done.
    { by left. }
    { unfold is_size_t. simpl. lia. }
    { lia. }
    simpl in Hc, Hp. rewrite Hc, Hp.
    split.
    + apply (f_equal mWakeLockQueue) in Hframe. exact Hframe.
    + split; [done|]. fold rc. subst rc.
      repeat case_bool_decide; (done || lia).
Qed.

(** ** Pending-write queue: accounting and order *)

(** Reads a field of an updated queue state. *)
Ltac queue_fields :=
  cbn [pendingWrites set_pendingWrites mEventQueue mEventQueueFlag
       mPendingWriteEventsQueue mSizePendingWriteEventsQueue
       mMostEventsObservedPendingWriteEventsQueue
       set_mEventQueue set_mPendingWriteEventsQueue set_mSizePendingWriteEventsQueue
       set_mMostEventsObservedPendingWriteEventsQueue].

Lemma pendingEvents_snoc pending evs nw :
  pendingEvents (pending ++ [(evs, nw)]) = pendingEvents pending ++ evs.
Proof.
  unfold pendingEvents. rewrite fmap_app, concat_app. simpl. by rewrite app_nil_r.
Qed.

Lemma vsize_app {A} (l1 l2 : list A) : vsize (l1 ++ l2) = vsize l1 + vsize l2.
Proof. unfold vsize. rewrite length_app. lia. Qed.

Lemma immediateWrite_frame events p k p1 :
  (∀ q, mEventQueue p = Some q → 0 <= availableToWrite q) →
  postEvents_immediateWrite events p = Some (k, p1) →
  0 <= k <= vsize events ∧
  mPendingWriteEventsQueue p1 = mPendingWriteEventsQueue p ∧
  mSizePendingWriteEventsQueue p1 = mSizePendingWriteEventsQueue p ∧
  mMostEventsObservedPendingWriteEventsQueue p1
  = mMostEventsObservedPendingWriteEventsQueue p.
Proof.
  intros Hwf. unfold postEvents_immediateWrite.
  pose proof (vsize_nonneg events) as Hev.
  destruct (mPendingWriteEventsQueue p) as [|b pending] eqn:Hpending.
  - destruct (mEventQueue p) as [q|] eqn:Hq; [|done]. cbn [mbind option_bind].
    specialize (Hwf q eq_refl).
    destruct (Z.ltb_spec 0 (Z.min (vsize events) (availableToWrite q))).
    + destruct (write _ q); [destruct (mEventQueueFlag p); [|done]|];
        intros [= <- <-]; cbn; rewrite ?Hpending; repeat split; lia.
    + intros [= <- <-]. rewrite Hpending. repeat split; lia.
  - intros [= <- <-]. rewrite Hpending. repeat split; lia.
Qed.

(** What every turn on a non-empty queue does to the queue state. *)
Lemma turn_pendingWrites readerTakes st q evs nw pending :
  mThreadsRun st = true →
  mEventQueue (pendingWrites st) = Some q →
  mPendingWriteEventsQueue (pendingWrites st) = (evs, nw) :: pending →
  let n := Z.min (vsize evs) (getQuantumCount q) in
  ∃ st',
    handlePendingWrites_turn readerTakes st = Some st' ∧
    mEventQueue (pendingWrites st')
    = Some (snd (writeBlocking (take (Z.to_nat n) evs) readerTakes q)) ∧
    mPendingWriteEventsQueue (pendingWrites st') =
      (if getQuantumCount q <? vsize evs
       then (drop (Z.to_nat (getQuantumCount q)) evs, nw) :: pending
       else pending) ∧
    mSizePendingWriteEventsQueue (pendingWrites st') =
      to_size_t (mSizePendingWriteEventsQueue (pendingWrites st) - n) ∧
    mMostEventsObservedPendingWriteEventsQueue (pendingWrites st') =
      mMostEventsObservedPendingWriteEventsQueue (pendingWrites st).
Proof.
  intros Hrun Hq Hpending n.
  unfold handlePendingWrites_turn. rewrite Hrun, Hpending, Hq.
  cbn [negb mbind option_bind]. fold n.
  destruct (writeBlocking (take (Z.to_nat n) evs) readerTakes q) as [ok q'].
  eexists. split; [done|].
  set (st1 := set_pendingWrites _ st).
  match goal with
  | |- context [pendingWrites (if ok then st1 else ?x)] =>
      assert (pendingWrites (if ok then st1 else x) = pendingWrites st1) as Hp
  end.
  { destruct ok; [done|].
    destruct (0 <? nw); [|done].
    destruct (getQuantumCount q <? vsize evs).
    - match goal with
      | |- context [countNumWakeupEvents ?e ?m ?s] =>
          pose proof (countNumWakeupEvents_only_sensors e m s) as Hs;
          destruct (countNumWakeupEvents e m s) as [c s']
      end.
      cbn [snd] in Hs.
      rewrite <- (decrement_only_wakelock c (-1) s') in Hs.
      by apply (f_equal pendingWrites) in Hs.
    - match goal with
      | |- context [decrementRefCountAndMaybeReleaseWakelock ?d ?t ?s] =>
          pose proof (decrement_only_wakelock d t s) as Hs
      end.
      by apply (f_equal pendingWrites) in Hs. }
  cbn [snd]. destruct (getQuantumCount q <? vsize evs); queue_fields; rewrite Hp;
    by subst st1.
Qed.

(** X6.  The accounting of the pending-write queue is kept by a post and by
    a turn of the pending-writes thread that return: the size counter is the
    number of waiting events, it stays within the bound, and the high-water
    mark is not below it. *)
Theorem pending_queue_accounted (st : HalProxy) :
  queue_consistent (pendingWrites st) →
  mSizePendingWriteEventsQueue (pendingWrites st) <= kMaxSizePendingWriteEventsQueue →
  kMaxSizePendingWriteEventsQueue < 2 ^ 64 →
  (∀ q, mEventQueue (pendingWrites st) = Some q →
        0 <= availableToWrite q ∧ 0 <= getQuantumCount q) →
  (∀ now events numWakeupEvents lock st',
     kMaxSizePendingWriteEventsQueue + vsize events < 2 ^ 64 →
     postEventsToMessageQueue now events numWakeupEvents lock st = Some st' →
     queue_consistent (pendingWrites st') ∧
     mSizePendingWriteEventsQueue (pendingWrites st') <= kMaxSizePendingWriteEventsQueue) ∧
  (∀ readerTakes st',
     handlePendingWrites_turn readerTakes st = Some st' →
     queue_consistent (pendingWrites st') ∧
     mSizePendingWriteEventsQueue (pendingWrites st') <= kMaxSizePendingWriteEventsQueue).
Proof.
  intros Hcons Hbound Hmax Hwf. pose proof Hcons as [Hsize Hmost]. split.
  - intros now events nw lock st' Hfit.
    unfold postEventsToMessageQueue.
    set (st0 := if isLocked lock then _ else st).
    assert (pendingWrites st0 = pendingWrites st) as Hp.
    { subst st0. destruct (isLocked lock); [apply increment_pendingWrites|done]. }
    rewrite Hp.
    destruct (postEvents_immediateWrite events (pendingWrites st)) as [[k p1]|] eqn:Him;
      [|done].
    apply immediateWrite_frame in Him as (Hk & Hpend1 & Hsize1 & Hmost1);
      [|intros q Hq; by apply Hwf].
    cbn [mbind option_bind].
    pose proof (vsize_nonneg (pendingEvents (mPendingWriteEventsQueue (pendingWrites st))))
      as Hnonneg.
    rewrite (to_size_t_small (vsize events - k)) by (unfold is_size_t; lia).
    rewrite Hsize1.
    rewrite to_size_t_small by (unfold is_size_t; lia).
    destruct (_ && _) eqn:Hcond; intros [= <-]; unfold queue_consistent; queue_fields.
    + apply andb_true_iff in Hcond as [_ Hle%Z.leb_le].
      rewrite Hpend1, Hmost1, Hsize1.
      rewrite to_size_t_small by (unfold is_size_t; lia).
      rewrite pendingEvents_snoc, vsize_app, vsize_drop by lia.
      split; [split|]; lia.
    + rewrite Hpend1, Hsize1, Hmost1. by repeat split.
  - intros r st'.
    destruct (mThreadsRun st) eqn:Hrun;
      [|unfold handlePendingWrites_turn; rewrite Hrun; by intros [= <-]].
    destruct (mPendingWriteEventsQueue (pendingWrites st)) as [|[evs nw] pending] eqn:Hpend;
      [unfold handlePendingWrites_turn; rewrite Hrun, Hpend; by intros [= <-]|].
    destruct (mEventQueue (pendingWrites st)) as [q|] eqn:Hq;
      [|unfold handlePendingWrites_turn; by rewrite Hrun, Hpend, Hq].
    destruct (turn_pendingWrites r st q evs nw pending Hrun Hq Hpend)
      as (st1 & -> & _ & Hpend1 & Hsize1 & Hmost1).
    intros [= <-].
    destruct (Hwf q eq_refl) as [_ Hcap].
    assert (pendingEvents ((evs, nw) :: pending) = evs ++ pendingEvents pending)
      as Hfront by done.
    rewrite Hfront, vsize_app in Hsize.
    pose proof (vsize_nonneg evs). pose proof (vsize_nonneg (pendingEvents pending)).
    unfold queue_consistent. rewrite Hpend1, Hsize1, Hmost1.
    rewrite to_size_t_small by (unfold is_size_t; lia).
    destruct (Z.ltb_spec (getQuantumCount q) (vsize evs)).
    + assert (∀ l, pendingEvents ((l, nw) :: pending) = l ++ pendingEvents pending)
        as -> by done.
      rewrite vsize_app, vsize_drop by lia. split; [split|]; lia.
    + split; [split|]; lia.
Qed.
(** What a post that fits under the bound does: the first [writtenAtOnce]
    events go to the event queue, the others wait behind the batches already
    waiting. *)
Lemma postEventsToMessageQueue_split (now : Z) (events : list Event.t) (numWakeupEvents : Z)
    (lock : ScopedWakelock) (st : HalProxy) (q : MessageQueue) :
  let p := pendingWrites st in
  let K := Z.to_nat (writtenAtOnce events p q) in
  mEventQueue p = Some q → mEventQueueFlag p = true → 0 <= availableToWrite q →
  queue_consistent p →
  kMaxSizePendingWriteEventsQueue < 2 ^ 64 →
  mSizePendingWriteEventsQueue p + vsize events <= kMaxSizePendingWriteEventsQueue →
  ∃ st' q',
    postEventsToMessageQueue now events numWakeupEvents lock st = Some st' ∧
    mEventQueue (pendingWrites st') = Some q' ∧
    written q' = written q ++ take K events ∧
    pendingEvents (mPendingWriteEventsQueue (pendingWrites st'))
    = pendingEvents (mPendingWriteEventsQueue p) ++ drop K events.
Proof.
  intros p K0 Hq Hflag Havail [Hsize _] Hmax Hfit. subst K0.
  destruct (immediateWrite_spec events p q Hq Hflag Havail)
    as (q' & Hwrite & _ & Hunread & Hconsumed).
  set (K := writtenAtOnce events p q) in *.
  pose proof (vsize_nonneg events) as Hev.
  pose proof (vsize_nonneg (pendingEvents (mPendingWriteEventsQueue p))) as Hpe.
  assert (0 <= K <= vsize events) as HK.
  { subst K. unfold writtenAtOnce. destruct (mPendingWriteEventsQueue p); lia. }
  assert (written q' = written q ++ take (Z.to_nat K) events) as Hwr.
  { unfold written. rewrite Hunread, Hconsumed. by rewrite app_assoc. }
  unfold postEventsToMessageQueue.
  set (st0 := if isLocked lock then _ else st).
  assert (pendingWrites st0 = p) as Hp.
  { subst st0. destruct (isLocked lock); [apply increment_pendingWrites|done]. }
  rewrite Hp, Hwrite. cbn [mbind option_bind]. queue_fields.
  rewrite (to_size_t_small (vsize events - K)) by (unfold is_size_t; lia).
  rewrite to_size_t_small by (unfold is_size_t; lia).
  rewrite (proj2 (Z.leb_le _ _)) by lia. rewrite andb_true_r.
  destruct (Z.ltb_spec K (vsize events)) as [Hlt|Hge].
  - eexists _, q'. split; [done|]. queue_fields. split; [done|]. split; [done|].
    by rewrite pendingEvents_snoc.
  - eexists _, q'. split; [done|]. queue_fields. split; [done|]. split; [done|].
    rewrite drop_ge by (unfold vsize in Hge; lia). by rewrite app_nil_r.
Qed.

(** X7.  A post that fits under the bound loses and reorders nothing: the
    events already written followed by the events waiting are, after the
    post, what they were before followed by the events posted.  In
    particular a post made while batches wait writes nothing to the event
    queue ahead of them. *)
Theorem post_keeps_order (now : Z) (events : list Event.t) (numWakeupEvents : Z)
    (lock : ScopedWakelock) (st : HalProxy) (q : MessageQueue) :
  let p := pendingWrites st in
  mEventQueue p = Some q → mEventQueueFlag p = true → 0 <= availableToWrite q →
  queue_consistent p →
  kMaxSizePendingWriteEventsQueue < 2 ^ 64 →
  mSizePendingWriteEventsQueue p + vsize events <= kMaxSizePendingWriteEventsQueue →
  ∃ st' q',
    postEventsToMessageQueue now events numWakeupEvents lock st = Some st' ∧
    mEventQueue (pendingWrites st') = Some q' ∧
    written q' ++ pendingEvents (mPendingWriteEventsQueue (pendingWrites st'))
    = written q ++ pendingEvents (mPendingWriteEventsQueue p) ++ events ∧
    (mPendingWriteEventsQueue p ≠ [] → written q' = written q).
Proof.
  intros p Hq Hflag Havail Hcons Hmax Hfit.
  destruct (postEventsToMessageQueue_split now events numWakeupEvents lock st q
              Hq Hflag Havail Hcons Hmax Hfit)
    as (st' & q' & Hpost & Hq' & Hwr & Hpend).
  fold p in Hwr, Hpend.
  exists st', q'. split; [done|]. split; [done|]. rewrite Hwr, Hpend.
  unfold writtenAtOnce.
  destruct (mPendingWriteEventsQueue p) as [|b pending] eqn:Hwaiting.
  - split; [|done]. cbn [pendingEvents fmap list_fmap concat app].
    rewrite <- app_assoc. by rewrite take_drop.
  - cbn [Z.to_nat take drop]. rewrite !app_nil_r. by split.
Qed.

(** X8.  Batches are delivered first in, first out: whatever batches wait,
    as long as no blocking write times out the pending-writes thread empties
    the queue within as many turns as there are waiting events and batches,
    and the event queue has received the waiting events batch after batch,
    each in its order. *)
Theorem pending_batches_drained_in_order (readers : list nat) : ∀ (st : HalProxy) q,
  mThreadsRun st = true →
  mEventQueue (pendingWrites st) = Some q →
  0 < getQuantumCount q →
  let pending := mPendingWriteEventsQueue (pendingWrites st) in
  vsize (pendingEvents pending) + vsize pending <= vsize readers →
  blockingWritesSucceed readers st = true →
  ∃ st' q',
    handlePendingWrites readers st = Some st' ∧
    mEventQueue (pendingWrites st') = Some q' ∧
    mPendingWriteEventsQueue (pendingWrites st') = [] ∧
    written q' = written q ++ pendingEvents pending ∧
    wakelock st' = wakelock st.
Proof.
  induction readers as [|r readers IH]; intros st q Hrun Hq Hcap pending Hlen Hok.
  { subst pending.
    destruct (mPendingWriteEventsQueue (pendingWrites st)) as [|b pending] eqn:Hpend.
    - exists st, q. cbn. by rewrite app_nil_r.
    - pose proof (vsize_nonneg (pendingEvents (b :: pending))).
      unfold vsize in Hlen at 2 3. simpl in Hlen. lia. }
  subst pending.
  destruct (mPendingWriteEventsQueue (pendingWrites st)) as [|[evs nw] pending] eqn:Hpend.
  { rewrite handlePendingWrites_idle by done.
    exists st, q. cbn. by rewrite app_nil_r. }
  cbn [blockingWritesSucceed] in Hok. apply andb_true_iff in Hok as [Hok1 Hok].
  destruct (turn_success r st q evs nw pending Hrun Hq Hpend Hok1)
    as (st1 & q1 & Hturn & Hrun1 & Hq1 & Hcap1 & Hwr1 & Hpend1 & _ & Hwl1).
  rewrite Hturn in Hok. cbn [handlePendingWrites]. rewrite Hturn.
  cbn [mbind option_bind].
  assert (∀ l, pendingEvents ((l, nw) :: pending) = l ++ pendingEvents pending)
    as Hfront by done.
  rewrite Hfront, vsize_app in Hlen.
  pose proof (vsize_nonneg evs). pose proof (vsize_nonneg (pendingEvents pending)).
  assert (vsize (r :: readers) = 1 + vsize readers) as Hr
    by (unfold vsize; simpl; lia).
  assert (vsize ((evs, nw) :: pending) = 1 + vsize pending) as Hb
    by (unfold vsize; simpl; lia).
  rewrite Hr, Hb in Hlen.
  destruct (IH st1 q1) as (st2 & q2 & Hrun2 & Hq2 & Hpend2 & Hwr2 & Hwl2);
    [done|done|lia| |done|].
  - rewrite Hpend1.
    destruct (Z.ltb_spec (getQuantumCount q) (vsize evs)).
    + rewrite Hfront, vsize_app, vsize_drop by lia.
      assert (vsize ((drop (Z.to_nat (getQuantumCount q)) evs, nw) :: pending)
              = 1 + vsize pending) as -> by (unfold vsize; simpl; lia).
      lia.
    + lia.
  - exists st2, q2. split; [done|]. split; [done|]. split; [done|].
    split; [|congruence].
    rewrite Hwr2, Hwr1, Hpend1, Hfront, <- !app_assoc. f_equal.
    destruct (Z.ltb_spec (getQuantumCount q) (vsize evs)).
    + rewrite Z.min_r by lia. rewrite Hfront, app_assoc. by rewrite take_drop.
    + rewrite Z.min_l by lia. f_equal. apply take_ge. unfold vsize. lia.
Qed.

(** ** Pending-write queue: dropped writes and wake-up counts *)

Lemma decrement_wakelock_cong delta timeoutStart st1 st2 :
  mThreadsRun st1 = mThreadsRun st2 → wakelock st1 = wakelock st2 →
  wakelock (decrementRefCountAndMaybeReleaseWakelock delta timeoutStart st1)
  = wakelock (decrementRefCountAndMaybeReleaseWakelock delta timeoutStart st2).
Proof.
  intros Hrun Hw. unfold decrementRefCountAndMaybeReleaseWakelock. rewrite Hrun, Hw.
  repeat match goal with |- context [if ?b then _ else _] => destruct b end; done.
Qed.

Lemma writeBlocking_failure data readerTakes q :
  fst (writeBlocking data readerTakes q) = false →
  writeBlocking data readerTakes q = (false, read readerTakes q).
Proof.
  unfold writeBlocking. by destruct (write data (read readerTakes q)).
Qed.

(** X9.  A turn of the pending-writes thread whose blocking write times out
    writes nothing to the event queue, logs the drop and removes from the
    front batch the events it tried to write.  The wake-lock count is
    lowered only when the batch was posted with wake-up events: by that
    number when the whole batch was tried, and by the wake-up events counted
    among the events tried otherwise. *)
Theorem blocking_write_timeout_drops (readerTakes : nat) (st : HalProxy) (q : MessageQueue)
    (evs : list Event.t) (nw : Z) (pending : list (list Event.t * Z)) :
  mThreadsRun st = true →
  mEventQueue (pendingWrites st) = Some q →
  mPendingWriteEventsQueue (pendingWrites st) = (evs, nw) :: pending →
  blockingWriteSucceeds readerTakes st = false →
  let n := Z.min (vsize evs) (getQuantumCount q) in
  ∃ st' q',
    handlePendingWrites_turn readerTakes st = Some st' ∧
    mEventQueue (pendingWrites st') = Some q' ∧
    written q' = written q ∧
    mPendingWriteEventsQueue (pendingWrites st') =
      (if getQuantumCount q <? vsize evs
       then (drop (Z.to_nat (getQuantumCount q)) evs, nw) :: pending
       else pending) ∧
    logcat st' = logcat st ++ [ALOGE "Dropping %zu events after blockingWrite failed."
                                     [LogNum n]] ∧
    wakelock st' =
      (if 0 <? nw then
         if getQuantumCount q <? vsize evs
         then wakelock (decrementRefCountAndMaybeReleaseWakelock
                          (fst (countNumWakeupEvents evs (getQuantumCount q) st)) (-1) st)
         else wakelock (decrementRefCountAndMaybeReleaseWakelock nw (-1) st)
       else wakelock st).
Proof.
  intros Hrun Hq Hpending Hfail n.
  unfold blockingWriteSucceeds in Hfail. rewrite Hpending, Hq, Hrun in Hfail.
  cbn [negb orb] in Hfail. fold n in Hfail.
  apply writeBlocking_failure in Hfail.
  unfold handlePendingWrites_turn. rewrite Hrun, Hpending, Hq.
  cbn [negb mbind option_bind]. fold n. rewrite Hfail.
  eexists _, (read readerTakes q). split; [done|].
  set (st1 := set_pendingWrites _ st).
  set (st2 := aloge _ _ st1).
  assert (mThreadsRun st2 = mThreadsRun st ∧ wakelock st2 = wakelock st) as [Hr2 Hw2]
    by done.
  destruct (0 <? nw).
  - destruct (getQuantumCount q <? vsize evs) eqn:Hbig.
    + assert (fst (countNumWakeupEvents evs (getQuantumCount q) st2)
              = fst (countNumWakeupEvents evs (getQuantumCount q) st)) as Hcount.
      { unfold countNumWakeupEvents. change (mSensors st2) with (mSensors st).
        by destruct (countNumWakeupEvents_loop _ _ _). }
      pose proof (countNumWakeupEvents_only_sensors evs (getQuantumCount q) st2) as Hs.
      destruct (countNumWakeupEvents evs (getQuantumCount q) st2) as [c s'].
      cbn [fst snd] in *. rewrite <- Hcount.
      pose proof (decrement_only_wakelock c (-1) s') as Hd.
      set (s'' := decrementRefCountAndMaybeReleaseWakelock c (-1) s') in *.
      assert (pendingWrites s'' = pendingWrites st2) as Hpw
        by exact (eq_trans (f_equal pendingWrites Hd) (f_equal pendingWrites Hs)).
      assert (logcat s'' = logcat st2) as Hlog
        by exact (eq_trans (f_equal logcat Hd) (f_equal logcat Hs)).
      queue_fields. cbn [logcat set_pendingWrites wakelock]. rewrite Hpw, Hlog.
      split; [done|]. split; [apply written_read|].
      split; [done|]. split; [done|].
      subst s''. apply decrement_wakelock_cong.
      * rewrite <- Hr2. exact (f_equal mThreadsRun Hs).
      * rewrite <- Hw2. exact (f_equal wakelock Hs).
    + pose proof (decrement_only_wakelock nw (-1) st2) as Hd.
      set (s'' := decrementRefCountAndMaybeReleaseWakelock nw (-1) st2) in *.
      assert (pendingWrites s'' = pendingWrites st2) as Hpw
        by exact (f_equal pendingWrites Hd).
      assert (logcat s'' = logcat st2) as Hlog by exact (f_equal logcat Hd).
      queue_fields. cbn [logcat set_pendingWrites wakelock]. rewrite Hpw, Hlog.
      split; [done|]. split; [apply written_read|].
      split; [done|]. split; [done|].
      subst s''. by apply decrement_wakelock_cong.
  - destruct (getQuantumCount q <? vsize evs); queue_fields;
      (split; [done|]); (split; [apply written_read|]); done.
Qed.

Lemma isWakeupIn_insert_default sensors h e :
  sensors !! h = None →
  isWakeupIn (<[h := SensorInfo.default]> sensors) e = isWakeupIn sensors e.
Proof.
  intros Hnone. unfold isWakeupIn.
  destruct (decide (h = Event.sensorHandle e)) as [<-|Hne].
  - by rewrite lookup_insert_eq, Hnone.
  - by rewrite lookup_insert_ne.
Qed.

Lemma countNumWakeupEvents_loop_spec events : ∀ c sensors,
  0 <= c → c + vsize events < 2 ^ 64 →
  fst (countNumWakeupEvents_loop events c sensors)
  = c + vsize (filter (λ e, isWakeupIn sensors e = true) events) ∧
  ∀ k, snd (countNumWakeupEvents_loop events c sensors) !! k
       = match sensors !! k with
         | Some s => Some s
         | None => if decide (k ∈ Event.sensorHandle <$> events)
                   then Some SensorInfo.default else None
         end.
Proof.
  induction events as [|e events IH]; intros c sensors Hc Hsum.
  { cbn. split; [unfold vsize; simpl; lia|].
    intros k. destruct (sensors !! k); [done|]. rewrite decide_False; [done|].
    apply not_elem_of_nil. }
  assert (vsize (e :: events) = 1 + vsize events) as Hlen by (unfold vsize; simpl; lia).
  pose proof (vsize_nonneg events) as Hev.
  cbn [countNumWakeupEvents_loop]. unfold sensorsAt.
  destruct (sensors !! Event.sensorHandle e) as [s|] eqn:Hlook.
  - assert (isWakeupIn sensors e = negb (Z.land (SensorInfo.flags s) WAKE_UP =? 0)) as Hwake
      by (unfold isWakeupIn; by rewrite Hlook).
    destruct (Z.land (SensorInfo.flags s) WAKE_UP =? 0); cbn [negb] in Hwake.
    + destruct (IH c sensors) as [Hcount Hkeys]; [lia|lia|].
      rewrite Hcount. split.
      * rewrite filter_cons_False; [done|]. by rewrite Hwake.
      * intros k. rewrite Hkeys. destruct (sensors !! k) eqn:Hk; [done|].
        rewrite fmap_cons.
        destruct (decide (k ∈ Event.sensorHandle <$> events)) as [Hin|Hout].
        -- rewrite decide_True; [done|]. by right.
        -- rewrite decide_False; [done|].
           intros [->|Hin]%elem_of_cons; [congruence|done].
    + rewrite to_size_t_small by (unfold is_size_t; lia).
      destruct (IH (c + 1) sensors) as [Hcount Hkeys]; [lia|lia|].
      rewrite Hcount. split.
      * rewrite filter_cons_True by done.
        assert (∀ (x : Event.t) l, vsize (x :: l) = 1 + vsize l) as ->
          by (intros; unfold vsize; simpl; lia).
        lia.
      * intros k. rewrite Hkeys. destruct (sensors !! k) eqn:Hk; [done|].
        rewrite fmap_cons.
        destruct (decide (k ∈ Event.sensorHandle <$> events)) as [Hin|Hout].
        -- rewrite decide_True; [done|]. by right.
        -- rewrite decide_False; [done|].
           intros [->|Hin]%elem_of_cons; [congruence|done].
  - assert (isWakeupIn sensors e = false) as Hwake
      by (unfold isWakeupIn; by rewrite Hlook).
    cbn [SensorInfo.flags SensorInfo.default]. rewrite Z.land_0_l. cbn [Z.eqb].
    destruct (IH c (<[Event.sensorHandle e := SensorInfo.default]> sensors))
      as [Hcount Hkeys]; [lia|lia|].
    rewrite Hcount. split.
    + rewrite filter_cons_False by (by rewrite Hwake).
      f_equal. f_equal. apply list_filter_iff. intros x.
      by rewrite isWakeupIn_insert_default.
    + intros k. rewrite Hkeys. rewrite fmap_cons.
      destruct (decide (Event.sensorHandle e = k)) as [<-|Hne].
      * rewrite lookup_insert_eq, Hlook. rewrite decide_True; [done|]. by left.
      * rewrite lookup_insert_ne by done.
        destruct (sensors !! k); [done|].
        destruct (decide (k ∈ Event.sensorHandle <$> events)) as [Hin|Hout].
        -- rewrite decide_True; [done|]. by right.
        -- rewrite decide_False; [done|].
           intros [->|Hin]%elem_of_cons; [congruence|done].
Qed.

(** X10.  [countNumWakeupEvents] returns the number of events among the
    first [n] whose sensor the catalog marks as a wake-up sensor.  It changes
    no entry of the catalog, but it adds a value-initialised entry, not a
    wake-up sensor, for every handle among those events that the catalog did
    not know; nothing else in the proxy changes. *)
Theorem countNumWakeupEvents_counts_and_fills (events : list Event.t) (n : Z)
    (st : HalProxy) :
  0 <= n < 2 ^ 64 →
  let counted := take (Z.to_nat n) events in
  let r := countNumWakeupEvents events n st in
  fst r = vsize (filter (λ e, isWakeupIn (mSensors st) e = true) counted) ∧
  (∀ k s, mSensors st !! k = Some s → mSensors (snd r) !! k = Some s) ∧
  (∀ k, mSensors st !! k = None →
        mSensors (snd r) !! k
        = if decide (k ∈ Event.sensorHandle <$> counted)
          then Some SensorInfo.default else None) ∧
  set_mSensors (mSensors st) (snd r) = st.
Proof.
  intros Hn counted r. subst r.
  split; [|split; [|split; [|apply countNumWakeupEvents_only_sensors]]].
  all: unfold countNumWakeupEvents; fold counted.
  all: destruct (countNumWakeupEvents_loop_spec counted 0 (mSensors st)) as [Hcount Hkeys];
    [lia|subst counted; unfold vsize; rewrite length_take; lia|].
  all: destruct (countNumWakeupEvents_loop counted 0 (mSensors st)) as [c sensors'];
    cbn [fst snd set_mSensors mSensors] in *.
  - lia.
  - intros k s Hk. by rewrite Hkeys, Hk.
  - intros k Hk. by rewrite Hkeys, Hk.
Qed.

(** ** The sub-HAL callback and shutdown *)

Lemma processEvents_events cb events : ∀ c st,
  (processEvents cb events c st).1.1
  = stampEvent (to_size_t (mSubHalIndex cb)) <$> events.
Proof.
  induction events as [|e events IH]; intros c st; [done|].
  cbn [processEvents].
  destruct (getSensorInfo _ st) as [sensor st1].
  match goal with
  | |- context [processEvents cb events ?c1 st1] =>
      specialize (IH c1 st1); destruct (processEvents cb events c1 st1) as [[out c2] st2]
  end.
  cbn [fst] in *. by rewrite IH.
Qed.

(** X11.  [processEvents] hands over the events it was given, in the same
    order and with the same type and payload, each under its handle stamped
    with the index of the callback's sub-HAL.  For an index below 128 and an
    unnamespaced handle, the stamped handle gives back the index and the
    handle the sub-HAL used. *)
Theorem processEvents_stamps_in_order (cb : HalProxyCallback) (events : list Event.t)
    (c : Z) (st : HalProxy) :
  let out := (processEvents cb events c st).1.1 in
  length out = length events ∧
  ∀ i e, events !! i = Some e →
    ∃ e', out !! i = Some e' ∧
          Event.sensorType e' = Event.sensorType e ∧
          Event.payload e' = Event.payload e ∧
          Event.sensorHandle e'
          = setSubHalIndex (Event.sensorHandle e) (to_size_t (mSubHalIndex cb)) ∧
          (0 <= mSubHalIndex cb < 128 →
           subHalIndexIsClear (Event.sensorHandle e) = true →
           extractSubHalIndex (Event.sensorHandle e') = mSubHalIndex cb ∧
           clearSubHalIndex (Event.sensorHandle e') = Event.sensorHandle e).
Proof.
  intros out. subst out. rewrite processEvents_events.
  split; [by rewrite length_fmap|].
  intros i e Hi. exists (stampEvent (to_size_t (mSubHalIndex cb)) e).
  split; [by rewrite list_lookup_fmap, Hi|].
  split; [done|]. split; [done|]. split; [done|].
  intros Hidx Hclear. cbn [stampEvent Event.set_sensorHandle Event.sensorHandle].
  rewrite (to_size_t_small (mSubHalIndex cb)) by (unfold is_size_t; lia).
  split.
  - by apply extractSubHalIndex_setSubHalIndex_low.
  - by apply clearSubHalIndex_setSubHalIndex.
Qed.

(** While the threads run, a turn of the pending-writes thread is the loop
    body on the front batch. *)
Lemma handlePendingWrites_turn_front readerTakes st q evs nw pending :
  mThreadsRun st = true →
  mEventQueue (pendingWrites st) = Some q →
  mPendingWriteEventsQueue (pendingWrites st) = (evs, nw) :: pending →
  handlePendingWrites_turn readerTakes st
  = Some (handlePendingWrites_front readerTakes q evs nw pending st).
Proof.
  intros Hrun Hq Hpending.
  unfold handlePendingWrites_turn, handlePendingWrites_front.
  rewrite Hrun, Hpending, Hq. cbn [negb mbind option_bind].
  by destruct (writeBlocking _ _ _) as [[] q'].
Qed.







(** ** Dynamic sensors *)

(** Carries a frame equation [Hframe] on a later state back to [st]. *)
Ltac frame_back Hframe st :=
  let Hf := fresh in
  pose proof (f_equal (λ x, set_logcat (logcat st)
                              (set_mDynamicSensors (mDynamicSensors st) x)) Hframe) as Hf;
  cbn beta in Hf;
  etransitivity; [|etransitivity; [exact Hf|by destruct st]];
  reflexivity.

Lemma disconnected_loop_spec removed subHalIndex : ∀ sensorHandles st,
  let r := onDynamicSensorsDisconnected_loop removed subHalIndex sensorHandles st in
  let keys := stampedHandles (to_size_t subHalIndex) removed in
  ∃ fwd,
    fst r = sensorHandles ++ fwd ∧
    NoDup fwd ∧
    (∀ k, k ∈ fwd ↔ k ∈ keys ∧ is_Some (mDynamicSensors st !! k)) ∧
    (∀ k, mDynamicSensors (snd r) !! k
          = if decide (k ∈ keys) then None else mDynamicSensors st !! k) ∧
    logcat (snd r)
    = logcat st ++
      ((λ _, ALOGE "Dynamic sensorHandle removed had first byte not 0." [])
         <$> filter (λ h, subHalIndexIsClear h ≠ true) removed) ∧
    set_logcat (logcat st) (set_mDynamicSensors (mDynamicSensors st) (snd r)) = st.
Proof.
  induction removed as [|h removed IH]; intros acc st.
  { exists []. cbn. rewrite !app_nil_r.
    split; [done|]. split; [constructor|]. split.
    - intros k. split; [by intros ?%elem_of_nil|by intros [?%elem_of_nil _]].
    - split; [|split; [done|by destruct st]].
      intros k. rewrite decide_False; [done|]. apply not_elem_of_nil. }
  cbn [onDynamicSensorsDisconnected_loop]. unfold stampedHandles in *.
  destruct (subHalIndexIsClear h) eqn:Hclear; cbn [negb].
  - rewrite filter_cons_True by done. rewrite filter_cons_False by (by intros ?).
    rewrite fmap_cons.
    set (k0 := setSubHalIndex h (to_size_t subHalIndex)).
    set (keys := (λ h, setSubHalIndex h (to_size_t subHalIndex)) <$> _) in *.
    destruct (mDynamicSensors st !! k0) as [s0|] eqn:Hk0.
    + destruct (IH (acc ++ [k0])
                   (set_mDynamicSensors (delete k0 (mDynamicSensors st)) st))
        as (fwd & Hfst & Hnd & Hin & Hlook & Hlog & Hframe).
      cbn [mDynamicSensors set_mDynamicSensors logcat] in *.
      exists (k0 :: fwd). rewrite Hfst, <- app_assoc.
      split; [done|]. split; [|split; [|split; [|split; [done|]]]].
      * apply NoDup_cons. split; [|done].
        intros [_ [x Hx]]%Hin. by rewrite lookup_delete_eq in Hx.
      * intros k. rewrite !elem_of_cons, Hin.
        destruct (decide (k = k0)) as [->|Hne].
        -- rewrite Hk0. split; [intros _; split; [by left|by eexists]|intros _; by left].
        -- rewrite lookup_delete_ne by done.
           split; [intros [?|[? ?]]; [done|split; [by right|done]]
                  |intros [[?|?] ?]; [done|by right]].
      * intros k. rewrite Hlook.
        destruct (decide (k = k0)) as [->|Hne].
        -- rewrite lookup_delete_eq. rewrite (decide_True (P := k0 ∈ k0 :: keys));
             [by destruct (decide _)|by left].
        -- rewrite lookup_delete_ne by done.
           destruct (decide (k ∈ keys)) as [Hk|Hk].
           ++ rewrite decide_True; [done|by right].
           ++ rewrite decide_False; [done|]. by intros [?|?]%elem_of_cons.
      * frame_back Hframe st.
    + destruct (IH acc st) as (fwd & Hfst & Hnd & Hin & Hlook & Hlog & Hframe).
      exists fwd. split; [done|]. split; [done|]. split; [|split; [|done]].
      * intros k. rewrite Hin, elem_of_cons.
        destruct (decide (k = k0)) as [->|Hne];
          [|split; [intros [? ?]; split; [by right|done]
                   |intros [[?|?] ?]; [done|by split]]].
        rewrite Hk0. split; intros [_ [x Hx]]; done.
      * intros k. rewrite Hlook.
        destruct (decide (k = k0)) as [->|Hne].
        -- rewrite Hk0. rewrite (decide_True (P := k0 ∈ k0 :: keys)); [|by left].
           by destruct (decide _).
        -- destruct (decide (k ∈ keys)) as [Hk|Hk].
           ++ rewrite decide_True; [done|by right].
           ++ rewrite decide_False; [done|]. by intros [?|?]%elem_of_cons.
  - rewrite filter_cons_False by (by rewrite Hclear).
    rewrite filter_cons_True by (by rewrite Hclear).
    destruct (IH acc (aloge "Dynamic sensorHandle removed had first byte not 0." [] st))
      as (fwd & Hfst & Hnd & Hin & Hlook & Hlog & Hframe).
    cbn [mDynamicSensors aloge set_logcat logcat] in *.
    exists fwd. split; [done|]. split; [done|]. split; [done|]. split; [done|].
    split.
    + rewrite Hlog, fmap_cons. by rewrite <- app_assoc.
    + frame_back Hframe st.
Qed.

(** X13.  A dynamic-sensors-disconnected notification removes from the
    catalog of dynamic sensors the stamped handles of the report it knows,
    and forwards exactly those, each once.  Handles that carry namespace bits
    are logged and ignored, unknown handles are ignored, and no other entry
    changes. *)
Theorem disconnected_forwards_known_handles (removed : list Z) (subHalIndex : Z)
    (st : HalProxy) :
  mDynamicSensorsCallback st = true →
  let keys := stampedHandles (to_size_t subHalIndex) removed in
  ∃ st' fwd,
    onDynamicSensorsDisconnected removed subHalIndex st = Some st' ∧
    upstream st' = upstream st ++ [OnDynamicSensorsDisconnected fwd] ∧
    NoDup fwd ∧
    (∀ k, k ∈ fwd ↔ k ∈ keys ∧ is_Some (mDynamicSensors st !! k)) ∧
    (∀ k, mDynamicSensors st' !! k
          = if decide (k ∈ keys) then None else mDynamicSensors st !! k) ∧
    logcat st'
    = logcat st ++
      ((λ _, ALOGE "Dynamic sensorHandle removed had first byte not 0." [])
         <$> filter (λ h, subHalIndexIsClear h ≠ true) removed) ∧
    mSensors st' = mSensors st ∧ mSubHalList st' = mSubHalList st.
Proof.
  intros Hcb keys. unfold onDynamicSensorsDisconnected.
  destruct (disconnected_loop_spec removed subHalIndex [] st)
    as (fwd & Hfst & Hnd & Hin & Hlook & Hlog & Hframe).
  destruct (onDynamicSensorsDisconnected_loop removed subHalIndex [] st) as [hs st1].
  cbn [fst snd] in *. subst hs.
  assert (mDynamicSensorsCallback st1 = mDynamicSensorsCallback st) as ->
    by exact (f_equal mDynamicSensorsCallback Hframe).
  rewrite Hcb. eexists _, fwd. split; [done|].
  cbn [upstream set_upstream mDynamicSensors logcat mSensors mSubHalList].
  split; [by rewrite <- (f_equal upstream Hframe)|].
  split; [done|]. split; [done|]. split; [done|]. split; [done|].
  split; [exact (f_equal mSensors Hframe)|exact (f_equal mSubHalList Hframe)].
Qed.

Lemma insertAll_lookup l : ∀ (m : gmap Z SensorInfo.t) k,
  (k ∉ SensorInfo.sensorHandle <$> l → insertAll m l !! k = m !! k) ∧
  (k ∈ SensorInfo.sensorHandle <$> l → is_Some (insertAll m l !! k)).
Proof.
  unfold insertAll.
  induction l as [|s l IH] using rev_ind; intros m k.
  { split; [done|]. by intros ?%elem_of_nil. }
  rewrite foldl_snoc, fmap_app, elem_of_app. cbn [fmap list_fmap].
  rewrite list_elem_of_singleton.
  destruct (decide (k = SensorInfo.sensorHandle s)) as [->|Hne].
  - rewrite lookup_insert_eq. split; [intros Hk; destruct Hk; by right|eauto].
  - rewrite lookup_insert_ne by done. destruct (IH m k) as [IH1 IH2].
    split; [intros Hk; apply IH1; intros Hin; apply Hk; by left
           |intros [Hk|Hk]; [by apply IH2|done]].
Qed.

Lemma stampedHandles_of_descriptors subHalIndex added :
  stampedHandles subHalIndex (SensorInfo.sensorHandle <$> added)
  = SensorInfo.sensorHandle <$> (stamp subHalIndex <$> filter unnamespaced added).
Proof.
  unfold stampedHandles, unnamespaced.
  induction added as [|s added IH]; [done|].
  rewrite fmap_cons.
  destruct (subHalIndexIsClear (SensorInfo.sensorHandle s)) eqn:Hs.
  - rewrite !filter_cons_True by done. rewrite !fmap_cons. by rewrite IH.
  - rewrite !filter_cons_False by (by rewrite Hs). done.
Qed.

(** X14.  Connecting dynamic sensors and then disconnecting them by the
    handles the sub-HAL reported undoes the connection: the disconnection
    forwards exactly the stamped handles of the unnamespaced descriptors,
    each once, none of them is left in the catalog of dynamic sensors, and
    every other entry is as it was before the connection. *)
Theorem connect_then_disconnect (added : list SensorInfo.t) (subHalIndex : Z)
    (st : HalProxy) :
  mDynamicSensorsCallback st = true →
  let connected := stamp (to_size_t subHalIndex) <$> filter unnamespaced added in
  let keys := SensorInfo.sensorHandle <$> connected in
  ∃ st1 st2 fwd,
    onDynamicSensorsConnected added subHalIndex st = Some st1 ∧
    onDynamicSensorsDisconnected (SensorInfo.sensorHandle <$> added) subHalIndex st1
    = Some st2 ∧
    upstream st2
    = upstream st ++ [OnDynamicSensorsConnected connected;
                      OnDynamicSensorsDisconnected fwd] ∧
    NoDup fwd ∧ (∀ k, k ∈ fwd ↔ k ∈ keys) ∧
    (∀ k, mDynamicSensors st2 !! k
          = if decide (k ∈ keys) then None else mDynamicSensors st !! k).
Proof.
  intros Hcb connected keys.
  unfold onDynamicSensorsConnected. rewrite dynamic_loop_spec. cbv zeta.
  cbn [mDynamicSensorsCallback set_logcat set_mDynamicSensors]. rewrite Hcb.
  fold connected.
  match goal with |- ∃ st1 st2 fwd, Some ?s = Some _ ∧ _ => set (st1 := s) end.
  exists st1.
  assert (mDynamicSensorsCallback st1 = true) as Hcb1 by done.
  destruct (disconnected_loop_spec (SensorInfo.sensorHandle <$> added) subHalIndex [] st1)
    as (fwd & Hfst & Hnd & Hin & Hlook & _ & Hframe).
  rewrite stampedHandles_of_descriptors in Hin, Hlook. fold connected keys in Hin, Hlook.
  unfold onDynamicSensorsDisconnected.
  destruct (onDynamicSensorsDisconnected_loop _ subHalIndex [] st1) as [hs st2].
  cbn [fst snd] in *. subst hs.
  assert (mDynamicSensorsCallback st2 = true) as ->
    by (rewrite <- Hcb1; exact (f_equal mDynamicSensorsCallback Hframe)).
  eexists _, fwd. split; [done|]. split; [done|].
  cbn [upstream set_upstream mDynamicSensors].
  split.
  { assert (upstream st2 = upstream st1) as -> by exact (f_equal upstream Hframe).
    subst st1. cbn [upstream set_upstream]. by rewrite <- app_assoc. }
  split; [done|].
  assert (mDynamicSensors st1 = insertAll (mDynamicSensors st) connected) as Hm1 by done.
  rewrite Hm1 in Hin, Hlook.
  split.
  - intros k. rewrite Hin. split; [by intros [? _]|].
    intros Hk. split; [done|]. by apply insertAll_lookup.
  - intros k. rewrite Hlook. destruct (decide (k ∈ keys)); [done|].
    by apply insertAll_lookup.
Qed.

(** ** From the catalog back to the sub-HALs *)

Lemma initializeSensorList_subHals st :
  mSubHalList (initializeSensorList st) = mSubHalList st.
Proof.
  unfold initializeSensorList.
  by destruct (initializeSensorList_from_designates (mSubHalList st) 0 st) as [-> _].
Qed.

(** X15.  With at most 128 sub-HALs, every entry that [initializeSensorList]
    adds to the catalog can be used: its handle is valid, it resolves to the
    sub-HAL that reported the descriptor, and [activate] on it reaches that
    sub-HAL, and no other, under the handle the sub-HAL reported. *)
Theorem catalog_handles_route_back (st : HalProxy) (k : Z) (s' : SensorInfo.t)
    (enabled : bool) :
  (length (mSubHalList st) <= 128)%nat →
  let st' := initializeSensorList st in
  mSensors st' !! k = Some s' → mSensors st !! k ≠ Some s' →
  ∃ sh s,
    mSubHalList st' !! getSubHalForSensorHandle k = Some sh ∧
    s ∈ getSensorsList sh ∧
    SensorInfo.sensorHandle s = clearSubHalIndex k ∧
    SensorInfo.name s = SensorInfo.name s' ∧
    SensorInfo.sensorHandle s' = k ∧
    isSubHalIndexValid k st' = true ∧
    activate k enabled st'
    = Some (fst (answer (Activate (SensorInfo.sensorHandle s) enabled) sh),
            forwarded (getSubHalForSensorHandle k)
                      (Activate (SensorInfo.sensorHandle s) enabled) sh st').
Proof.
  intros Hlen st' Hk Hnew. subst st'. unfold initializeSensorList in Hk.
  apply initializeSensorList_from_sound in Hk
    as [Hk|(i & sh & s & Hi & Hin & Hs & -> & Hhandle & Hname)]; [done|].
  pose proof (lookup_lt_Some _ _ _ Hi) as Hilen. rewrite Nat.add_0_l in *.
  assert (extractSubHalIndex (setSubHalIndex (SensorInfo.sensorHandle s) (Z.of_nat i))
          = Z.of_nat i) as Hextract
    by (apply extractSubHalIndex_setSubHalIndex_low; [done|lia]).
  assert (clearSubHalIndex (setSubHalIndex (SensorInfo.sensorHandle s) (Z.of_nat i))
          = SensorInfo.sensorHandle s) as Hclear
    by (by apply clearSubHalIndex_setSubHalIndex).
  assert (getSubHalForSensorHandle
            (setSubHalIndex (SensorInfo.sensorHandle s) (Z.of_nat i)) = i) as Hget
    by (unfold getSubHalForSensorHandle; rewrite Hextract; apply Nat2Z.id).
  assert (isSubHalIndexValid
            (setSubHalIndex (SensorInfo.sensorHandle s) (Z.of_nat i))
            (initializeSensorList st) = true) as Hvalid.
  { unfold isSubHalIndexValid. rewrite Hextract, initializeSensorList_subHals.
    apply Z.ltb_lt. unfold vsize. lia. }
  exists sh, s. rewrite Hget, initializeSensorList_subHals.
  split; [done|]. split; [done|]. split; [done|]. split; [done|]. split; [done|].
  split; [done|].
  unfold activate. rewrite Hvalid. cbn [negb]. rewrite Hget, Hclear.
  rewrite (callSubHal_forwarded i _ sh) by (by rewrite initializeSensorList_subHals).
  by destruct (answer _ sh).
Qed.

(** X16.  A handle stamped with a sub-HAL index from 128 to 255 is never
    valid, however many of the 256 sub-HALs are registered:
    [initializeSensorList] files the descriptors of such a sub-HAL in the
    catalog, and [activate] on their handles answers BAD_VALUE and reaches
    no sub-HAL. *)
Theorem high_subHal_sensors_unreachable (st : HalProxy) (i : nat) (sh : SubHal)
    (s : SensorInfo.t) (enabled : bool) :
  (length (mSubHalList st) <= 256)%nat → (128 <= i)%nat →
  mSubHalList st !! i = Some sh → s ∈ getSensorsList sh → unnamespaced s →
  let st' := initializeSensorList st in
  let k := setSubHalIndex (SensorInfo.sensorHandle s) (Z.of_nat i) in
  is_Some (mSensors st' !! k) ∧
  isSubHalIndexValid k st' = false ∧
  activate k enabled st' = Some (BAD_VALUE, st').
Proof.
  intros Hlen Hi Hlook Hin Hs st' k.
  pose proof (lookup_lt_Some _ _ _ Hlook) as Hilen.
  assert (isSubHalIndexValid k st' = false) as Hinvalid.
  { subst st' k. unfold isSubHalIndexValid.
    rewrite extractSubHalIndex_setSubHalIndex_high by (done || lia).
    rewrite initializeSensorList_subHals. apply Z.ltb_ge. unfold vsize. lia. }
  split; [|split; [done|]].
  - subst st' k. unfold initializeSensorList.
    destruct (initializeSensorList_from_inserts (mSubHalList st) 0 st i sh s Hlook Hin Hs)
      as (s' & Hs' & _).
    rewrite Nat.add_0_l in Hs'. eauto.
  - unfold activate. by rewrite Hinvalid.
Qed.

(** ** Disabling the sensors and initialising *)

Lemma called_nil sh : called [] sh = sh.
Proof. unfold called. rewrite app_nil_r. by destruct sh. Qed.

Lemma extendedBy_refl P l : extendedBy P l l.
Proof.
  split; [done|]. intros j sh Hj. exists []. by rewrite called_nil.
Qed.

Lemma extendedBy_trans P l1 l2 l3 :
  extendedBy P l1 l2 → extendedBy P l2 l3 → extendedBy P l1 l3.
Proof.
  intros [Hlen12 H12] [Hlen23 H23]. split; [congruence|].
  intros j sh Hj.
  destruct (H12 j sh Hj) as (cs1 & Hj2 & Hcs1).
  destruct (H23 j _ Hj2) as (cs2 & Hj3 & Hcs2).
  exists (cs1 ++ cs2). rewrite Hj3, called_called. split; [done|].
  by apply Forall_app.
Qed.

Lemma extendedBy_forwarded (P : SubHalCall → Prop) d c sh st :
  mSubHalList st !! d = Some sh → P c →
  extendedBy P (mSubHalList st) (mSubHalList (forwarded d c sh st)).
Proof.
  intros Hd Hc. cbn [forwarded mSubHalList set_mSubHalList].
  split; [apply length_insert|].
  intros j shj Hj. destruct (decide (j = d)) as [->|Hne].
  - exists [c]. rewrite list_lookup_insert_eq by (by eapply lookup_lt_Some).
    split; [congruence|]. by constructor.
  - exists []. rewrite list_lookup_insert_ne by done. by rewrite called_nil.
Qed.

(** [activate] always returns; a disabling call changes nothing but the
    history of the sub-HAL it reaches. *)
Lemma activate_disable sensorHandle st :
  ∃ r st',
    activate sensorHandle false st = Some (r, st') ∧
    set_mSubHalList (mSubHalList st) st' = st ∧
    extendedBy isDisable (mSubHalList st) (mSubHalList st') ∧
    (isSubHalIndexValid sensorHandle st = true →
     ∃ sh', mSubHalList st' !! getSubHalForSensorHandle sensorHandle = Some sh' ∧
            Activate (clearSubHalIndex sensorHandle) false ∈ shCalls sh').
Proof.
  unfold activate.
  destruct (isSubHalIndexValid sensorHandle st) eqn:Hvalid; cbn [negb].
  - destruct (valid_handle_resolves _ _ Hvalid) as [sh Hsh].
    rewrite (callSubHal_forwarded _ _ sh _ Hsh).
    destruct (answer _ sh) as [r z]. cbn [mbind option_bind].
    eexists _, _. split; [done|]. split; [by destruct st|].
    split; [apply extendedBy_forwarded; [done|by eexists]|].
    intros _. eexists. split; [by apply forwarded_target|].
    cbn [called shCalls]. apply elem_of_app. right. by left.
  - exists BAD_VALUE, st. split; [done|]. split; [by destruct st|].
    split; [apply extendedBy_refl|done].
Qed.

Lemma extendedBy_keeps_calls P l l' j sh' c :
  extendedBy P l l' → (∃ sh, l !! j = Some sh ∧ c ∈ shCalls sh) →
  l' !! j = Some sh' → c ∈ shCalls sh'.
Proof.
  intros [_ Hext] (sh & Hj & Hc) Hj'.
  destruct (Hext j sh Hj) as (cs & Hj2 & _).
  rewrite Hj2 in Hj'. injection Hj' as <-.
  cbn [called shCalls]. apply elem_of_app. by left.
Qed.

Lemma extendedBy_valid P st st' sensorHandle :
  extendedBy P (mSubHalList st) (mSubHalList st') →
  isSubHalIndexValid sensorHandle st' = isSubHalIndexValid sensorHandle st.
Proof. intros [Hlen _]. unfold isSubHalIndexValid, vsize. by rewrite Hlen. Qed.

Lemma disableAllSensors_loop_spec handles : ∀ st,
  ∃ st',
    disableAllSensors_loop handles st = Some st' ∧
    set_mSubHalList (mSubHalList st) st' = st ∧
    extendedBy isDisable (mSubHalList st) (mSubHalList st') ∧
    ∀ k, k ∈ handles → isSubHalIndexValid k st = true →
      ∃ sh', mSubHalList st' !! getSubHalForSensorHandle k = Some sh' ∧
             Activate (clearSubHalIndex k) false ∈ shCalls sh'.
Proof.
  induction handles as [|h handles IH]; intros st.
  { exists st. split; [done|]. split; [by destruct st|].
    split; [apply extendedBy_refl|]. by intros k ?%elem_of_nil. }
  cbn [disableAllSensors_loop].
  destruct (activate_disable h st) as (r & st1 & -> & Hframe1 & Hext1 & Hcall1).
  cbn [mbind option_bind].
  destruct (IH st1) as (st2 & -> & Hframe2 & Hext2 & Hcall2).
  exists st2. split; [done|].
  split.
  { rewrite <- Hframe1 at 2. rewrite <- Hframe2. by destruct st2. }
  split; [by eapply extendedBy_trans|].
  intros k [->|Hk]%elem_of_cons Hvalid.
  - destruct (Hcall1 Hvalid) as (sh1 & Hsh1 & Hin1).
    destruct Hext2 as [Hlen2 Hext2].
    destruct (Hext2 _ _ Hsh1) as (cs & Hsh2 & _).
    eexists. split; [done|]. cbn [called shCalls]. apply elem_of_app. by left.
  - apply Hcall2; [done|]. by rewrite (extendedBy_valid isDisable st st1).
Qed.

Lemma elem_of_sensorHandles (sensors : gmap Z SensorInfo.t) k :
  k ∈ sensorHandles sensors ↔ is_Some (sensors !! k).
Proof.
  unfold sensorHandles. rewrite merge_sort_Permutation.
  rewrite list_elem_of_fmap. split.
  - intros ([k' s] & -> & Hin). apply elem_of_map_to_list in Hin. by eexists.
  - intros [s Hs]. exists (k, s). split; [done|]. by apply elem_of_map_to_list.
Qed.

(** X17.  [disableAllSensors] always completes.  For every handle of the
    catalog and of the catalog of dynamic sensors that is valid, the sub-HAL
    it resolves to has received [Activate] with the local handle and
    [false]; the sub-HALs have received nothing but such disabling calls, and
    nothing else in the proxy has changed. *)
Theorem disableAllSensors_disables_everything (st : HalProxy) :
  ∃ st',
    disableAllSensors st = Some st' ∧
    set_mSubHalList (mSubHalList st) st' = st ∧
    extendedBy isDisable (mSubHalList st) (mSubHalList st') ∧
    ∀ k, is_Some (mSensors st !! k) ∨ is_Some (mDynamicSensors st !! k) →
      isSubHalIndexValid k st = true →
      ∃ sh', mSubHalList st' !! getSubHalForSensorHandle k = Some sh' ∧
             Activate (clearSubHalIndex k) false ∈ shCalls sh'.
Proof.
  unfold disableAllSensors.
  destruct (disableAllSensors_loop_spec (sensorHandles (mSensors st)) st)
    as (st1 & -> & Hframe1 & Hext1 & Hcall1).
  cbn [mbind option_bind].
  destruct (disableAllSensors_loop_spec (sensorHandles (mDynamicSensors st1)) st1)
    as (st2 & -> & Hframe2 & Hext2 & Hcall2).
  exists st2. split; [done|].
  split.
  { rewrite <- Hframe1 at 2. rewrite <- Hframe2. by destruct st2. }
  split; [by eapply extendedBy_trans|].
  assert (mDynamicSensors st1 = mDynamicSensors st) as Hdyn
    by exact (f_equal mDynamicSensors Hframe1).
  intros k [Hk|Hk] Hvalid.
  - destruct (Hcall1 k) as (sh1 & Hsh1 & Hin1); [by apply elem_of_sensorHandles|done|].
    destruct Hext2 as [Hlen2 Hext2].
    destruct (Hext2 _ _ Hsh1) as (cs & Hsh2 & _).
    eexists. split; [done|]. cbn [called shCalls]. apply elem_of_app. by left.
  - apply Hcall2.
    + apply elem_of_sensorHandles. by rewrite Hdyn.
    + by rewrite (extendedBy_valid isDisable st st1).
Qed.



(** ** Direct channels: one sub-HAL only *)

Lemma cleared_direct_flags f m : Z.land (Z.land f (Z.lnot m) mod 2 ^ 32) m = 0.
Proof.
  apply Z.bits_inj'. intros n Hn.
  rewrite Z.land_spec, Z.bits_0.
  destruct (Z.lt_ge_cases n 32) as [Hlow|Hhigh].
  - rewrite Z.mod_pow2_bits_low by lia.
    rewrite Z.land_spec, Z.lnot_spec by done.
    by destruct (Z.testbit f n), (Z.testbit m n).
  - by rewrite Z.mod_pow2_bits_high by lia.
Qed.

Lemma setDirectChannelFlags_first_come s i st :
  let r := setDirectChannelFlags s i st in
  (∀ d, mDirectChannelSubHal st = Some d → mDirectChannelSubHal (snd r) = Some d) ∧
  (Z.land (SensorInfo.flags (fst r)) directChannelMask ≠ 0 →
   mDirectChannelSubHal (snd r) = Some i).
Proof.
  unfold setDirectChannelFlags. cbv zeta.
  destruct (mDirectChannelSubHal st) as [d|] eqn:Hd.
  - case_bool_decide as Hne; cbn [fst snd].
    + split; [by intros ? [= <-]|].
      cbn [SensorInfo.flags SensorInfo.set_flags]. by rewrite cleared_direct_flags.
    + split; [by intros ? [= <-]|]. intros _. rewrite Hd. f_equal.
      destruct (decide (i = d)); [done|]. by destruct Hne.
  - destruct (Z.eqb_spec (Z.land (SensorInfo.flags s) directChannelMask) 0) as [H0|H0];
      cbn [negb fst snd].
    + split; [done|]. by rewrite H0.
    + by split.
Qed.

Lemma direct_exclusive_same_catalog st st' :
  mSensors st' = mSensors st →
  (∀ d, mDirectChannelSubHal st = Some d → mDirectChannelSubHal st' = Some d) →
  direct_exclusive st → direct_exclusive st'.
Proof.
  intros Hm Hd Hex k s Hk Hflags. rewrite Hm in Hk.
  destruct (Hex k s Hk Hflags) as (d & h & Hdes & Hh & ->).
  exists d, h. split; [by apply Hd|done].
Qed.

Lemma enumerated_exclusive s i st :
  direct_exclusive st →
  direct_exclusive (enumerated s i st) ∧
  ∀ d, mDirectChannelSubHal st = Some d →
       mDirectChannelSubHal (enumerated s i st) = Some d.
Proof.
  intros Hex. unfold enumerated. cbn [initializeSensorList_sensors].
  destruct (subHalIndexIsClear (SensorInfo.sensorHandle s)) eqn:Hclear; cbn [negb].
  - set (s1 := SensorInfo.set_sensorHandle _ s).
    set (st1 := alogv _ _ st).
    pose proof (setDirectChannelFlags_first_come s1 i st1) as [Hkeep Hnew].
    pose proof (setDirectChannelFlags_keeps s1 i st1) as (Hh & _ & Hm & _).
    destruct (setDirectChannelFlags s1 i st1) as [s2 st2]. cbn [fst snd] in *.
    split; [|exact Hkeep].
    intros k s' Hk Hflags. cbn [mSensors set_mSensors] in Hk.
    cbn [mDirectChannelSubHal set_mSensors].
    destruct (decide (SensorInfo.sensorHandle s2 = k)) as [<-|Hne].
    + rewrite lookup_insert_eq in Hk. injection Hk as <-.
      exists i, (SensorInfo.sensorHandle s).
      split; [by apply Hnew|]. split; [done|]. by rewrite Hh.
    + rewrite lookup_insert_ne in Hk by done. rewrite Hm in Hk.
      destruct (Hex k s' Hk Hflags) as (d & h & Hdes & Hhc & ->).
      exists d, h. split; [by apply Hkeep|done].
  - split; [|done]. by apply (direct_exclusive_same_catalog st).
Qed.

Lemma initializeSensorList_sensors_exclusive list i : ∀ st,
  direct_exclusive st →
  direct_exclusive (initializeSensorList_sensors list i st) ∧
  ∀ d, mDirectChannelSubHal st = Some d →
       mDirectChannelSubHal (initializeSensorList_sensors list i st) = Some d.
Proof.
  induction list as [|s list IH]; intros st Hex; [done|].
  rewrite initializeSensorList_sensors_cons.
  destruct (enumerated_exclusive s i st Hex) as [Hex1 Hkeep1].
  destruct (IH _ Hex1) as [Hex2 Hkeep2].
  split; [done|]. intros d Hd. by apply Hkeep2, Hkeep1.
Qed.

Lemma initializeSensorList_from_exclusive subHals : ∀ i st,
  direct_exclusive st →
  direct_exclusive (initializeSensorList_from subHals i st) ∧
  ∀ d, mDirectChannelSubHal st = Some d →
       mDirectChannelSubHal (initializeSensorList_from subHals i st) = Some d.
Proof.
  induction subHals as [|sh subHals IH]; intros i st Hex; [done|].
  cbn [initializeSensorList_from].
  destruct (initializeSensorList_sensors_exclusive (getSensorsList sh) i st Hex)
    as [Hex1 Hkeep1].
  destruct (IH (S i) _ Hex1) as [Hex2 Hkeep2].
  split; [done|]. intros d Hd. by apply Hkeep2, Hkeep1.
Qed.

(** X19.  Direct channels belong to one sub-HAL.  If every catalog entry
    that advertises direct channels is filed under a handle of the
    designated sub-HAL, this is so again after [initializeSensorList]; a
    sub-HAL once designated stays designated, and the designated sub-HAL is
    one of the registered ones. *)
Theorem direct_channel_is_exclusive (st : HalProxy) :
  direct_exclusive st →
  (∀ d, mDirectChannelSubHal st = Some d → (d < length (mSubHalList st))%nat) →
  let st' := initializeSensorList st in
  direct_exclusive st' ∧
  (∀ d, mDirectChannelSubHal st = Some d → mDirectChannelSubHal st' = Some d) ∧
  (∀ d, mDirectChannelSubHal st' = Some d → (d < length (mSubHalList st'))%nat).
Proof.
  intros Hex Hreg st'. subst st'. unfold initializeSensorList.
  destruct (initializeSensorList_from_exclusive (mSubHalList st) 0 st Hex) as [Hex' Hkeep].
  split; [done|]. split; [done|].
  destruct (initializeSensorList_from_designates (mSubHalList st) 0 st) as [Hl Hd].
  intros d Hdes. rewrite Hl.
  destruct Hd as [Hsame|(d' & Hd' & Hrange)].
  - apply Hreg. by rewrite <- Hsame.
  - rewrite Hd' in Hdes. injection Hdes as <-. lia.
Qed.

(** ** The catalog as the client reads it *)

Lemma omap_lookup_all (m : gmap Z SensorInfo.t) keys :
  (∀ k, k ∈ keys → is_Some (m !! k)) →
  Forall2 (λ k s, m !! k = Some s) keys (omap (λ k, m !! k) keys).
Proof.
  induction keys as [|k keys IH]; intros Hall; [constructor|].
  cbn [omap list_omap].
  destruct (Hall k) as [s Hs]; [by left|]. rewrite Hs.
  constructor; [done|]. apply IH. intros k' Hk'. apply Hall. by right.
Qed.

(** X20.  [getSensorsList] reports the catalog: one descriptor for each key
    of [mSensors], in ascending order of the keys, and nothing else. *)
Theorem getSensorsList_reports_catalog (st : HalProxy) :
  ∃ keys,
    Sorted Z.le keys ∧ NoDup keys ∧
    (∀ k, k ∈ keys ↔ is_Some (mSensors st !! k)) ∧
    Forall2 (λ k s, mSensors st !! k = Some s) keys (HalProxy_getSensorsList st) ∧
    length (HalProxy_getSensorsList st) = size (mSensors st).
Proof.
  exists (sensorHandles (mSensors st)).
  assert (Forall2 (λ k s, mSensors st !! k = Some s) (sensorHandles (mSensors st))
            (HalProxy_getSensorsList st)) as Hall.
  { apply omap_lookup_all. intros k. by rewrite elem_of_sensorHandles. }
  split; [apply Sorted_merge_sort; apply _|].
  split.
  { unfold sensorHandles. rewrite merge_sort_Permutation. apply NoDup_fst_map_to_list. }
  split; [apply elem_of_sensorHandles|]. split; [done|].
  rewrite <- (Forall2_length _ _ _ Hall). unfold sensorHandles.
  rewrite merge_sort_Permutation, length_fmap. apply length_map_to_list.
Qed.

(** ** From the callback to the event queue *)

Lemma processEvents_pendingWrites cb events :
  (∀ h s, pendingWrites (getSensorInfo h s).2 = pendingWrites s) →
  ∀ c st, pendingWrites (processEvents cb events c st).2 = pendingWrites st.
Proof.
  intros Hframe. induction events as [|e events IH]; intros c st; [done|].
  cbn [processEvents].
  pose proof (Hframe (Event.sensorHandle
                        (Event.set_sensorHandle
                           (setSubHalIndex (Event.sensorHandle e)
                                           (to_size_t (mSubHalIndex cb))) e)) st) as Hst.
  destruct (getSensorInfo _ st) as [sensor st1].
  match goal with
  | |- context [processEvents cb events ?c1 st1] =>
      specialize (IH c1 st1); destruct (processEvents cb events c1 st1) as [[out c2] st2]
  end.
  cbn [snd] in IH, Hst |- *. by rewrite IH.
Qed.

(** X21.  What a sub-HAL posts reaches the framework stamped and in order.
    While the threads run, and provided that looking a sensor up leaves the
    pending writes alone, a post through the callback of a sub-HAL that fits
    under the bound appends to the events written and waiting the events
    posted, each under its handle stamped with the index of that sub-HAL;
    nothing already written or waiting is lost or moved. *)
Theorem postEvents_delivers_stamped (cb : HalProxyCallback) (now : Z)
    (events : list Event.t) (lock : ScopedWakelock) (st : HalProxy) (q : MessageQueue) :
  (∀ h s, pendingWrites (getSensorInfo h s).2 = pendingWrites s) →
  mThreadsRun st = true →
  let p := pendingWrites st in
  mEventQueue p = Some q → mEventQueueFlag p = true → 0 <= availableToWrite q →
  queue_consistent p →
  kMaxSizePendingWriteEventsQueue < 2 ^ 64 →
  mSizePendingWriteEventsQueue p + vsize events <= kMaxSizePendingWriteEventsQueue →
  ∃ st' q',
    postEvents cb now events lock st = Some st' ∧
    mEventQueue (pendingWrites st') = Some q' ∧
    written q' ++ pendingEvents (mPendingWriteEventsQueue (pendingWrites st'))
    = written q ++ pendingEvents (mPendingWriteEventsQueue p)
        ++ (stampEvent (to_size_t (mSubHalIndex cb)) <$> events).
Proof.
  intros Hframe Hrun p Hq Hflag Havail Hcons Hmax Hfit.
  unfold postEvents, areThreadsRunning. rewrite Hrun. cbn [negb]. rewrite orb_false_r.
  case_bool_decide as Hev.
  { subst events. exists st, q. split; [done|]. split; [done|].
    cbn. by rewrite app_nil_r. }
  pose proof (processEvents_events cb events 0 st) as Hout.
  pose proof (processEvents_pendingWrites cb events Hframe 0 st) as Hp.
  destruct (processEvents cb events 0 st) as [[out n] st1].
  cbn [fst snd] in Hout, Hp. subst out.
  pose proof (postEventsToMessageQueue_split now
                (stampEvent (to_size_t (mSubHalIndex cb)) <$> events) n lock st1 q) as Hsplit.
  cbn zeta in Hsplit. rewrite Hp in Hsplit. fold p in Hsplit.
  destruct Hsplit as (st' & q' & Hpost & Hq' & Hwr & Hpend); [done..| |].
  { unfold vsize. rewrite length_fmap. exact Hfit. }
  exists st', q'. split; [done|]. split; [done|]. rewrite Hwr, Hpend.
  rewrite <- !app_assoc. f_equal.
  unfold writtenAtOnce.
  destruct (mPendingWriteEventsQueue p) as [|b pending].
  - cbn [pendingEvents fmap list_fmap concat app]. by rewrite take_drop.
  - cbn [Z.to_nat take drop app]. done.
Qed.

End HalProxy.

(** * Instances

    The theorems above at the sample configurations, and the inputs at which
    the code departs from a stated property. *)

(** ** Wake lock *)

(** A release stamped 5 when the last reset was at 10 changes nothing; a
    release of 2 stamped 11 brings the count from 2 to 0 and releases. *)
Lemma release_stale_or_counted_witness :
  decrementRefCountAndMaybeReleaseWakelock 1 5 (exHeld 2) = exHeld 2 ∧
  mWakelockRefCount (wakelock (decrementRefCountAndMaybeReleaseWakelock 2 11 (exHeld 2))) = 0 ∧
  power (wakelock (decrementRefCountAndMaybeReleaseWakelock 2 11 (exHeld 2)))
  = [acquire_wake_lock; release_wake_lock].
Proof.
  assert (is_size_t (mWakelockRefCount (wakelock (exHeld 2)))) as Hrc
    by (unfold is_size_t; simpl; lia).
  split.
  - destruct (release_stale_or_counted 1 5 (exHeld 2) Hrc ltac:(lia)) as (_ & Hstale & _).
    apply Hstale; [reflexivity|lia|simpl; lia].
  - destruct (release_stale_or_counted 2 11 (exHeld 2) Hrc ltac:(lia)) as (_ & _ & Heff).
    destruct (Heff eq_refl ltac:(right; simpl; lia)) as (Hcount & Hrel & _ & _).
    split.
    + rewrite Hcount. reflexivity.
    + apply Hrel. split; [simpl; lia|]. rewrite Hcount. reflexivity.
Defined.

(** C3, as stated, fails twice.  A release with the default stamp -1 precedes
    every reset time and still lowers the count; and a release that is not
    stale, made after the threads were stopped, subtracts nothing. *)
Lemma release_default_stamp_and_stopped_threads :
  (-1 < mWakelockTimeoutResetTime (wakelock (exHeld 2)) ∧
   mWakelockRefCount (wakelock (decrementRefCountAndMaybeReleaseWakelock 1 (-1) (exHeld 2)))
   ≠ mWakelockRefCount (wakelock (exHeld 2))) ∧
  (¬ 10 < mWakelockTimeoutResetTime (wakelock exStopped) ∧
   let rc := mWakelockRefCount (wakelock exStopped) in
   mWakelockRefCount (wakelock (decrementRefCountAndMaybeReleaseWakelock 2 10 exStopped))
   ≠ rc - Z.min rc 2 ∧
   power (wakelock (decrementRefCountAndMaybeReleaseWakelock 2 10 exStopped))
   ≠ power (wakelock exStopped) ++ [release_wake_lock]).
Proof.
  split; [split; [simpl; lia|by vm_compute]|].
  split; [simpl; lia|]. split; by vm_compute.
Qed.

(** ** Pending-write queue *)

(** Bound 10, eight events pending, five more posted: thirteen exceed the
    bound, the five are dropped and the eight stay. *)
Lemma post_overflow_drops_remainder_witness :
  ∃ st', postEventsToMessageQueue 10 0 (exEvents 11 5) 5 exLocked exBacklog = Some st' ∧
         mPendingWriteEventsQueue (pendingWrites st') = [(exEvents 1 8, 0)] ∧
         mSizePendingWriteEventsQueue (pendingWrites st') = 8.
Proof.
  destruct (post_overflow_drops_remainder 10 0 (exEvents 11 5) 5 exLocked exBacklog
              (mkMessageQueue 4 [] []))
    as (st' & q' & Hpost & _ & _ & Hpending & Hsize & _).
  - reflexivity.
  - reflexivity.
  - by vm_compute.
  - unfold is_size_t. simpl. lia.
  - by vm_compute.
  - vm_compute. by split.
  - exists st'. split; [exact Hpost|]. split; [exact Hpending|exact Hsize].
Defined.

(** C1, as stated, fails.  With bound 10, eight events pending and five
    wake-up events posted under a locked wake lock, the claim has the first
    two buffered (ten in all) and the count lowered by the three dropped.
    The code buffers none of the five and leaves the count at five. *)
Lemma post_overflow_buffers_nothing :
  ∃ st', postEventsToMessageQueue 10 0 (exEvents 11 5) 5 exLocked exBacklog = Some st' ∧
         mSizePendingWriteEventsQueue (pendingWrites st') = 8 ∧
         mPendingWriteEventsQueue (pendingWrites st') = [(exEvents 1 8, 0)] ∧
         mWakelockRefCount (wakelock st') = 5 ∧
         ¬ (mSizePendingWriteEventsQueue (pendingWrites st') = 10 ∧
            concat (fst <$> mPendingWriteEventsQueue (pendingWrites st'))
            = exEvents 1 8 ++ take 2 (exEvents 11 5) ∧
            mWakelockRefCount (wakelock st') = 5 - 3).
Proof.
  eexists. split; [by vm_compute|].
  repeat split. intros (Hsize & _). by vm_compute in Hsize.
Qed.

(** Six events posted to an empty queue of four slots, bound 10: four are
    written at once, two wait, and two turns of the pending-writes thread,
    the framework having read the first four, deliver them in order. *)
Lemma post_partial_write_then_drain_witness :
  ∃ st1 st2 q2,
    postEventsToMessageQueue 10 0 (exEvents 1 6) 0 exUnlocked exProxy = Some st1 ∧
    mPendingWriteEventsQueue (pendingWrites st1) = [(exEvents 5 2, 0)] ∧
    handlePendingWrites 1 [4; 0]%nat st1 = Some st2 ∧
    mEventQueue (pendingWrites st2) = Some q2 ∧
    written q2 = exEvents 1 6 ∧
    mPendingWriteEventsQueue (pendingWrites st2) = [].
Proof.
  destruct (post_partial_write_then_drain 10 1 0 (exEvents 1 6) 0 exUnlocked exProxy
              (mkMessageQueue 4 [] []))
    as (st1 & q1 & Hpost & _ & _ & Hpending & _ & Hdrain).
  - reflexivity.
  - reflexivity.
  - reflexivity.
  - vm_compute. by split.
  - unfold is_size_t. simpl. lia.
  - by vm_compute.
  - reflexivity.
  - assert (blockingWritesSucceed 1 [4; 0]%nat st1 = true) as Hok.
    { vm_compute in Hpost. injection Hpost as <-. by vm_compute. }
    destruct (Hdrain [4; 0]%nat eq_refl ltac:(simpl; lia) ltac:(by vm_compute) Hok)
      as (st2 & q2 & Hrun & Hq2 & Hwritten & Hempty & _).
    exists st1, st2, q2. repeat split; try assumption.
Defined.

(** ** Routing *)

(** Sub-HAL A accepts data injection and sub-HAL B refuses it: the call
    fails with B's answer, A has been set to DATA_INJECTION and back to
    NORMAL, and NORMAL stays recorded. *)
Lemma setOperationMode_all_or_rolled_back_witness :
  fst (setOperationMode DATA_INJECTION exProxy) = INVALID_OPERATION ∧
  mCurrentOperationMode (snd (setOperationMode DATA_INJECTION exProxy)) = NORMAL ∧
  mSubHalList (snd (setOperationMode DATA_INJECTION exProxy)) !! 0%nat
  = Some (called [SetOperationMode DATA_INJECTION; SetOperationMode NORMAL] exSubHalA) ∧
  fst (setOperationMode NORMAL exProxy) = OK.
Proof.
  destruct (setOperationMode_all_or_rolled_back DATA_INJECTION exProxy) as [Hreject _].
  destruct (Hreject 1%nat exSubHalB eq_refl) as (Hres & Hmode & Hcalls).
  { by vm_compute. }
  { intros [|j] shj Hj Hlook; [|lia]. injection Hlook as <-. reflexivity. }
  destruct (setOperationMode_all_or_rolled_back NORMAL exProxy) as [_ Haccept].
  destruct Haccept as (Hok & _).
  { intros [|[|j]] shj Hlook; [| |done]; injection Hlook as <-; reflexivity. }
  split; [exact Hres|]. split; [exact Hmode|]. split; [|exact Hok].
  exact (Hcalls 0%nat exSubHalA eq_refl).
Defined.

(** Handle 2^25 + 1 names a third sub-HAL where there are two: refused.
    Handle 2^24 + 1 goes to sub-HAL B as local handle 1. *)
Lemma handle_calls_checked_and_forwarded_witness :
  activate 33554433 true exProxy = Some (BAD_VALUE, exProxy) ∧
  flush 16777217 exProxy = Some (OK, forwarded 1 (Flush 1) exSubHalB exProxy) ∧
  injectSensorData 33 (Event.mk 16777217 33 0) exProxy
  = Some (OK, forwarded 1 (InjectSensorData (Event.mk 1 33 0)) exSubHalB exProxy).
Proof.
  split; [|split].
  - destruct (handle_calls_checked_and_forwarded 33 exProxy 33554433 true 0 0 (exEvent 0))
      as (Hinvalid & _).
    destruct (Hinvalid eq_refl) as (Hactivate & _). exact Hactivate.
  - destruct (handle_calls_checked_and_forwarded 33 exProxy 16777217 true 0 0 (exEvent 0))
      as (_ & _ & Hvalid & _).
    destruct (Hvalid eq_refl) as (sh & Hsh & _ & _ & Hflush).
    injection Hsh as <-. exact Hflush.
  - destruct (handle_calls_checked_and_forwarded 33 exProxy 0 true 0 0
                (Event.mk 16777217 33 0))
      as (_ & _ & _ & Hinject).
    destruct (Hinject eq_refl eq_refl) as (sh & Hsh & Hcall).
    injection Hsh as <-. exact Hcall.
Defined.

(** C7, as stated, fails for [injectSensorData].  Handle 1 resolves to
    sub-HAL A, which accepts every call; in NORMAL mode an event that is not
    of type ADDITIONAL_INFO (here 33) is answered BAD_VALUE and no sub-HAL
    receives it. *)
Lemma injectSensorData_refused_in_normal_mode :
  isSubHalIndexValid 1 exProxy = true ∧
  mSubHalList exProxy !! getSubHalForSensorHandle 1 = Some exSubHalA ∧
  ∃ st', injectSensorData 33 (Event.mk 1 1 0) exProxy = Some (BAD_VALUE, st') ∧
         mSubHalList st' = mSubHalList exProxy ∧
         st' ≠ forwarded 0 (InjectSensorData (Event.mk 1 1 0)) exSubHalA exProxy.
Proof.
  split; [reflexivity|]. split; [reflexivity|].
  eexists. split; [by vm_compute|]. split; [reflexivity|].
  intros Heq. apply (f_equal mSubHalList) in Heq.
  apply (f_equal (λ l, shCalls <$> l !! 0%nat)) in Heq. by vm_compute in Heq.
Qed.

(** With sub-HAL B designated, a registration goes to B and its answer comes
    back; with none, it is refused. *)
Lemma direct_channel_calls_routed_witness :
  registerDirectChannel 3 exDirect
  = Some (OK, 9, forwarded 1 (RegisterDirectChannel 3) exSubHalB exDirect) ∧
  unregisterDirectChannel 9 exProxy = Some (INVALID_OPERATION, exProxy).
Proof.
  split.
  - pose proof (direct_channel_calls_routed exDirect 3 9 1 0) as Hrouted.
    simpl in Hrouted.
    destruct (Hrouted exSubHalB eq_refl) as (Hreg & _). exact Hreg.
  - pose proof (direct_channel_calls_routed exProxy 3 9 1 0) as Hrouted.
    simpl in Hrouted.
    destruct Hrouted as (_ & Hunreg & _). exact Hunreg.
Defined.

(** ** Sensor catalog *)

(** Sub-HAL B reports a descriptor with handle 2 and one with handle
    2^24 + 2: the first is forwarded as 2^24 + 2, the second only logged. *)
Lemma malformed_descriptors_dropped_witness :
  ∃ st', onDynamicSensorsConnected exReport 1 exProxy = Some st' ∧
         upstream st' = [OnDynamicSensorsConnected [SensorInfo.mk 16777218 "ok" 0]] ∧
         mDynamicSensors st' = {[ 16777218 := SensorInfo.mk 16777218 "ok" 0 ]} ∧
         logcat st'
         = [ALOGE "Dynamic sensor added %s had sensorHandle with first byte not 0."
                  [LogStr "malformed"]].
Proof.
  destruct (malformed_descriptors_dropped 0 0 exReport 1 1 exProxy) as (_ & _ & Hdynamic).
  destruct (Hdynamic eq_refl) as (st' & Hcall & Hup & Hdyn & Hlog & _).
  exists st'. split; [exact Hcall|]. split; [exact Hup|]. split; [|exact Hlog].
  rewrite Hdyn. reflexivity.
Defined.

(** Sub-HAL A reports handle 1 and so does sub-HAL B: the catalog holds both,
    under 1 and under 2^24 + 1. *)
Example initializeSensorList_two_subHals :
  mSensors (initializeSensorList 0 0 (set_mSensors ∅ exProxy))
  = {[ 1 := SensorInfo.mk 1 "a1" 0; 16777217 := SensorInfo.mk 16777217 "b1" 1 ]} ∧
  isSubHalIndexValid 16777217 exProxy = true ∧
  getSubHalForSensorHandle 1 = 0%nat ∧
  getSubHalForSensorHandle 16777217 = 1%nat.
Proof. by vm_compute. Qed.

(** ** Further instances *)

(** The free lock of [exProxy] is consistent, and stays so when three events
    are counted. *)
Lemma wake_lock_held_iff_counted_witness :
  wakelock_consistent (wakelock exProxy) ∧
  wakelock_consistent
    (wakelock (snd (incrementRefCountAndMaybeAcquireWakelock 5 3 exProxy))) ∧
  wakelock_consistent (wakelock (resetSharedWakelock 9 (exHeld 2))).
Proof.
  assert (wakelock_consistent (wakelock exProxy)) as Hfree by reflexivity.
  assert (wakelock_consistent (wakelock (exHeld 2))) as Hheld by reflexivity.
  split; [exact Hfree|]. split.
  - destruct (wake_lock_held_iff_counted exProxy) as (Hinc & _ & _);
      [unfold is_size_t; simpl; lia|exact Hfree|].
    apply Hinc; simpl; lia.
  - destruct (wake_lock_held_iff_counted (exHeld 2)) as (_ & _ & Hreset);
      [unfold is_size_t; simpl; lia|exact Hheld|].
    apply Hreset.
Defined.

(** Three events counted and released on the free lock of [exProxy]: the
    count is back at zero after one acquire and one release. *)
Lemma acquire_then_release_restores_witness :
  let st' := decrementRefCountAndMaybeReleaseWakelock 3 5
               (snd (incrementRefCountAndMaybeAcquireWakelock 5 3 exProxy)) in
  mWakelockRefCount (wakelock st') = 0 ∧
  power (wakelock st') = [acquire_wake_lock; release_wake_lock].
Proof.
  destruct (acquire_then_release_restores 5 3 5 exProxy) as (Hcount & Hpower & _).
  - reflexivity.
  - unfold is_size_t. simpl. lia.
  - lia.
  - simpl. lia.
  - right. simpl. lia.
  - split; [exact Hcount|exact Hpower].
Defined.

(** On [exProxy] an acquisition for no event takes the OS wake lock, and a
    reset does not give it back. *)
Lemma acquire_for_no_event_leaks_witness :
  let st1 := snd (incrementRefCountAndMaybeAcquireWakelock 5 0 exProxy) in
  wake_lock_held (power (wakelock st1)) = true ∧
  power (wakelock (resetSharedWakelock 9 st1)) = power (wakelock st1).
Proof.
  destruct (acquire_for_no_event_leaks 5 exProxy eq_refl eq_refl)
    as (_ & _ & Hheld & _ & Hreset).
  split; [exact Hheld|apply Hreset].
Defined.

(** Ceiling 20: [exHeld 2] was last acquired at 12; at 40 the wake-lock
    thread resets it. *)
Lemma wake_lock_released_after_timeout_witness :
  ∃ st', handleWakelocks_turn 20 40 41 [] (exHeld 2) = Some st' ∧
         mWakelockRefCount (wakelock st') = 0 ∧
         power (wakelock st') = [acquire_wake_lock; release_wake_lock].
Proof.
  destruct (wake_lock_released_after_timeout 20 40 41 [] (exHeld 2))
    as (st' & Hturn & Hcount & Hpower & _).
  - reflexivity.
  - simpl. lia.
  - unfold is_int64. simpl. lia.
  - simpl. lia.
  - exists st'. split; [exact Hturn|]. split; [exact Hcount|exact Hpower].
Defined.

(** Ceiling 20, time 15: the framework acknowledges two events and the lock
    of [exHeld 2] is released. *)
Lemma wake_lock_acknowledged_witness :
  ∃ st', handleWakelocks_turn 20 15 16 [2] (exHeld 2) = Some st' ∧
         mWakelockRefCount (wakelock st') = 0 ∧
         power (wakelock st') = [acquire_wake_lock; release_wake_lock].
Proof.
  pose proof (wake_lock_acknowledged 20 15 16 [2] [] (exHeld 2)) as Hack.
  destruct Hack as (st' & Hturn & _ & Hcount & Hpower).
  - reflexivity.
  - simpl. lia.
  - unfold is_int64. simpl. lia.
  - simpl. lia.
  - reflexivity.
  - lia.
  - exists st'. split; [exact Hturn|]. split; [exact Hcount|exact Hpower].
Defined.

(** Bound 10: [exBacklog] counts its eight waiting events, and still counts
    right after two more are posted and after a turn of the thread. *)
Lemma pending_queue_accounted_witness :
  queue_consistent (pendingWrites exBacklog) ∧
  (∀ st', postEventsToMessageQueue 10 0 (exEvents 11 2) 0 exUnlocked exBacklog = Some st' →
          queue_consistent (pendingWrites st') ∧
          mSizePendingWriteEventsQueue (pendingWrites st') <= 10) ∧
  (∀ st', handlePendingWrites_turn 1 0 exBacklog = Some st' →
          queue_consistent (pendingWrites st')).
Proof.
  assert (queue_consistent (pendingWrites exBacklog)) as Hcons by (split; by vm_compute).
  destruct (pending_queue_accounted 10 1 exBacklog Hcons) as [Hpost Hturn].
  - by vm_compute.
  - reflexivity.
  - intros q [= <-]. split; by vm_compute.
  - split; [exact Hcons|]. split.
    + intros st' Hst'. apply (Hpost 0 (exEvents 11 2) 0 exUnlocked st'); [reflexivity|done].
    + intros st' Hst'. by apply (Hturn 0%nat st').
Defined.

(** Bound 10: two events posted to [exBacklog] wait behind the eight and the
    event queue is not written. *)
Lemma post_keeps_order_witness :
  ∃ st' q',
    postEventsToMessageQueue 10 0 (exEvents 11 2) 0 exUnlocked exBacklog = Some st' ∧
    mEventQueue (pendingWrites st') = Some q' ∧
    written q' = [] ∧
    pendingEvents (mPendingWriteEventsQueue (pendingWrites st'))
    = exEvents 1 8 ++ exEvents 11 2.
Proof.
  destruct (post_keeps_order 10 0 (exEvents 11 2) 0 exUnlocked exBacklog
              (mkMessageQueue 4 [] []))
    as (st' & q' & Hpost & Hq' & Horder & Hbehind).
  - reflexivity.
  - reflexivity.
  - by vm_compute.
  - split; by vm_compute.
  - reflexivity.
  - by vm_compute.
  - assert (written q' = []) as Hwr by (by apply Hbehind).
    exists st', q'. split; [exact Hpost|]. split; [exact Hq'|]. split; [exact Hwr|].
    rewrite Hwr in Horder. exact Horder.
Defined.

(** Two batches, of three and of two events: seven turns without a timeout
    deliver the five events in order. *)
Lemma pending_batches_drained_in_order_witness :
  ∃ st' q',
    handlePendingWrites 1 [0; 3; 0; 0; 0; 0; 0]%nat exTwoBatches = Some st' ∧
    mEventQueue (pendingWrites st') = Some q' ∧
    written q' = exEvents 1 5 ∧
    mPendingWriteEventsQueue (pendingWrites st') = [].
Proof.
  destruct (pending_batches_drained_in_order 1 [0; 3; 0; 0; 0; 0; 0]%nat exTwoBatches
              (mkMessageQueue 4 [] []))
    as (st' & q' & Hrun & Hq' & Hempty & Hwritten & _).
  - reflexivity.
  - reflexivity.
  - reflexivity.
  - by vm_compute.
  - by vm_compute.
  - exists st', q'. split; [exact Hrun|]. split; [exact Hq'|].
    split; [exact Hwritten|exact Hempty].
Defined.

(** The event queue of [exJammed] is full and the framework reads nothing:
    the two waiting events are dropped, the drop is logged and the one
    wake-up event of the batch is released. *)
Lemma blocking_write_timeout_drops_witness :
  ∃ st' q',
    handlePendingWrites_turn 1 0 exJammed = Some st' ∧
    mEventQueue (pendingWrites st') = Some q' ∧
    written q' = exEvents 21 4 ∧
    mPendingWriteEventsQueue (pendingWrites st') = [] ∧
    logcat st' = [ALOGE "Dropping %zu events after blockingWrite failed." [LogNum 2]] ∧
    mWakelockRefCount (wakelock st') = 0.
Proof.
  destruct (blocking_write_timeout_drops 1 0 exJammed (mkMessageQueue 4 (exEvents 21 4) [])
              (exEvents 1 2) 1 [])
    as (st' & q' & Hturn & Hq' & Hwritten & Hpending & Hlog & Hwl).
  - reflexivity.
  - reflexivity.
  - reflexivity.
  - by vm_compute.
  - exists st', q'. split; [exact Hturn|]. split; [exact Hq'|].
    split; [exact Hwritten|]. split; [exact Hpending|]. split; [exact Hlog|].
    rewrite Hwl. reflexivity.
Defined.

(** With wake-up flag 1, of an event of sensor 2^24 + 1 and an event of the
    unknown sensor 99 one is a wake-up event, and 99 enters the catalog. *)
Lemma countNumWakeupEvents_counts_and_fills_witness :
  let r := countNumWakeupEvents 1 [Event.mk 16777217 1 0; Event.mk 99 1 0] 2 exProxy in
  fst r = 1 ∧
  mSensors (snd r) !! 99 = Some SensorInfo.default ∧
  mSensors (snd r) !! 16777217 = Some (SensorInfo.mk 16777217 "b1" 1).
Proof.
  destruct (countNumWakeupEvents_counts_and_fills 1
              [Event.mk 16777217 1 0; Event.mk 99 1 0] 2 exProxy)
    as (Hcount & Hkept & Hfilled & _).
  - lia.
  - split; [exact Hcount|]. split.
    + rewrite Hfilled by reflexivity. reflexivity.
    + apply Hkept. reflexivity.
Defined.

(** The callback of sub-HAL 1 hands over an event of local handle 5 under
    handle 2^24 + 5, which gives back 1 and 5. *)
Lemma processEvents_stamps_in_order_witness :
  ∃ e', (processEvents 1 exGetSensorInfo (mkHalProxyCallback 1) [Event.mk 5 1 7] 0
                       exProxy).1.1 !! 0%nat = Some e' ∧
        Event.sensorHandle e' = 16777221 ∧
        extractSubHalIndex (Event.sensorHandle e') = 1 ∧
        clearSubHalIndex (Event.sensorHandle e') = 5.
Proof.
  destruct (processEvents_stamps_in_order 1 exGetSensorInfo (mkHalProxyCallback 1)
              [Event.mk 5 1 7] 0 exProxy) as [_ Hstamped].
  destruct (Hstamped 0%nat (Event.mk 5 1 7) eq_refl)
    as (e' & Hlook & _ & _ & Hhandle & Hback).
  destruct Hback as [Hindex Hlocal]; [simpl; lia|reflexivity|].
  exists e'. split; [exact Hlook|]. split; [exact Hhandle|].
  split; [exact Hindex|exact Hlocal].
Defined.


(** Sub-HAL B disconnects handle 2 (known), handle 2^24 + 2 (namespaced) and
    handle 3 (unknown): only 2^24 + 2 is forwarded and removed. *)
Lemma disconnected_forwards_known_handles_witness :
  ∃ st', onDynamicSensorsDisconnected [2; 16777218; 3] 1 exDynamic = Some st' ∧
         upstream st' = [OnDynamicSensorsDisconnected [16777218]] ∧
         mDynamicSensors st' !! 16777218 = None.
Proof.
  destruct (disconnected_forwards_known_handles [2; 16777218; 3] 1 exDynamic eq_refl)
    as (st' & fwd & Hcall & Hup & _ & _ & Hlook & _).
  exists st'. split; [exact Hcall|]. split.
  - vm_compute in Hcall. injection Hcall as <-. reflexivity.
  - rewrite Hlook. reflexivity.
Defined.

(** [exReport] connected and disconnected by sub-HAL B leaves no dynamic
    sensor behind. *)
Lemma connect_then_disconnect_witness :
  ∃ st1 st2,
    onDynamicSensorsConnected exReport 1 exProxy = Some st1 ∧
    onDynamicSensorsDisconnected (SensorInfo.sensorHandle <$> exReport) 1 st1 = Some st2 ∧
    mDynamicSensors st2 !! 16777218 = None.
Proof.
  destruct (connect_then_disconnect exReport 1 exProxy eq_refl)
    as (st1 & st2 & fwd & Hc & Hd & _ & _ & _ & Hlook).
  exists st1, st2. split; [exact Hc|]. split; [exact Hd|].
  rewrite Hlook. reflexivity.
Defined.

(** The catalog built for [exProxy] files sensor 1 of sub-HAL B under
    2^24 + 1, and [activate] on that handle reaches sub-HAL B with handle 1. *)
Lemma catalog_handles_route_back_witness :
  let st' := initializeSensorList 14 3072 (set_mSensors ∅ exProxy) in
  ∃ sh s, mSubHalList st' !! 1%nat = Some sh ∧
          s ∈ getSensorsList sh ∧
          SensorInfo.sensorHandle s = 1 ∧
          activate 16777217 true st'
          = Some ((answer (Activate (SensorInfo.sensorHandle s) true) sh).1,
                  forwarded 1 (Activate (SensorInfo.sensorHandle s) true) sh st').
Proof.
  destruct (catalog_handles_route_back 14 3072 (set_mSensors ∅ exProxy) 16777217
              (SensorInfo.mk 16777217 "b1" 1) true)
    as (sh & s & Hsh & Hs & Hlocal & _ & _ & _ & Hact).
  - simpl. lia.
  - reflexivity.
  - by vm_compute.
  - exists sh, s. split; [exact Hsh|]. split; [exact Hs|].
    split; [exact Hlocal|exact Hact].
Defined.

(** Sensor 1 of the 129th sub-HAL of [exManySubHals] is catalogued under
    [setSubHalIndex 1 128], that is 2^31 + 1, a handle [activate] refuses. *)
Lemma high_subHal_sensors_unreachable_witness :
  let st' := initializeSensorList 14 3072 exManySubHals in
  let k := setSubHalIndex 1 128 in
  is_Some (mSensors st' !! k) ∧
  isSubHalIndexValid k st' = false ∧
  activate k true st' = Some (BAD_VALUE, st').
Proof.
  apply (high_subHal_sensors_unreachable 14 3072 exManySubHals 128 exSubHalB
           (SensorInfo.mk 1 "b1" 1) true).
  - simpl. lia.
  - lia.
  - by vm_compute.
  - simpl. by left.
  - reflexivity.
Defined.

(** Disabling all sensors of [exProxy] sends sub-HAL A a deactivation of its
    sensor 1. *)
Lemma disableAllSensors_disables_everything_witness :
  ∃ st' sh', disableAllSensors exProxy = Some st' ∧
             mSubHalList st' !! 0%nat = Some sh' ∧
             Activate 1 false ∈ shCalls sh'.
Proof.
  destruct (disableAllSensors_disables_everything exProxy)
    as (st' & Hrun & _ & _ & Hall).
  destruct (Hall 1) as (sh' & Hsh' & Hcall).
  - left. exists (SensorInfo.mk 1 "a1" 0). by vm_compute.
  - reflexivity.
  - exists st', sh'. split; [exact Hrun|]. split; [exact Hsh'|exact Hcall].
Defined.


(** Of the two direct-channel sub-HALs of [exTwoDirect] the first is
    designated, and the sensor of the second is catalogued without its
    direct-channel flags. *)
Lemma direct_channel_is_exclusive_witness :
  let st' := initializeSensorList 14 3072 exTwoDirect in
  direct_exclusive 14 3072 st' ∧
  mDirectChannelSubHal st' = Some 0%nat ∧
  SensorInfo.flags <$> mSensors st' !! 16777220 = Some 0.
Proof.
  destruct (direct_channel_is_exclusive 14 3072 exTwoDirect) as (Hex & _ & _).
  - intros k s Hk. unfold exTwoDirect in Hk. cbn [mSensors set_mSensors] in Hk.
    by rewrite lookup_empty in Hk.
  - intros d Hd. by vm_compute in Hd.
  - split; [exact Hex|]. split; by vm_compute.
Defined.

(** Sub-HAL B posts three events of its sensor 1 to [exProxy], whose event
    queue has four free slots: the framework can read them under handle
    2^24 + 1. *)
Lemma postEvents_delivers_stamped_witness :
  ∃ st' q',
    postEvents 10 1 exGetSensorInfo (mkHalProxyCallback 1) 60 (exEvents 1 3) exUnlocked
               exProxy = Some st' ∧
    mEventQueue (pendingWrites st') = Some q' ∧
    written q' ++ pendingEvents (mPendingWriteEventsQueue (pendingWrites st'))
    = [Event.mk 16777217 1 1; Event.mk 16777217 1 2; Event.mk 16777217 1 3].
Proof.
  destruct (postEvents_delivers_stamped 10 1 exGetSensorInfo (mkHalProxyCallback 1) 60
              (exEvents 1 3) exUnlocked exProxy (mkMessageQueue 4 [] []))
    as (st' & q' & Hpost & Hq' & Horder).
  - intros h s. reflexivity.
  - reflexivity.
  - reflexivity.
  - reflexivity.
  - by vm_compute.
  - split; by vm_compute.
  - reflexivity.
  - by vm_compute.
  - exists st', q'. split; [exact Hpost|]. split; [exact Hq'|].
    rewrite Horder. reflexivity.
Defined.
